(** * Haunted-house maze game: maze generation, distance maps, key-cell
    placement and the movement state machine of [src/game.js].

    The JavaScript source is embedded shallowly:
    - a grid is a JavaScript array of rows, each row an array of numbers
      ([1] wall, [0] passage): [list (list Z)], read with JavaScript's
      indexing (an absent element reads [undefined], here [None]);
    - code that can throw, or that loops, returns a [res]: [Ok v], or
      [Err e] with the JavaScript exception ([TypeError], [RangeError]),
      [OutOfFuel] for a loop cut short by the model's iteration budget, or
      [Unmodelled] for the corners of JavaScript this model does not follow
      (sparse arrays, negative array properties, [NaN] arithmetic);
    - [Math.random()] is an explicit stream [rnd : nat -> Q] read through a
      counter that every draw advances; the draws, the candy anchor, the
      animation clock and the canvas layout are idealised as rationals;
    - the score that relocates the exit is computed and compared in IEEE 754
      binary64, as JavaScript computes it: the operations of the Standard
      Library's [SpecFloat] at precision 53, rounding to nearest even;
    - the mutable globals of the game (player, flags, pending animation) are
      one record threaded through the event handlers;
    - drawing, sound and the DOM are left out: of the functions that touch
      them only what they compute or schedule is kept. *)

From Stdlib Require Import ZArith QArith Qround Qminmax Lia Lqa String SpecFloat.
From stdpp Require Import base option list gmap sorting.

Open Scope Z_scope.

(* ================================================================== *)
(** * Results of JavaScript code *)

Inductive failure : Type :=
| TypeError    (* a property of [undefined] was read or written *)
| RangeError   (* [Array(n)] with a negative [n] *)
| Unmodelled   (* sparse array, negative array property or NaN arithmetic *)
| OutOfFuel.   (* the model's iteration budget ran out *)

Inductive res (A : Type) : Type :=
| Ok (a : A)
| Err (e : failure).
Arguments Ok {A} a.
Arguments Err {A} e.

#[global] Instance res_ret : MRet res := fun A a => Ok a.
#[global] Instance res_bind : MBind res := fun A B f m =>
  match m with
  | Ok a => f a
  | Err e => Err e
  end.

(** [for (const a of l) s = f(s, a)] where the body may throw. *)
Fixpoint foldM {A S : Type} (f : S -> A -> res S) (s : S) (l : list A) : res S :=
  match l with
  | [] => Ok s
  | a :: l' => s' ← f s a; foldM f s' l'
  end.

(** [for (let i = 0; i < n; i++) s = f(s)] where the body may throw. *)
Fixpoint iterM {S : Type} (n : nat) (f : S -> res S) (s : S) : res S :=
  match n with
  | O => Ok s
  | S n' => s' ← f s; iterM n' f s'
  end.

(* ================================================================== *)
(** * JavaScript numbers where rounding decides: IEEE 754 binary64 *)

(** A double: sign, mantissa and exponent, or a zero, an infinity or NaN. *)
Definition double : Type := spec_float.

(** The double of an integer, exact below [2^53]. *)
Definition ofZ (z : Z) : double := binary_normalize 53 1024 z 0 false.

Definition fadd (x y : double) : double := SFadd 53 1024 x y.
Definition fmul (x y : double) : double := SFmul 53 1024 x y.
Definition fdiv (x y : double) : double := SFdiv 53 1024 x y.

(** [x > y]; false when either is NaN. *)
Definition fgt (x y : double) : bool := SFltb y x.

(* ================================================================== *)
(** * Grids: arrays of arrays of numbers *)

(** A cell coordinate [{x, y}] is the pair [(x, y)]; a direction
    [{dx, dy}] is the pair [(dx, dy)]. *)
Abbreviation Cell := (Z * Z)%type.
Abbreviation Dir := (Z * Z)%type.
Abbreviation Grid := (list (list Z)).

Definition WALL : Z := 1.
Definition PASSAGE : Z := 0.

(** [a[i]] on an array: [undefined] ([None]) outside [0 .. length-1]. *)
Definition jsIndex {A : Type} (l : list A) (i : Z) : option A :=
  if decide (0 <= i) then l !! Z.to_nat i else None.

(** [a[i] = v] on an array of numbers without holes: in range it overwrites,
    at [i = a.length] it appends; further out JavaScript leaves holes and
    below zero it sets a property that is no element. *)
Definition jsStore (row : list Z) (i : Z) (v : Z) : res (list Z) :=
  if decide (i < 0) then Err Unmodelled
  else if decide (i < Z.of_nat (length row)) then Ok (<[Z.to_nat i := v]> row)
  else if decide (i = Z.of_nat (length row)) then Ok (row ++ [v])
  else Err Unmodelled.

(** The value of [g[y][x]] when row [y] exists, [None] for [undefined]. *)
Definition cellAt (g : Grid) (x y : Z) : option Z :=
  row ← jsIndex g y; jsIndex row x.

(** The expression [g[y][x]]: a [TypeError] when [g[y]] is [undefined]. *)
Definition readCell (g : Grid) (x y : Z) : res (option Z) :=
  match jsIndex g y with
  | None => Err TypeError
  | Some row => Ok (jsIndex row x)
  end.

(** The statement [g[y][x] = v]. *)
Definition writeCell (g : Grid) (x y : Z) (v : Z) : res Grid :=
  match jsIndex g y with
  | None => Err TypeError
  | Some row => row' ← jsStore row x v; Ok (<[Z.to_nat y := row']> g)
  end.

(** [Array.from({ length: h }, () => Array(w).fill(v))]: a non-positive
    length gives the empty array and never calls the row constructor. *)
Definition newGrid (w h : Z) (v : Z) : res Grid :=
  if decide (h <= 0) then Ok []
  else if decide (w < 0) then Err RangeError
  else Ok (replicate (Z.to_nat h) (replicate (Z.to_nat w) v)).

(* ================================================================== *)
(** * Maze generation: [generatePerfectMaze] *)

(** [if (n % 2 === 0) n += 1]; JavaScript's [%] truncates like [Z.rem]. *)
Definition ensureOdd (n : Z) : Z :=
  if decide (Z.rem n 2 = 0) then n + 1 else n.

Definition carveDirs : list Dir := [(2, 0); (-2, 0); (0, 2); (0, -2)].

Definition carve (g : Grid) (x y : Z) : res Grid := writeCell g x y PASSAGE.

Section Generator.
(** The stream of values [Math.random()] returns, in call order. *)
Variable rnd : nat -> Q.

(** [dirs.map(d => ({ d, r: Math.random() }))] from draw [k] on. *)
Fixpoint tagRandom (ds : list Dir) (k : nat) : list (Dir * Q) * nat :=
  match ds with
  | [] => ([], k)
  | d :: ds' =>
      let '(l, k') := tagRandom ds' (S k) in ((d, rnd k) :: l, k')
  end.

(** [.sort((a, b) => a.r - b.r)]: a stable sort by the key [r]. *)
Fixpoint insertByKey (o : Dir * Q) (l : list (Dir * Q)) : list (Dir * Q) :=
  match l with
  | [] => [o]
  | p :: l' => if Qle_bool o.2 p.2 then o :: l else p :: insertByKey o l'
  end.

Definition sortByKey (l : list (Dir * Q)) : list (Dir * Q) :=
  foldr insertByKey [] l.

(** The shuffled directions of one iteration and the next draw. *)
Definition shuffle (k : nat) : list Dir * nat :=
  let '(tagged, k') := tagRandom carveDirs k in ((sortByKey tagged).*1, k').

(** The [for (const d of shuffled)] loop of one iteration: [Some (g', n)]
    when a neighbour [n] was carved ([carved = true; break]), [None] when
    every direction was skipped. *)
Fixpoint tryDirs (w h : Z) (g : Grid) (cur : Cell) (ds : list Dir)
  : res (option (Grid * Cell)) :=
  match ds with
  | [] => Ok None
  | d :: ds' =>
      let nx := cur.1 + d.1 in
      let ny := cur.2 + d.2 in
      if decide (nx <= 0 \/ ny <= 0 \/ nx >= w - 1 \/ ny >= h - 1)
      then tryDirs w h g cur ds'
      else
        v ← readCell g nx ny;
        if decide (v = Some 0) then tryDirs w h g cur ds'
        else
          let wx := cur.1 + d.1 / 2 in
          let wy := cur.2 + d.2 / 2 in
          g1 ← carve g wx wy;
          g2 ← carve g1 nx ny;
          Ok (Some (g2, (nx, ny)))
  end.

(** [while (stack.length) { ... }]; the stack is a list whose head is
    [stack[stack.length - 1]]. *)
Fixpoint carveLoop (fuel : nat) (w h : Z) (g : Grid) (stack : list Cell)
    (k : nat) : res (Grid * nat) :=
  match fuel with
  | O => Err OutOfFuel
  | S fuel' =>
      match stack with
      | [] => Ok (g, k)
      | cur :: below =>
          let '(shuffled, k') := shuffle k in
          r ← tryDirs w h g cur shuffled;
          match r with
          | Some (g', n) => carveLoop fuel' w h g' (n :: stack) k'
          | None => carveLoop fuel' w h g below k'
          end
      end
  end.

Definition carveFuel (w h : Z) : nat := Z.to_nat (2 * w * h) + 2.

(** Lines 57-100: the grid after the carve loop, for dimensions already
    made odd, and the number of random draws used. *)
Definition carvePhase (w h : Z) : res (Grid * nat) :=
  g ← newGrid w h WALL;
  g ← carve g 1 1;
  carveLoop (carveFuel w h) w h g [(1, 1)] 0%nat.

(** [(g[y][x] === 0)] used as a number. *)
Definition isOpen (g : Grid) (x y : Z) : res Z :=
  v ← readCell g x y; Ok (if decide (v = Some 0) then 1 else 0).

(** One iteration of the soft re-walling loop (lines 105-121). *)
Definition softWall (w h : Z) (st : Grid * nat) : res (Grid * nat) :=
  let '(g, k) := st in
  let x := 1 + Qfloor (rnd k * inject_Z (w - 2)) in
  let y := 1 + Qfloor (rnd (S k) * inject_Z (h - 2)) in
  let k := S (S k) in
  v ← readCell g x y;
  if decide (v <> Some 0) then Ok (g, k)
  else
    up ← isOpen g x (y - 1);
    down ← isOpen g x (y + 1);
    left ← isOpen g (x - 1) y;
    right ← isOpen g (x + 1) y;
    let openN := up + down + left + right in
    if decide (openN >= 3) then
      if Qlt_le_dec (rnd k) (1 # 4)
      then g' ← writeCell g x y WALL; Ok (g', S k)
      else Ok (g, S k)
    else Ok (g, k).

(** Lines 124-131: the border is forced back to wall. *)
Definition wallRowEnds (w h : Z) (g : Grid) : res Grid :=
  g ← foldM (fun g x => g' ← writeCell g x 0 WALL; writeCell g' x (h - 1) WALL)
            g (seqZ 0 w);
  foldM (fun g y => g' ← writeCell g 0 y WALL; writeCell g' (w - 1) y WALL)
        g (seqZ 0 h).

Definition generatePerfectMaze (w h : Z) : res Grid :=
  let w := ensureOdd w in
  let h := ensureOdd h in
  '(g, k) ← carvePhase w h;
  '(g, _) ← iterM 140 (softWall w h) (g, k);
  wallRowEnds w h g.
End Generator.

(* ================================================================== *)
(** * Queries on the current maze: the globals [maze], [rows], [cols] *)

Definition stepDirs : list Dir := [(1, 0); (-1, 0); (0, 1); (0, -1)].

Record KeyCells : Type := {
  startCell : Cell;
  exitCell : Cell;
  candyCell : Cell
}.

Section Maze.
(** The global [maze]; [initGame] sets [rows = maze.length] and
    [cols = maze[0].length] whenever it replaces the maze (both are [0]
    with the initial empty maze). *)
Variable maze : Grid.

Definition rows : Z := Z.of_nat (length maze).
Definition cols : Z :=
  match maze with
  | [] => 0
  | row :: _ => Z.of_nat (length row)
  end.

(** [isWalkable]: the bounds test keeps [maze[y]] defined. *)
Definition isWalkable (x y : Z) : bool :=
  if decide (x < 0 \/ x >= cols \/ y < 0 \/ y >= rows) then false
  else bool_decide (cellAt maze x y = Some 0).

(** The [for (const d of dirs)] loop of [nearestPassage] around [c]; the
    [Set] of keys [`${x},${y}`] is the set of the cells themselves. *)
Definition ringVisit (c : Cell) (st : list Cell * gset Cell) (d : Dir)
  : list Cell * gset Cell :=
  let '(q, seen) := st in
  let nx := c.1 + d.1 in
  let ny := c.2 + d.2 in
  if decide (nx < 0 \/ ny < 0 \/ nx >= cols \/ ny >= rows) then st
  else if decide ((nx, ny) ∈ seen) then st
  else (q ++ [(nx, ny)], {[(nx, ny)]} ∪ seen).

Fixpoint ringLoop (fuel : nat) (q : list Cell) (seen : gset Cell) : res Cell :=
  match fuel with
  | O => Err OutOfFuel
  | S fuel' =>
      match q with
      | [] => Ok (1, 1)
      | c :: q' =>
          if isWalkable c.1 c.2 then Ok c
          else
            let '(q'', seen') := foldl (ringVisit c) (q', seen) stepDirs in
            ringLoop fuel' q'' seen'
      end
  end.

Definition searchFuel : nat := Z.to_nat (rows * cols) + 2.

Definition nearestPassage (targetX targetY : Z) : res Cell :=
  ringLoop searchFuel [(targetX, targetY)] {[(targetX, targetY)]}.

(** The [for (const d of dirs)] loop of [bfsDistances] around [c]. *)
Definition bfsVisit (c : Cell) (st : Grid * list Cell) (d : Dir)
  : res (Grid * list Cell) :=
  let '(dist, q) := st in
  let nx := c.1 + d.1 in
  let ny := c.2 + d.2 in
  if negb (isWalkable nx ny) then Ok st
  else
    v ← readCell dist nx ny;
    if decide (v <> Some (-1)) then Ok st
    else
      dc ← readCell dist c.1 c.2;
      match dc with
      | None => Err Unmodelled
      | Some n =>
          dist' ← writeCell dist nx ny (n + 1);
          Ok (dist', q ++ [(nx, ny)])
      end.

Fixpoint bfsLoop (fuel : nat) (dist : Grid) (q : list Cell) : res Grid :=
  match fuel with
  | O => Err OutOfFuel
  | S fuel' =>
      match q with
      | [] => Ok dist
      | c :: q' =>
          '(dist', q'') ← foldM (bfsVisit c) (dist, q') stepDirs;
          bfsLoop fuel' dist' q''
      end
  end.

Definition bfsFuel : nat := Z.to_nat (2 * rows * cols) + 3.

Definition bfsDistances (from : Cell) : res Grid :=
  dist ← newGrid cols rows (-1);
  dist ← writeCell dist from.1 from.2 0;
  bfsLoop bfsFuel dist [from].

Definition getAllPassages : list Cell :=
  y ← seqZ 0 rows;
  x ← seqZ 0 cols;
  if decide (cellAt maze x y = Some 0) then [(x, y)] else [].

(** The candy objective of a cell with distances [a] and [b]. *)
Definition candyScore (a b : Z) : Z := Z.min a b * 10 + (a + b).

(** One iteration of the candy loop (lines 218-232) on the pair
    [(best, bestScore)]. With an [undefined] distance every comparison
    of the body is false or the score is [NaN]: nothing is updated. *)
Definition candyStep (dStart dExit : Grid) (st : option Cell * Z) (c : Cell)
  : res (option Cell * Z) :=
  a ← readCell dStart c.1 c.2;
  b ← readCell dExit c.1 c.2;
  match a, b with
  | Some a, Some b =>
      if decide (a < 0 \/ b < 0) then Ok st
      else if decide (a < 40) then Ok st
      else if decide (b < 40) then Ok st
      else
        let score := candyScore a b in
        if decide (score > st.2) then Ok (Some c, score) else Ok st
  | _, _ => Ok st
  end.

(** [bias] and [combined] of the exit relocation (lines 248-249), in
    doubles: two divisions, an addition, a multiplication and an addition,
    each rounded. *)
Definition exitBias (c : Cell) : double :=
  fadd (fdiv (ofZ c.1) (ofZ cols)) (fdiv (ofZ c.2) (ofZ rows)).
Definition exitCombined (dc : Z) (c : Cell) : double :=
  fadd (ofZ dc) (fmul (exitBias c) (ofZ 15)).

(** One iteration of the relocation loop (lines 244-255) on the pair
    [(bestExit, bestED)]; [dc > bestED] is false for an [undefined] [dc]. *)
Definition exitStep (dCandy : Grid) (st : Cell * double) (c : Cell)
  : res (Cell * double) :=
  dc ← readCell dCandy c.1 c.2;
  match dc with
  | None => Ok st
  | Some dc =>
      if fgt (ofZ dc) st.2 then
        if fgt (exitCombined dc c) st.2 then Ok (c, exitCombined dc c)
        else Ok st
      else Ok st
  end.

(** Lines 215-235: the candy cell, given the two distance maps. *)
Definition chooseCandy (dStart dExit : Grid) (passages : list Cell) : res Cell :=
  '(best, bestScore) ← foldM (candyStep dStart dExit) (head passages, -1) passages;
  if decide (bestScore >= 0) then
    match best with
    | Some c => Ok c
    | None => Err Unmodelled
    end
  else nearestPassage (Qfloor (inject_Z cols * (3 # 10)))
                      (Qfloor (inject_Z rows * (3 # 10))).

(** Lines 239-257: the final exit, given the candy's distance map. *)
Definition relocateExit (dCandy : Grid) (passages : list Cell) (exit0 : Cell)
  : res Cell :=
  d ← readCell dCandy exit0.1 exit0.2;
  match d with
  | Some d =>
      if decide (d < 60) then
        '(bestExit, _) ← foldM (exitStep dCandy) (exit0, ofZ (-1)) passages;
        Ok bestExit
      else Ok exit0
  | None => Ok exit0
  end.

Definition placeKeyCells : res KeyCells :=
  start ← nearestPassage 1 (rows - 2);
  exit0 ← nearestPassage (cols - 2) (rows - 2);
  dStart ← bfsDistances start;
  dExit ← bfsDistances exit0;
  let passages := getAllPassages in
  candy ← chooseCandy dStart dExit passages;
  dCandy ← bfsDistances candy;
  exit ← relocateExit dCandy passages exit0;
  Ok {| startCell := start; exitCell := exit; candyCell := candy |}.
End Maze.

(* ================================================================== *)
(** * Decoration: [placeMonsters] *)

(** The emoji a monster is drawn with: the entries of [base], in order. *)
Inductive Emoji : Type := Ghost | Imp | Spider | Zombie | Bat.

Definition monsterBase : list Emoji := [Ghost; Imp; Spider; Zombie; Bat].

(** An entry of [monsters]; [base[i % base.length]] reads [undefined]
    ([None]) outside the array. *)
Record Monster : Type := {
  monsterX : Z;
  monsterY : Z;
  emoji : option Emoji
}.

(** The test that skips a cell: it is the start, the exit or the candy. *)
Definition isKeyCell (k : KeyCells) (c : Cell) : bool :=
  bool_decide (c = startCell k) || bool_decide (c = exitCell k)
  || bool_decide (c = candyCell k).

Section Monsters.
(** The stream of values [Math.random()] returns, in call order. *)
Variable rnd : nat -> Q.

(** The [for (let i = 0; i < 6; i++)] loop from the counter [i], the draw
    [n] and the monsters pushed so far; [i--; continue] followed by the
    [i++] of the loop leaves [i] as it is. Reading [c.x] of an [undefined]
    [c] throws. *)
Fixpoint monsterLoop (fuel : nat) (passages : list Cell) (k : KeyCells)
    (i : Z) (n : nat) (monsters : list Monster) : res (list Monster * nat) :=
  match fuel with
  | O => Err OutOfFuel
  | S fuel' =>
      if decide (i < 6) then
        match jsIndex passages
                (Qfloor (rnd n * inject_Z (Z.of_nat (length passages)))) with
        | None => Err TypeError
        | Some c =>
            if isKeyCell k c then monsterLoop fuel' passages k i (S n) monsters
            else
              monsterLoop fuel' passages k (i + 1) (S n)
                (monsters ++ [{| monsterX := c.1; monsterY := c.2;
                                 emoji := jsIndex monsterBase (Z.rem i 5) |}])
        end
      else Ok (monsters, n)
  end.

(** [placeMonsters()] on a maze with its key cells: the new [monsters] and
    the number of draws made. The loop has no bound of its own, so the
    iteration budget is a parameter. *)
Definition placeMonsters (fuel : nat) (maze : Grid) (k : KeyCells)
  : res (list Monster * nat) :=
  monsterLoop fuel (getAllPassages maze) k 0 0%nat [].
End Monsters.

(* ================================================================== *)
(** * Render sizing: [fitCanvas] *)

(** [Math.round]: the nearest integer, a half rounded up. *)
Definition jsRound (q : Q) : Z := Qfloor (q + (1 # 2)).

(** What [fitCanvas] sets: the size of the canvas in device pixels, the
    scale of the drawing context, and the globals [cellSize], [offsetX] and
    [offsetY]. *)
Record Layout : Type := {
  canvasWidth : Z;
  canvasHeight : Z;
  scale : Z;
  cellSize : Z;
  offsetX : Z;
  offsetY : Z
}.

(** [fitCanvas()] for a maze of [rows] by [cols] cells when
    [canvas.clientWidth] reads [wrapW] and [window.devicePixelRatio] reads
    [ratio] ([None] for [undefined]; [0] is falsy like it). Without rows or
    columns the quotients are [NaN] or infinite. *)
Definition fitCanvas (rows cols : Z) (wrapW : Z) (ratio : option Q) : res Layout :=
  if decide (rows <= 0 \/ cols <= 0) then Err Unmodelled
  else
    let targetW := Z.min 980 wrapW in
    let targetH := jsRound (inject_Z targetW * (inject_Z rows / inject_Z cols)) in
    let dpr := Z.max 1 (Qfloor (match ratio with
                                | Some r => if Qeq_bool r 0 then 1%Q else r
                                | None => 1%Q
                                end)) in
    let size := Qfloor (Qmin (inject_Z targetW / inject_Z cols)
                             (inject_Z targetH / inject_Z rows)) in
    let gridW := size * cols in
    let gridH := size * rows in
    Ok {| canvasWidth := Qfloor (inject_Z targetW * inject_Z dpr);
          canvasHeight := Qfloor (inject_Z targetH * inject_Z dpr);
          scale := dpr;
          cellSize := size;
          offsetX := Qfloor (inject_Z (targetW - gridW) / 2);
          offsetY := Qfloor (inject_Z (targetH - gridH) / 2) |}.

(* ================================================================== *)
(** * Player, movement and the progress flags *)

Record Player : Type := {
  cellX : Z;
  cellY : Z;
  px : Q;
  py : Q;
  moving : bool;
  hasCandy : bool
}.

(** The closure [animate] that [tryMove] hands to [requestAnimationFrame]:
    the variables it captured. *)
Record Animation : Type := {
  sx : Z;
  sy : Z;
  ex : Z;
  ey : Z;
  startT : Q
}.

(** What the movement code asks of its collaborators, in call order. *)
Inductive Notice : Type :=
| CandyCollected   (* showToast("Candy collected! ... EXIT unlocked") *)
| FindCandyFirst   (* showToast("Find the candy ... first!") *)
| FinishMaze.      (* a call of finishMaze() *)

(** The globals the movement code reads and writes. [pending] is the
    [animate] callback waiting for its next frame; [notices] lists the
    calls to collaborators, latest first. *)
Record Game : Type := {
  maze : Grid;
  keys : KeyCells;
  player : Player;
  gameFinished : bool;
  queuedDir : option string;
  pending : option Animation;
  notices : list Notice
}.

Definition MOVE_MS : Q := 120%Q.

Definition dirToDelta (dir : string) : option Dir :=
  if decide (dir = "up"%string) then Some (0, -1)
  else if decide (dir = "down"%string) then Some (0, 1)
  else if decide (dir = "left"%string) then Some (-1, 0)
  else if decide (dir = "right"%string) then Some (1, 0)
  else None.

(** [tryMove(dir)] called when [performance.now()] reads [now]. *)
Definition tryMove (dir : string) (now : Q) (s : Game) : Game :=
  if gameFinished s then s
  else if moving (player s) then
    {| maze := maze s; keys := keys s; player := player s;
       gameFinished := gameFinished s; queuedDir := Some dir;
       pending := pending s; notices := notices s |}
  else
    match dirToDelta dir with
    | None => s
    | Some d =>
        let nx := cellX (player s) + d.1 in
        let ny := cellY (player s) + d.2 in
        if negb (isWalkable (maze s) nx ny) then s
        else
          {| maze := maze s; keys := keys s;
             player := {| cellX := nx; cellY := ny;
                          px := px (player s); py := py (player s);
                          moving := true; hasCandy := hasCandy (player s) |};
             gameFinished := gameFinished s;
             queuedDir := None;
             pending := Some {| sx := cellX (player s); sy := cellY (player s);
                                ex := nx; ey := ny; startT := now |};
             notices := notices s |}
    end.

(** [finishMaze()]: the flag; the scene change is presentation. *)
Definition finishMaze (s : Game) : Game :=
  if gameFinished s then s
  else {| maze := maze s; keys := keys s; player := player s;
          gameFinished := true; queuedDir := queuedDir s;
          pending := pending s; notices := notices s |}.

(** [if (queuedDir)]: [null] and the empty string are falsy. *)
Definition truthy (q : option string) : option string :=
  match q with
  | Some dir => if decide (dir = ""%string) then None else Some dir
  | None => None
  end.

(** A call to a collaborator is recorded. *)
Definition say (n : Notice) (s : Game) : Game :=
  {| maze := maze s; keys := keys s; player := player s;
     gameFinished := gameFinished s; queuedDir := queuedDir s;
     pending := pending s; notices := n :: notices s |}.

(** Lines 719-731: the animation [a] has ended; the player stands on the
    target cell and picks the candy up if it lies there. *)
Definition land (a : Animation) (s : Game) : Game :=
  let here := (cellX (player s), cellY (player s)) in
  let pickup :=
    negb (hasCandy (player s)) && bool_decide (here = candyCell (keys s)) in
  {| maze := maze s; keys := keys s;
     player := {| cellX := cellX (player s); cellY := cellY (player s);
                  px := inject_Z (ex a); py := inject_Z (ey a);
                  moving := false;
                  hasCandy := hasCandy (player s) || pickup |};
     gameFinished := gameFinished s; queuedDir := queuedDir s;
     pending := None;
     notices := if pickup then CandyCollected :: notices s else notices s |}.

(** Lines 743-747: the pending direction, if any, is taken out of the
    slot and tried. *)
Definition drainQueue (now : Q) (s : Game) : Game :=
  match truthy (queuedDir s) with
  | Some next =>
      tryMove next now
        {| maze := maze s; keys := keys s; player := player s;
           gameFinished := gameFinished s; queuedDir := None;
           pending := pending s; notices := notices s |}
  | None => s
  end.

(** The frame callback [animate(t)] of the closure [a]; [now] is what
    [performance.now()] reads if the queued move starts in this frame. *)
Definition animate (a : Animation) (t now : Q) (s : Game) : Game :=
  let p := Qmin 1 ((t - startT a) / MOVE_MS) in
  let e := (1 - (1 - p) ^ 3)%Q in
  if Qlt_le_dec p 1 then
    {| maze := maze s; keys := keys s;
       player := {| cellX := cellX (player s); cellY := cellY (player s);
                    px := inject_Z (sx a) + inject_Z (ex a - sx a) * e;
                    py := inject_Z (sy a) + inject_Z (ey a - sy a) * e;
                    moving := moving (player s); hasCandy := hasCandy (player s) |};
       gameFinished := gameFinished s; queuedDir := queuedDir s;
       pending := Some a; notices := notices s |}
  else
    let s1 := land a s in
    if bool_decide ((cellX (player s1), cellY (player s1)) = exitCell (keys s1)) then
      if negb (hasCandy (player s1)) then drainQueue now (say FindCandyFirst s1)
      else finishMaze (say FinishMaze s1)
    else drainQueue now s1.

(** What the browser delivers to the game. *)
Inductive Event : Type :=
| Request (dir : string) (now : Q)   (* an input handler calls tryMove(dir) *)
| Frame (t now : Q).                 (* the requested animation frame runs *)

Definition step (s : Game) (e : Event) : Game :=
  match e with
  | Request dir now => tryMove dir now s
  | Frame t now =>
      match pending s with
      | Some a => animate a t now s
      | None => s
      end
  end.

Definition run (s : Game) (evs : list Event) : Game := foldl step s evs.

(** The session [initGame] leaves behind on a maze with its key cells. *)
Definition newSession (m : Grid) (k : KeyCells) : Game :=
  {| maze := m; keys := k;
     player := {| cellX := (startCell k).1; cellY := (startCell k).2;
                  px := inject_Z (startCell k).1; py := inject_Z (startCell k).2;
                  moving := false; hasCandy := false |};
     gameFinished := false; queuedDir := None; pending := None; notices := [] |}.

(* ================================================================== *)
(** * The house sequence: [runHouseSequence], [randBetween] *)

(** [randBetween(a, b)] when [Math.random()] returns [r]. *)
Definition randBetween (r : Q) (a b : Z) : Z :=
  Qfloor (inject_Z a + r * inject_Z (b - a)).

(** What a timer of the house sequence reveals. *)
Inductive Reveal : Type :=
| ShowThanks     (* thanksText.classList.add("show") *)
| ShowEnvelope   (* envelopeBtn.classList.add("show") *)
| ShowHint.      (* envHint.classList.add("show") *)

(** The timers [runHouseSequence] sets, each with its delay in
    milliseconds, from draw [k] on, and the next draw. *)
Definition runHouseSequence (rnd : nat -> Q) (k : nat) : list (Z * Reveal) * nat :=
  ([(randBetween (rnd k) 2000 3000, ShowThanks);
    (randBetween (rnd (S k)) 4200 6000, ShowEnvelope);
    (randBetween (rnd (S (S k))) 6500 9000, ShowHint)],
   S (S (S k))).

(* ================================================================== *)
(** * Restart and initialisation: [resetGame], [initGame] *)

Definition GEN_COLS : Z := 41.
Definition GEN_ROWS : Z := 29.

(** [resetGame()] up to the animation frame it requests: the flags and the
    pending-move slot are cleared; the maze is replaced in that frame, by
    [initGame(true)]. *)
Definition resetGame (s : Game) : Game :=
  {| maze := maze s; keys := keys s;
     player := {| cellX := cellX (player s); cellY := cellY (player s);
                  px := px (player s); py := py (player s);
                  moving := moving (player s); hasCandy := false |};
     gameFinished := false; queuedDir := None;
     pending := pending s; notices := notices s |}.

Section Init.
(** The stream of values [Math.random()] returns, in call order. *)
Variable rnd : nat -> Q.

(** The number of draws [generatePerfectMaze] has made when it returns. *)
Definition generateDraws (w h : Z) : res nat :=
  let w := ensureOdd w in
  let h := ensureOdd h in
  '(g, k) ← carvePhase rnd w h;
  '(_, k) ← iterM 140 (softWall rnd w h) (g, k);
  Ok k.

(** [initGame(regenerate)] on the game [s] with the monsters [monsters]: a
    new maze with its key cells and monsters when asked for or when there is
    no maze yet, and the player put on the start cell. The monsters draw
    after the generator; [fuel] is their iteration budget. *)
Definition initGame (fuel : nat) (regenerate : bool) (s : Game) (monsters : list Monster)
  : res (Game * list Monster) :=
  '(m, k, ms) ←
    (if regenerate || bool_decide (length (maze s) = 0%nat) then
       m ← generatePerfectMaze rnd GEN_COLS GEN_ROWS;
       n ← generateDraws GEN_COLS GEN_ROWS;
       k ← placeKeyCells m;
       '(ms, _) ← placeMonsters (fun i => rnd (n + i)%nat) fuel m k;
       Ok (m, k, ms)
     else Ok (maze s, keys s, monsters));
  Ok ({| maze := m; keys := k;
         player := {| cellX := (startCell k).1; cellY := (startCell k).2;
                      px := inject_Z (startCell k).1; py := inject_Z (startCell k).2;
                      moving := false; hasCandy := hasCandy (player s) |};
         gameFinished := gameFinished s; queuedDir := queuedDir s;
         pending := pending s; notices := notices s |}, ms).
End Init.

(* ================================================================== *)
(** * Vocabulary of the specification *)

(** ** Paths through the passages *)

(** Two cells are orthogonal neighbours. *)
Definition adjacent (a b : Cell) : Prop :=
  Z.abs (a.1 - b.1) + Z.abs (a.2 - b.2) = 1.

(** [path m n a b]: [b] is reached from [a] in [n] steps between
    orthogonal neighbours, every cell stepped onto being walkable. *)
Inductive path (m : Grid) : nat -> Cell -> Cell -> Prop :=
| path_here (a : Cell) : path m 0 a a
| path_step (n : nat) (a b c : Cell) :
    path m n a b -> adjacent b c -> isWalkable m c.1 c.2 = true ->
    path m (S n) a c.

Definition reachable (m : Grid) (a b : Cell) : Prop := exists n, path m n a b.

(** ** Shape and census of a grid *)

(** A grid of [h] rows of [w] numbers each. *)
Definition rect (w h : Z) (g : Grid) : Prop :=
  Z.of_nat (length g) = h /\ Forall (fun row => Z.of_nat (length row) = w) g.

(** The cells the carve loop can stand on: odd coordinates off the border. *)
Definition room (w h : Z) (c : Cell) : Prop :=
  Z.odd c.1 = true /\ Z.odd c.2 = true /\
  0 < c.1 < w - 1 /\ 0 < c.2 < h - 1.

(** Number of cells [(x, y)] holding [v] with [f x y v], counted from
    column [x0] of a row and from row [y0] of a grid. *)
Fixpoint countRow (f : Z -> Z -> bool) (x0 : Z) (row : list Z) : nat :=
  match row with
  | [] => 0
  | v :: row' => (if f x0 v then 1 else 0) + countRow f (x0 + 1) row'
  end%nat.

Fixpoint countGrid (f : Z -> Z -> Z -> bool) (y0 : Z) (g : Grid) : nat :=
  match g with
  | [] => 0
  | row :: g' => countRow (fun x v => f x y0 v) 0 row + countGrid f (y0 + 1) g'
  end%nat.

Definition isRoomPassage (x y v : Z) : bool :=
  Z.odd x && Z.odd y && bool_decide (v = 0).
Definition isLinkPassage (x y v : Z) : bool :=
  negb (Z.odd x && Z.odd y) && bool_decide (v = 0).
Definition isWallValue (x y v : Z) : bool := negb (bool_decide (v = 0)).

(** Passages on odd-odd cells (the vertices of the carved graph), passages
    elsewhere (its edges), and cells that are no passage. *)
Definition roomCount (g : Grid) : nat := countGrid isRoomPassage 0 g.
Definition linkCount (g : Grid) : nat := countGrid isLinkPassage 0 g.
Definition wallCount (g : Grid) : nat := countGrid isWallValue 0 g.

Definition b2n (b : bool) : nat := if b then 1%nat else 0%nat.

(** ** The generator *)

(** What holds of the grid and the stack throughout the carve loop: the
    passages lie off the border, each is a room or the link between two
    carved rooms in line with it, each is reachable from cell (1, 1), a
    carved room is still on the stack or has all its rooms two steps away
    carved, and the links number one fewer than the carved rooms. *)
Record carveInv (w h : Z) (g : Grid) (stack : list Cell) : Prop := {
  inv_rect : rect w h g;
  inv_origin : cellAt g 1 1 = Some 0;
  inv_stack : forall c, c ∈ stack -> room w h c /\ cellAt g c.1 c.2 = Some 0;
  inv_inside : forall x y, cellAt g x y = Some 0 -> 0 < x < w - 1 /\ 0 < y < h - 1;
  inv_shape : forall x y, cellAt g x y = Some 0 ->
      (Z.odd x = true /\ Z.odd y = true)
      \/ (Z.odd x = false /\ Z.odd y = true /\
          cellAt g (x - 1) y = Some 0 /\ cellAt g (x + 1) y = Some 0)
      \/ (Z.odd x = true /\ Z.odd y = false /\
          cellAt g x (y - 1) = Some 0 /\ cellAt g x (y + 1) = Some 0);
  inv_conn : forall x y, cellAt g x y = Some 0 -> reachable g (1, 1) (x, y);
  inv_closed : forall c, room w h c -> cellAt g c.1 c.2 = Some 0 ->
      c ∈ stack \/
      forall d, d ∈ carveDirs -> room w h (c.1 + d.1, c.2 + d.2) ->
                cellAt g (c.1 + d.1) (c.2 + d.2) = Some 0;
  inv_count : roomCount g = (linkCount g + 1)%nat
}.

(** Every draw lies in [[0, 1)], as [Math.random()] promises. *)
Definition unitRange (rnd : nat -> Q) : Prop :=
  forall i, (0 <= rnd i)%Q /\ (rnd i < 1)%Q.

(** What the soft re-walling and the border loops keep: the shape, the
    passage at (1, 1) and a border free of passages. *)
Record softInv (w h : Z) (g : Grid) : Prop := {
  soft_rect : rect w h g;
  soft_origin : cellAt g 1 1 = Some 0;
  soft_inside : forall x y, cellAt g x y = Some 0 -> 0 < x < w - 1 /\ 0 < y < h - 1
}.

(** The cells of the outer border of a [w] by [h] grid. *)
Definition onBorder (w h : Z) (x y : Z) : Prop :=
  (0 <= x < w /\ (y = 0 \/ y = h - 1)) \/ (0 <= y < h /\ (x = 0 \/ x = w - 1)).

(** A stream of draws that are all [0]. *)
Definition zeroStream : nat -> Q := fun _ => 0%Q.

(** The number of passages among the four neighbours of a cell: the
    [openN] of the soft re-walling. *)
Definition openNeighbours (g : Grid) (x y : Z) : Z :=
  (if decide (cellAt g x (y - 1) = Some 0) then 1 else 0) +
  (if decide (cellAt g x (y + 1) = Some 0) then 1 else 0) +
  (if decide (cellAt g (x - 1) y = Some 0) then 1 else 0) +
  (if decide (cellAt g (x + 1) y = Some 0) then 1 else 0).

(** [g] is [g0] with some of its passages that had three or more passages
    around them turned into walls. *)
Record thinned (w h : Z) (g0 g : Grid) : Prop := {
  thin_rect : rect w h g;
  thin_sub : forall x y, cellAt g x y = Some 0 -> cellAt g0 x y = Some 0;
  thin_junction : forall x y, cellAt g0 x y = Some 0 -> cellAt g x y <> Some 0 ->
      cellAt g x y = Some 1 /\ 3 <= openNeighbours g0 x y
}.

(** Draws that make the carve loop on a 7 by 7 grid walk down the middle
    column and fork at its foot, and the first soft re-walling attempt pick
    the fork, cell (3, 5), and wall it; every other draw is [0]. *)
Definition forkStream (i : nat) : Q :=
  if bool_decide (i ∈ [4; 5; 7; 8; 9; 11; 12; 14; 15; 68]%nat) then (1 # 2)%Q
  else if bool_decide (i = 69%nat) then (9 # 10)%Q
  else 0%Q.

(** The 7 by 7 grid the carve loop leaves on [forkStream], and the maze
    [generatePerfectMaze] returns on it. *)
Definition carved7 : Grid :=
  [[1; 1; 1; 1; 1; 1; 1];
   [1; 0; 0; 0; 1; 0; 1];
   [1; 1; 1; 0; 1; 0; 1];
   [1; 0; 1; 0; 1; 0; 1];
   [1; 0; 1; 0; 1; 0; 1];
   [1; 0; 0; 0; 0; 0; 1];
   [1; 1; 1; 1; 1; 1; 1]].

Definition maze7 : Grid :=
  [[1; 1; 1; 1; 1; 1; 1];
   [1; 0; 0; 0; 1; 0; 1];
   [1; 1; 1; 0; 1; 0; 1];
   [1; 0; 1; 0; 1; 0; 1];
   [1; 0; 1; 0; 1; 0; 1];
   [1; 0; 0; 1; 0; 0; 1];
   [1; 1; 1; 1; 1; 1; 1]].

(** Draws that are [0] while the generator runs on 41 by 29 cells (2516
    draws) and [1/2] afterwards. *)
Definition lateHalfStream (i : nat) : Q := if (i <? 2516)%nat then 0%Q else (1 # 2)%Q.

(** ** Distance maps and the ring search *)

(** The number a distance map holds for a cell, [-1] where it holds none. *)
Definition distOf (dist : Grid) (c : Cell) : Z := default (-1) (cellAt dist c.1 c.2).

Definition isUnvisited (x y v : Z) : bool := bool_decide (v = -1).
Definition unvisitedCount (dist : Grid) : nat := countGrid isUnvisited 0 dist.

(** The queue is ordered by distance. *)
Fixpoint sortedBy (key : Cell -> Z) (q : list Cell) : Prop :=
  match q with
  | [] => True
  | c :: q' => (forall u, u ∈ q' -> key c <= key u) /\ sortedBy key q'
  end.

(** What holds of the distance map and the queue (the cell being expanded
    included) throughout [bfsDistances] from [a]. *)
Record bfsInv (maze : Grid) (a : Cell) (dist : Grid) (q : list Cell) : Prop := {
  bfs_rect : rect (cols maze) (rows maze) dist;
  bfs_source : distOf dist a = 0;
  bfs_low : forall c, -1 <= distOf dist c;
  bfs_path : forall c, 0 <= distOf dist c -> path maze (Z.to_nat (distOf dist c)) a c;
  bfs_queue : forall c, c ∈ q -> 0 <= distOf dist c;
  bfs_sorted : sortedBy (distOf dist) q;
  bfs_front : forall c u, u ∈ q -> distOf dist c <= distOf dist u + 1;
  bfs_closed : forall c, 0 <= distOf dist c ->
      c ∈ q \/
      forall c', adjacent c c' -> isWalkable maze c'.1 c'.2 = true ->
                 0 <= distOf dist c' <= distOf dist c + 1
}.

(** Every cell of the maze rectangle, row by row. *)
Definition allCells (maze : Grid) : list Cell :=
  y ← seqZ 0 (rows maze); x ← seqZ 0 (cols maze); [(x, y)].

(** The cells of the rectangle the ring search has not seen yet. *)
Definition unseenCount (maze : Grid) (seen : gset Cell) : nat :=
  length (filter (fun c => c ∉ seen) (allCells maze)).

(** The number of orthogonal steps between two cells on an open grid. *)
Definition manhattan (a b : Cell) : Z := Z.abs (a.1 - b.1) + Z.abs (a.2 - b.2).

(** The cell lies in the rectangle of the maze. *)
Definition inside (maze : Grid) (c : Cell) : Prop :=
  0 <= c.1 < cols maze /\ 0 <= c.2 < rows maze.

(** What holds of the queue and the set of seen cells throughout the ring
    search around [t]: a seen cell waits in the queue or was found to be no
    passage and has all its neighbours inside the maze seen; the queue is
    ordered by the distance from [t] and spans at most two distances. *)
Record ringInv (maze : Grid) (t : Cell) (q : list Cell) (seen : gset Cell) : Prop := {
  ring_target : t ∈ seen;
  ring_done : forall c, c ∈ seen ->
      c ∈ q \/ (isWalkable maze c.1 c.2 = false /\
                forall n, adjacent c n -> inside maze n -> n ∈ seen);
  ring_sorted : sortedBy (manhattan t) q;
  ring_front : forall u v, u ∈ q -> v ∈ q -> manhattan t u <= manhattan t v + 1
}.

(** Row by row, and from left to right within a row. *)
Definition rowMajor (a b : Cell) : Prop := a.2 < b.2 \/ (a.2 = b.2 /\ a.1 < b.1).

(** ** Key-cell placement *)

(** The candy objective of a cell, when both of its distances clear the
    threshold of 40 steps. *)
Definition candyOf (dStart dExit : Grid) (c : Cell) : option Z :=
  match cellAt dStart c.1 c.2, cellAt dExit c.1 c.2 with
  | Some a, Some b =>
      if decide (40 <= a /\ 40 <= b) then Some (candyScore a b) else None
  | _, _ => None
  end.

(** What the candy loop has established after the cells [seen]. *)
Definition candyInv (dStart dExit : Grid) (seen : list Cell) (st : option Cell * Z) : Prop :=
  (st.2 = -1 /\ forall c, c ∈ seen -> candyOf dStart dExit c = None)
  \/ (0 <= st.2 /\ exists c, st.1 = Some c /\ c ∈ seen /\
        candyOf dStart dExit c = Some st.2 /\
        forall c' s', c' ∈ seen -> candyOf dStart dExit c' = Some s' -> s' <= st.2).

(** A double that is neither NaN nor negative: [+0], a positive number or
    [+Infinity]. *)
Definition nonneg (x : double) : Prop :=
  match x with
  | S754_zero false | S754_finite false _ _ | S754_infinity false => True
  | _ => False
  end.

(** A double that is a positive number. *)
Definition positive_finite (x : double) : Prop :=
  match x with
  | S754_finite false _ _ => True
  | _ => False
  end.

(** What the relocation loop has established after the cells [seen]: it
    has taken no cell and none of them can be reached from the candy, or it
    holds one of them that can be reached, with a score that is no NaN and
    not negative. *)
Definition exitInv (dCandy : Grid) (exit0 : Cell) (seen : list Cell) (st : Cell * double)
  : Prop :=
  (st = (exit0, ofZ (-1)) /\ forall c, c ∈ seen -> distOf dCandy c < 0)
  \/ (st.1 ∈ seen /\ 0 <= distOf dCandy st.1 /\ nonneg st.2).

(** The 5 by 5 maze [generatePerfectMaze] builds when every draw is [0]. *)
Definition maze5 : Grid :=
  [[1; 1; 1; 1; 1];
   [1; 0; 0; 0; 1];
   [1; 1; 1; 0; 1];
   [1; 0; 0; 0; 1];
   [1; 1; 1; 1; 1]].

(** A maze of 10 by 10 cells with one corridor: along row 7, down the last
    column and back along row 9. *)
Definition maze10 : Grid :=
  [[1; 1; 1; 1; 1; 1; 1; 1; 1; 1];
   [1; 1; 1; 1; 1; 1; 1; 1; 1; 1];
   [1; 1; 1; 1; 1; 1; 1; 1; 1; 1];
   [1; 1; 1; 1; 1; 1; 1; 1; 1; 1];
   [1; 1; 1; 1; 1; 1; 1; 1; 1; 1];
   [1; 1; 1; 1; 1; 1; 1; 1; 1; 1];
   [1; 1; 1; 1; 1; 1; 1; 1; 1; 1];
   [1; 0; 0; 0; 0; 0; 0; 0; 0; 0];
   [1; 1; 1; 1; 1; 1; 1; 1; 1; 0];
   [1; 1; 1; 0; 0; 0; 0; 0; 0; 0]].

(** Draws for a game of 41 by 29 cells: the residues of a quadratic modulo
    the prime 997, as fractions. *)
Definition gameStream (i : nat) : Q :=
  let n := Z.of_nat i + 31000 in
  Qmake ((7 * n * n + 13 * n + 5) mod 997) 997.

(** ** Monsters *)

(** The passage the draw [n] picks. *)
Definition pick (rnd : nat -> Q) (passages : list Cell) (n : nat) : option Cell :=
  jsIndex passages (Qfloor (rnd n * inject_Z (Z.of_nat (length passages)))).

(** How many of the draws before [n] pick a passage that is no key cell. *)
Fixpoint freePicks (rnd : nat -> Q) (passages : list Cell) (k : KeyCells) (n : nat) : nat :=
  match n with
  | O => 0
  | S n' =>
      freePicks rnd passages k n' +
      match pick rnd passages n' with
      | Some c => if isKeyCell k c then 0 else 1
      | None => 0
      end
  end%nat.

(** Draws that pick the seven passages of [maze5] in turn. *)
Definition sweepStream (i : nat) : Q := (Z.of_nat i mod 7 # 7)%Q.

(** What holds of the monsters pushed so far when the loop counter is [i]:
    there are [i] of them, each on one of the passages and off the key
    cells, the [j]-th with the emoji [base[j % 5]]. *)
Definition monstersOk (k : KeyCells) (ps : list Cell) (i : Z) (ms : list Monster) : Prop :=
  Z.of_nat (length ms) = i /\
  (forall m, m ∈ ms ->
     (monsterX m, monsterY m) ∈ ps /\ isKeyCell k (monsterX m, monsterY m) = false) /\
  (forall j m, ms !! j = Some m -> emoji m = monsterBase !! (j mod 5)%nat).

(** ** Sessions *)

(** The frame at time [t] comes before the end of the animation [a]. *)
Definition early (a : Animation) (t : Q) : Prop :=
  (Qmin 1 ((t - startT a) / MOVE_MS) < 1)%Q.

(** The game with its pending-move slot replaced. *)
Definition withQueue (q : option string) (s : Game) : Game :=
  {| maze := maze s; keys := keys s; player := player s;
     gameFinished := gameFinished s; queuedDir := q;
     pending := pending s; notices := notices s |}.

Definition playerCell (s : Game) : Cell := (cellX (player s), cellY (player s)).

(** The flags, key cells and notices are the same in both games. *)
Definition sameProgress (s s' : Game) : Prop :=
  gameFinished s' = gameFinished s /\
  hasCandy (player s') = hasCandy (player s) /\
  notices s' = notices s /\ keys s' = keys s /\ maze s' = maze s.

#[global] Instance Notice_eq_dec : EqDecision Notice.
Proof. solve_decision. Defined.

(** How often the notice [n] was issued. *)
Definition issued (n : Notice) (s : Game) : nat :=
  length (filter (fun n' => n' = n) (notices s)).

(** What holds of a session on the maze [m] with the key cells [k]
    throughout play: the maze and the key cells stay; if the start cell is a
    passage the player stands on a passage reached from it; an animation is
    pending exactly while the player is moving, and leads from a neighbour
    to the player's cell; at rest the sprite is on the player's cell; the
    candy and the finish notices were issued once each if their flag is set
    and never otherwise. *)
Record walkInv (m : Grid) (k : KeyCells) (s : Game) : Prop := {
  walk_maze : maze s = m;
  walk_keys : keys s = k;
  walk_path : isWalkable m (startCell k).1 (startCell k).2 = true ->
      reachable m (startCell k) (playerCell s) /\
      isWalkable m (cellX (player s)) (cellY (player s)) = true;
  walk_flight : forall a, pending s = Some a ->
      moving (player s) = true /\ gameFinished s = false /\
      (ex a, ey a) = playerCell s /\ adjacent (sx a, sy a) (ex a, ey a);
  walk_rest : pending s = None ->
      moving (player s) = false /\
      px (player s) = inject_Z (cellX (player s)) /\
      py (player s) = inject_Z (cellY (player s));
  walk_candy : issued CandyCollected s = b2n (hasCandy (player s));
  walk_finish : issued FinishMaze s = b2n (gameFinished s)
}.


(** The key cells [placeKeyCells] returns on [maze5]. *)
Definition keys5 : KeyCells :=
  {| startCell := (1, 3); exitCell := (1, 1); candyCell := (1, 1) |}.

(** A walk on [maze5] from the start round to the cell right of the exit,
    each move animated to its end, and then the request to step left onto
    the exit. *)
Definition walkToExit : list Event :=
  [Request "right" 0; Frame 120 120; Request "right" 120; Frame 240 240;
   Request "up" 240; Frame 360 360; Request "up" 360; Frame 480 480;
   Request "left" 480; Frame 600 600; Request "left" 600].


(** ** Walks through a session *)

(** The requests and the frames among the events. *)
Fixpoint requests (evs : list Event) : nat :=
  match evs with
  | [] => 0
  | Request _ _ :: evs' => S (requests evs')
  | Frame _ _ :: evs' => requests evs'
  end.

Fixpoint frames (evs : list Event) : nat :=
  match evs with
  | [] => 0
  | Request _ _ :: evs' => frames evs'
  | Frame _ _ :: evs' => S (frames evs')
  end.

(** One if a direction waits in the slot, one if a move is in flight. *)
Definition queued (s : Game) : nat :=
  match truthy (queuedDir s) with Some _ => 1 | None => 0 end.

Definition inFlight (s : Game) : nat :=
  match pending s with Some _ => 1 | None => 0 end.

(** What a session on the maze [m] with the key cells [k] has walked after
    [R] requests and [F] frames: a path from the start to the player's cell
    that has a step for the move in flight, with the waiting direction no
    more steps than requests, and no more steps than frames once the move
    in flight lands; with the candy in hand such a path that leads over the
    candy cell, in one step at least; in the finished game such a path over
    the candy cell to the exit. *)
Record stepsInv (m : Grid) (k : KeyCells) (R F : nat) (s : Game) : Prop := {
  steps_here : exists n, path m n (startCell k) (playerCell s) /\
      (inFlight s <= n /\ n + queued s <= R /\ n <= F + inFlight s)%nat;
  steps_candy : hasCandy (player s) = true ->
      exists n1 n2, path m (S n1) (startCell k) (candyCell k) /\
        path m n2 (candyCell k) (playerCell s) /\
        (S n1 + n2 + queued s <= R /\ S n1 + n2 <= F + inFlight s)%nat;
  steps_finish : gameFinished s = true ->
      exists n1 n2, path m (S n1) (startCell k) (candyCell k) /\
        path m n2 (candyCell k) (exitCell k) /\
        (S n1 + n2 <= R /\ S n1 + n2 <= F)%nat
}.

(** The directions [dirs] requested one after another from the time [t0]
    on: each request is followed by the frame 120 ms later that ends its
    animation, and the next request is made then. *)
Fixpoint walkEvents (t0 : Q) (dirs : list string) : list Event :=
  match dirs with
  | [] => []
  | dir :: dirs' =>
      Request dir t0 :: Frame (t0 + 120) (t0 + 120) :: walkEvents (t0 + 120) dirs'
  end.

(** The time at which the walk [walkEvents t0 dirs] ends. *)
Definition walkEnd (t0 : Q) (dirs : list string) : Q :=
  foldl (fun t _ => (t + 120)%Q) t0 dirs.

(** The way round [maze5] from the start to the exit. *)
Definition walk5 : list string :=
  ["right"; "right"; "up"; "up"; "left"; "left"]%string.
(* ================================================================== *)
(** * Arrays and grids: reading and writing *)

Lemma jsIndex_Some {A : Type} (l : list A) (i : Z) (a : A) :
  jsIndex l i = Some a <-> 0 <= i /\ l !! Z.to_nat i = Some a.
Proof.
  unfold jsIndex. destruct (decide (0 <= i)) as [Hi|Hi].
  - split; [by intros Hl|by intros [_ Hl]].
  - split; [done|by intros [Hi' _]].
Qed.

Lemma jsIndex_range {A : Type} (l : list A) (i : Z) (a : A) :
  jsIndex l i = Some a -> 0 <= i < Z.of_nat (length l).
Proof.
  intros [Hi Hl]%jsIndex_Some. apply lookup_lt_Some in Hl. lia.
Qed.

Lemma jsIndex_in {A : Type} (l : list A) (i : Z) :
  0 <= i < Z.of_nat (length l) -> exists a, jsIndex l i = Some a.
Proof.
  intros Hi. unfold jsIndex. rewrite decide_True by lia.
  apply lookup_lt_is_Some. lia.
Qed.

Lemma jsIndex_insert {A : Type} (l : list A) (i j : Z) (a : A) :
  0 <= i < Z.of_nat (length l) ->
  jsIndex (<[Z.to_nat i := a]> l) j = if decide (j = i) then Some a else jsIndex l j.
Proof.
  intros Hi. unfold jsIndex. case_decide as Hj.
  - case_decide as Hji.
    + subst j. apply list_lookup_insert_eq. lia.
    + apply list_lookup_insert_ne. lia.
  - rewrite decide_False by lia. done.
Qed.

Lemma rect_rows (w h : Z) (g : Grid) : rect w h g -> rows g = h.
Proof. intros [Hh _]. exact Hh. Qed.

Lemma rect_cols (w h : Z) (g : Grid) : rect w h g -> 0 < h -> cols g = w.
Proof.
  intros [Hh Hw] Hpos. destruct g as [|row g]; simpl in *; [lia|].
  by inversion Hw.
Qed.

(** Every row of a rectangular grid within its height exists and has the
    grid's width. *)
Lemma rect_row (w h : Z) (g : Grid) (y : Z) :
  rect w h g -> 0 <= y < h ->
  exists row, jsIndex g y = Some row /\ Z.of_nat (length row) = w.
Proof.
  intros [Hh Hw] Hy. destruct (jsIndex_in g y) as [row Hrow]; [lia|].
  exists row. split; [done|].
  apply jsIndex_Some in Hrow as [_ Hrow].
  rewrite Forall_lookup in Hw. eauto.
Qed.

(** A rectangular grid holds values only inside its rectangle. *)
Lemma cellAt_range (w h : Z) (g : Grid) (x y v : Z) :
  rect w h g -> cellAt g x y = Some v -> 0 <= x < w /\ 0 <= y < h.
Proof.
  intros [Hh Hw] Hc. unfold cellAt in Hc.
  destruct (jsIndex g y) as [row|] eqn:Hrow; simpl in Hc; [|done].
  pose proof (jsIndex_range _ _ _ Hrow). pose proof (jsIndex_range _ _ _ Hc).
  apply jsIndex_Some in Hrow as [_ Hrow].
  rewrite Forall_lookup in Hw. specialize (Hw _ _ Hrow). simpl in Hw. lia.
Qed.

Lemma cellAt_in (w h : Z) (g : Grid) (x y : Z) :
  rect w h g -> 0 <= x < w -> 0 <= y < h -> exists v, cellAt g x y = Some v.
Proof.
  intros Hr Hx Hy. destruct (rect_row _ _ _ _ Hr Hy) as (row & Hrow & Hlen).
  unfold cellAt. rewrite Hrow. simpl. apply jsIndex_in. lia.
Qed.

(** Reading inside the height of a rectangular grid never throws. *)
Lemma readCell_rect (w h : Z) (g : Grid) (x y : Z) :
  rect w h g -> 0 <= y < h -> readCell g x y = Ok (cellAt g x y).
Proof.
  intros Hr Hy. destruct (rect_row _ _ _ _ Hr Hy) as (row & Hrow & _).
  unfold readCell, cellAt. by rewrite Hrow.
Qed.

(** An in-range write succeeds, keeps the shape and changes one cell. *)
Lemma writeCell_rect (w h : Z) (g : Grid) (x y v : Z) :
  rect w h g -> 0 <= x < w -> 0 <= y < h ->
  exists g', writeCell g x y v = Ok g' /\ rect w h g' /\
    forall x' y', cellAt g' x' y' =
      if decide (x' = x /\ y' = y) then Some v else cellAt g x' y'.
Proof.
  intros Hr Hx Hy. destruct (rect_row _ _ _ _ Hr Hy) as (row & Hrow & Hlen).
  destruct Hr as [Hh Hw].
  unfold writeCell, jsStore. rewrite Hrow.
  rewrite decide_False by lia. rewrite decide_True by lia. simpl.
  eexists. split; [reflexivity|]. split.
  - split; [by rewrite length_insert|].
    apply Forall_insert; [done|]. by rewrite length_insert.
  - intros x' y'. unfold cellAt.
    rewrite jsIndex_insert by lia.
    case_decide as Hy'.
    + subst y'. simpl. rewrite jsIndex_insert by lia.
      case_decide as Hx'.
      * rewrite decide_True by done. done.
      * rewrite decide_False by tauto. by rewrite Hrow.
    + rewrite decide_False by tauto. done.
Qed.

(** A fresh grid of positive height is rectangular and holds the fill value
    everywhere. *)
Lemma newGrid_rect (w h v : Z) :
  0 <= w -> 0 < h ->
  exists g, newGrid w h v = Ok g /\ rect w h g /\
    forall x y, 0 <= x < w -> 0 <= y < h -> cellAt g x y = Some v.
Proof.
  intros Hw Hh. unfold newGrid. rewrite !decide_False by lia.
  eexists. split; [reflexivity|]. split.
  - split; [rewrite length_replicate; lia|].
    apply Forall_replicate. rewrite length_replicate. lia.
  - intros x y Hx Hy. unfold cellAt, jsIndex.
    rewrite !decide_True by lia. rewrite lookup_replicate_2 by lia. simpl.
    rewrite decide_True by lia. by rewrite lookup_replicate_2 by lia.
Qed.

(** On a rectangular grid the walkable cells are the cells that hold 0. *)
Lemma isWalkable_rect (w h : Z) (g : Grid) (x y : Z) :
  rect w h g -> isWalkable g x y = true <-> cellAt g x y = Some 0.
Proof.
  intros Hr. unfold isWalkable. split.
  - case_decide; [done|]. by intros ?%bool_decide_eq_true.
  - intros Hc. destruct (cellAt_range _ _ _ _ _ _ Hr Hc) as [Hx Hy].
    rewrite (rect_rows _ _ _ Hr), (rect_cols _ _ _ Hr) by lia.
    rewrite decide_False by lia. by apply bool_decide_eq_true.
Qed.

(* ------------------------------------------------------------------ *)
(** ** Counting cells *)

(** Writing one cell changes a count by that cell alone. *)
Lemma countRow_insert (f : Z -> Z -> bool) (row : list Z) (i : nat) (x0 u v : Z) :
  row !! i = Some u ->
  (countRow f x0 (<[i := v]> row) + b2n (f (x0 + Z.of_nat i)%Z u) =
   countRow f x0 row + b2n (f (x0 + Z.of_nat i)%Z v))%nat.
Proof.
  revert i x0. induction row as [|a row IH]; intros i x0 Hi; [done|].
  destruct i as [|i].
  - inversion Hi; subst. change (Z.of_nat 0) with 0. rewrite Z.add_0_r.
    simpl. unfold b2n. destruct (f x0 u), (f x0 v); lia.
  - specialize (IH i (x0 + 1) Hi).
    replace (x0 + Z.of_nat (S i)) with (x0 + 1 + Z.of_nat i) by lia.
    simpl. simpl in IH. lia.
Qed.

Lemma countGrid_insert (f : Z -> Z -> Z -> bool) (g : Grid) (j : nat) (y0 : Z)
    (row row' : list Z) :
  g !! j = Some row ->
  (countGrid f y0 (<[j := row']> g) + countRow (fun x v => f x (y0 + Z.of_nat j)%Z v) 0 row =
   countGrid f y0 g + countRow (fun x v => f x (y0 + Z.of_nat j)%Z v) 0 row')%nat.
Proof.
  revert j y0. induction g as [|a g IH]; intros j y0 Hj; [done|].
  destruct j as [|j].
  - inversion Hj; subst. change (Z.of_nat 0) with 0. rewrite Z.add_0_r.
    simpl. lia.
  - specialize (IH j (y0 + 1) Hj).
    replace (y0 + Z.of_nat (S j)) with (y0 + 1 + Z.of_nat j) by lia.
    simpl. simpl in IH. lia.
Qed.

Lemma writeCell_count (f : Z -> Z -> Z -> bool) (g g' : Grid) (x y u v : Z) :
  cellAt g x y = Some u -> writeCell g x y v = Ok g' ->
  (countGrid f 0 g' + b2n (f x y u) = countGrid f 0 g + b2n (f x y v))%nat.
Proof.
  unfold cellAt, writeCell, jsStore. intros Hc Hw.
  destruct (jsIndex g y) as [row|] eqn:Hrow; simpl in *; [|done].
  pose proof (jsIndex_range _ _ _ Hc) as Hx.
  apply jsIndex_Some in Hrow as [Hy Hrow]. apply jsIndex_Some in Hc as [_ Hc].
  rewrite decide_False in Hw by lia. rewrite decide_True in Hw by lia.
  simpl in Hw. inversion Hw; subst g'; clear Hw.
  pose proof (countGrid_insert f g (Z.to_nat y) 0 row (<[Z.to_nat x := v]> row) Hrow) as H1.
  pose proof (countRow_insert (fun x v => f x (0 + Z.of_nat (Z.to_nat y)) v)
                row (Z.to_nat x) 0 u v Hc) as H2.
  replace (0 + Z.of_nat (Z.to_nat y)) with y in * by lia.
  replace (0 + Z.of_nat (Z.to_nat x)) with x in * by lia. lia.
Qed.

Lemma countRow_le (f : Z -> Z -> bool) (x0 : Z) (row : list Z) :
  (countRow f x0 row <= length row)%nat.
Proof.
  revert x0. induction row as [|v row IH]; intros x0; simpl; [lia|].
  specialize (IH (x0 + 1)). destruct (f x0 v); lia.
Qed.

(** A count never exceeds the number of cells. *)
Lemma countGrid_le (f : Z -> Z -> Z -> bool) (w h : Z) (g : Grid) :
  rect w h g -> Z.of_nat (countGrid f 0 g) <= w * h.
Proof.
  intros [Hh Hw]. subst h. generalize 0 at 1. induction Hw as [|row g Hrow Hg IH]; intros y0; simpl; [lia|].
  pose proof (countRow_le (fun x v => f x y0 v) 0 row). specialize (IH (y0 + 1)). nia.
Qed.

Lemma countRow_none (f : Z -> Z -> bool) (x0 : Z) (row : list Z) :
  (forall x v, v ∈ row -> f x v = false) -> countRow f x0 row = 0%nat.
Proof.
  revert x0. induction row as [|v row IH]; intros x0 Hf; simpl; [done|].
  rewrite Hf by left. rewrite IH; [done|]. intros; apply Hf. by right.
Qed.

Lemma countGrid_none (f : Z -> Z -> Z -> bool) (y0 : Z) (g : Grid) :
  (forall row x y v, row ∈ g -> v ∈ row -> f x y v = false) -> countGrid f y0 g = 0%nat.
Proof.
  revert y0. induction g as [|row g IH]; intros y0 Hf; simpl; [done|].
  rewrite countRow_none by (intros; eapply Hf; [by left|done]).
  rewrite IH; [done|]. intros; eapply Hf; [by right|done].
Qed.

(** A fresh grid of walls holds no passage. *)
Lemma countGrid_walls (f : Z -> Z -> Z -> bool) (w h : Z) :
  (forall x y, f x y 1 = false) ->
  countGrid f 0 (replicate (Z.to_nat h) (replicate (Z.to_nat w) 1)) = 0%nat.
Proof.
  intros Hf. apply countGrid_none.
  intros row x y v [-> _]%elem_of_replicate [-> _]%elem_of_replicate. apply Hf.
Qed.

(* ================================================================== *)
(** * Paths *)

Lemma adjacent_sym (a b : Cell) : adjacent a b -> adjacent b a.
Proof. unfold adjacent. lia. Qed.

(** Paths compose. *)
Lemma path_trans (m : Grid) (n1 n2 : nat) (a b c : Cell) :
  path m n1 a b -> path m n2 b c -> path m (n1 + n2) a c.
Proof.
  intros Hab Hbc. induction Hbc as [b|n2 b c d Hbc IH Hadj Hw].
  - by rewrite Nat.add_0_r.
  - rewrite Nat.add_succ_r. eapply path_step; eauto.
Qed.

Lemma path_target_walkable (m : Grid) (n : nat) (a b : Cell) :
  path m n a b -> isWalkable m a.1 a.2 = true -> isWalkable m b.1 b.2 = true.
Proof. by destruct 1. Qed.

(** A path can be walked backwards when its first cell is walkable too. *)
Lemma path_sym (m : Grid) (n : nat) (a b : Cell) :
  path m n a b -> isWalkable m a.1 a.2 = true -> path m n b a.
Proof.
  intros Hab Ha. induction Hab as [a|n a b c Hab IH Hadj Hw].
  - constructor.
  - specialize (IH Ha).
    assert (Hcb : path m 1 c b).
    { eapply path_step; [constructor|by apply adjacent_sym|].
      eapply path_target_walkable; eauto. }
    change (S n) with (1 + n)%nat. eapply path_trans; eauto.
Qed.

Lemma path_mono (m m' : Grid) (n : nat) (a b : Cell) :
  (forall x y, isWalkable m x y = true -> isWalkable m' x y = true) ->
  path m n a b -> path m' n a b.
Proof.
  intros Hsub Hab. induction Hab; [constructor|].
  eapply path_step; eauto.
Qed.

Lemma reachable_mono (m m' : Grid) (a b : Cell) :
  (forall x y, isWalkable m x y = true -> isWalkable m' x y = true) ->
  reachable m a b -> reachable m' a b.
Proof. intros Hsub [n Hn]. exists n. eapply path_mono; eauto. Qed.

Lemma reachable_step (m : Grid) (a b c : Cell) :
  reachable m a b -> adjacent b c -> isWalkable m c.1 c.2 = true -> reachable m a c.
Proof. intros [n Hn] ? ?. exists (S n). eapply path_step; eauto. Qed.
(* ================================================================== *)
(** * The generator: the carve loop, soft re-walling and the border *)

(* ------------------------------------------------------------------ *)
(** ** The shuffle yields the four directions in some order *)

Section Shuffle.
Variable rnd : nat -> Q.

Lemma tagRandom_fst (ds : list Dir) (k : nat) : (tagRandom rnd ds k).1.*1 = ds.
Proof.
  revert k. induction ds as [|d ds IH]; intros k; [done|].
  simpl. specialize (IH (S k)). destruct (tagRandom rnd ds (S k)) as [l k'].
  simpl in *. by f_equal.
Qed.

Lemma insertByKey_perm (o : Dir * Q) (l : list (Dir * Q)) :
  insertByKey o l ≡ₚ o :: l.
Proof.
  induction l as [|p l IH]; [done|]. simpl.
  destruct (Qle_bool o.2 p.2); [done|].
  rewrite IH. apply Permutation_swap.
Qed.

Lemma sortByKey_perm (l : list (Dir * Q)) : sortByKey l ≡ₚ l.
Proof.
  induction l as [|o l IH]; [done|]. simpl.
  rewrite insertByKey_perm. by rewrite IH.
Qed.

(** Whatever the draws, the shuffled list is a permutation of the four
    directions. *)
Lemma shuffle_perm (k : nat) : (shuffle rnd k).1 ≡ₚ carveDirs.
Proof.
  unfold shuffle. pose proof (tagRandom_fst carveDirs k) as Hfst.
  destruct (tagRandom rnd carveDirs k) as [l k']. simpl in *.
  rewrite sortByKey_perm. by rewrite Hfst.
Qed.

End Shuffle.

(* ------------------------------------------------------------------ *)
(** ** Parity of coordinates *)

Lemma odd_true_mod (x : Z) : Z.odd x = true <-> x mod 2 = 1.
Proof. rewrite Zmod_odd. by destruct (Z.odd x). Qed.
Lemma odd_false_mod (x : Z) : Z.odd x = false <-> x mod 2 = 0.
Proof. rewrite Zmod_odd. by destruct (Z.odd x). Qed.

(** Turns parity facts into equations on remainders for [lia]. *)
Ltac parity := rewrite ?odd_true_mod, ?odd_false_mod in *; Z.div_mod_to_equations.

(* ------------------------------------------------------------------ *)
(** ** The carve loop *)

Lemma carveDirs_half (d : Dir) :
  d ∈ carveDirs ->
  exists e1 e2, d = (2 * e1, 2 * e2) /\ d.1 / 2 = e1 /\ d.2 / 2 = e2 /\
    ((e1 = 1 /\ e2 = 0) \/ (e1 = -1 /\ e2 = 0) \/ (e1 = 0 /\ e2 = 1) \/ (e1 = 0 /\ e2 = -1)).
Proof.
  unfold carveDirs. rewrite !elem_of_cons, elem_of_nil.
  intros [->|[->|[->|[->|[]]]]]; simpl.
  - exists 1, 0. auto 10.
  - exists (-1), 0. auto 10.
  - exists 0, 1. auto 10.
  - exists 0, (-1). auto 10.
Qed.

(** Two steps from a room, past the bounds test of the loop, lies a room. *)
Lemma room_step (w h : Z) (c : Cell) (d : Dir) :
  room w h c -> d ∈ carveDirs ->
  ~ (c.1 + d.1 <= 0 \/ c.2 + d.2 <= 0 \/ c.1 + d.1 >= w - 1 \/ c.2 + d.2 >= h - 1) ->
  room w h (c.1 + d.1, c.2 + d.2).
Proof.
  intros (Hx & Hy & Hbx & Hby) (e1 & e2 & -> & _ & _ & He)%carveDirs_half Hb.
  unfold room; simpl in *. parity. lia.
Qed.

(** Carving from a cell of the stack to a room that is still a wall
    succeeds, keeps the invariant with the new room pushed, and removes
    exactly two walls. *)
Lemma carve_step (w h : Z) (g : Grid) (stack : list Cell) (cur : Cell) (d : Dir) :
  carveInv w h g stack -> cur ∈ stack -> d ∈ carveDirs ->
  room w h (cur.1 + d.1, cur.2 + d.2) ->
  cellAt g (cur.1 + d.1) (cur.2 + d.2) <> Some 0 ->
  exists g1 g2,
    carve g (cur.1 + d.1 / 2) (cur.2 + d.2 / 2) = Ok g1 /\
    carve g1 (cur.1 + d.1) (cur.2 + d.2) = Ok g2 /\
    carveInv w h g2 ((cur.1 + d.1, cur.2 + d.2) :: stack) /\
    (wallCount g2 + 2 = wallCount g)%nat.
Proof.
  intros Hinv Hcur Hd Hn Hwall.
  destruct (carveDirs_half d Hd) as (e1 & e2 & -> & -> & -> & He).
  destruct cur as [cx cy]. simpl in *.
  set (nx := cx + 2 * e1) in *. set (ny := cy + 2 * e2) in *.
  set (mx := cx + e1). set (my := cy + e2).
  destruct Hinv as [Hrect Horigin Hstack Hinside Hshape Hconn Hclosed Hcount].
  destruct (Hstack _ Hcur) as [Hroom Hpass]. simpl in Hpass.
  assert (Hcb : Z.odd cx = true /\ Z.odd cy = true /\ 0 < cx < w - 1 /\ 0 < cy < h - 1)
    by exact Hroom.
  assert (Hnb : Z.odd nx = true /\ Z.odd ny = true /\ 0 < nx < w - 1 /\ 0 < ny < h - 1)
    by exact Hn.
  assert (Hmb : 0 < mx < w - 1 /\ 0 < my < h - 1) by (unfold mx, my, nx, ny in *; lia).
  assert (Hmpar : Z.odd mx && Z.odd my = false).
  { apply andb_false_iff. unfold mx, my. destruct Hcb as (Hox & Hoy & _).
    destruct He as [[-> ->]|[[-> ->]|[[-> ->]|[-> ->]]]]; [left|left|right|right];
      parity; lia. }
  (* the cell between was a wall *)
  assert (Hmid : cellAt g mx my <> Some 0).
  { intros Hm. destruct (Hshape _ _ Hm) as [[Hox Hoy]|[(Hox & Hoy & Hl & Hr)|(Hox & Hoy & Hl & Hr)]].
    - rewrite Hox, Hoy in Hmpar. done.
    - assert (e2 = 0) as ->.
      { destruct Hcb as (_ & Hcy & _). unfold my in Hoy.
        destruct He as [[-> ->]|[[-> ->]|[[-> ->]|[-> ->]]]]; try done; parity; lia. }
      destruct He as [[-> _]|[[-> _]|[[-> ?]|[-> ?]]]]; try lia; apply Hwall; unfold nx, ny, mx, my in *.
      + by replace (cx + 2 * 1) with (cx + 1 + 1) by lia; replace (cy + 2 * 0) with (cy + 0) by lia.
      + by replace (cx + 2 * -1) with (cx + -1 - 1) by lia; replace (cy + 2 * 0) with (cy + 0) by lia.
    - assert (e1 = 0) as ->.
      { destruct Hcb as (Hcx & _). unfold mx in Hox.
        destruct He as [[-> ->]|[[-> ->]|[[-> ->]|[-> ->]]]]; try done; parity; lia. }
      destruct He as [[? _]|[[? _]|[[_ ->]|[_ ->]]]]; try lia; apply Hwall; unfold nx, ny, mx, my in *.
      + by replace (cy + 2 * 1) with (cy + 1 + 1) by lia; replace (cx + 2 * 0) with (cx + 0) by lia.
      + by replace (cy + 2 * -1) with (cy + -1 - 1) by lia; replace (cx + 2 * 0) with (cx + 0) by lia. }
  destruct (writeCell_rect w h g mx my 0 Hrect) as (g1 & Hw1 & Hr1 & Hc1); [lia..|].
  destruct (writeCell_rect w h g1 nx ny 0 Hr1) as (g2 & Hw2 & Hr2 & Hc2); [lia..|].
  assert (Hc : forall x y, cellAt g2 x y =
     if decide (x = nx /\ y = ny) then Some 0
     else if decide (x = mx /\ y = my) then Some 0 else cellAt g x y).
  { intros x y. rewrite Hc2. case_decide; [done|]. apply Hc1. }
  assert (Hmono : forall x y, cellAt g x y = Some 0 -> cellAt g2 x y = Some 0).
  { intros x y Hxy. rewrite Hc. repeat case_decide; done. }
  assert (Hwalk : forall x y, isWalkable g x y = true -> isWalkable g2 x y = true).
  { intros x y. rewrite (isWalkable_rect w h g), (isWalkable_rect w h g2) by done. apply Hmono. }
  assert (Hn2 : cellAt g2 nx ny = Some 0) by (rewrite Hc; by rewrite decide_True).
  assert (Hm2 : cellAt g2 mx my = Some 0).
  { rewrite Hc. case_decide; [done|]. by rewrite decide_True. }
  exists g1, g2. split; [exact Hw1|]. split; [exact Hw2|]. split.
  - constructor.
    + exact Hr2.
    + by apply Hmono.
    + intros c [->|Hc']%elem_of_cons; [split; [exact Hn|exact Hn2]|].
      destruct (Hstack _ Hc') as [? ?]. split; [done|]. by apply Hmono.
    + intros x y. rewrite Hc. repeat case_decide; try (intros; lia). apply Hinside.
    + intros x y Hxy. rewrite Hc in Hxy.
      case_decide as H1; [left; destruct H1 as [-> ->]; tauto|].
      case_decide as H2.
      * destruct H2 as [-> ->]. right.
        destruct He as [[-> ->]|[[-> ->]|[[-> ->]|[-> ->]]]]; [left|left|right|right];
          unfold mx, my, nx, ny in *;
          (split; [parity; lia|]); (split; [parity; lia|]); split.
        all: first
          [ replace (cx + 1 - 1) with cx by lia; replace (cy + 0) with cy by lia; by apply Hmono
          | replace (cx + -1 + 1) with cx by lia; replace (cy + 0) with cy by lia; by apply Hmono
          | replace (cy + 1 - 1) with cy by lia; replace (cx + 0) with cx by lia; by apply Hmono
          | replace (cy + -1 + 1) with cy by lia; replace (cx + 0) with cx by lia; by apply Hmono
          | idtac ].
        all: first
          [ replace (cx + 1 + 1) with (cx + 2 * 1) by lia; exact Hn2
          | replace (cx + -1 - 1) with (cx + 2 * -1) by lia; exact Hn2
          | replace (cy + 1 + 1) with (cy + 2 * 1) by lia; exact Hn2
          | replace (cy + -1 - 1) with (cy + 2 * -1) by lia; exact Hn2 ].
      * destruct (Hshape _ _ Hxy) as [?|[(? & ? & ? & ?)|(? & ? & ? & ?)]];
          [left; done|right; left|right; right]; repeat split; auto.
    + intros x y Hxy. rewrite Hc in Hxy.
      assert (Hcur2 : reachable g2 (1, 1) (cx, cy)).
      { eapply reachable_mono; [exact Hwalk|]. by apply Hconn. }
      assert (Hmid2 : reachable g2 (1, 1) (mx, my)).
      { eapply reachable_step; [exact Hcur2| |].
        - unfold adjacent, mx, my; simpl. lia.
        - simpl. by apply (isWalkable_rect w h g2). }
      case_decide as H1.
      { destruct H1 as [-> ->]. eapply reachable_step; [exact Hmid2| |].
        - unfold adjacent, mx, my, nx, ny; simpl. lia.
        - simpl. by apply (isWalkable_rect w h g2). }
      case_decide as H2; [destruct H2 as [-> ->]; exact Hmid2|].
      eapply reachable_mono; [exact Hwalk|]. by apply Hconn.
    + intros c Hrc Hpc. rewrite Hc in Hpc.
      case_decide as H1.
      { left. destruct c; simpl in *. destruct H1 as [-> ->]. apply elem_of_cons. by left. }
      case_decide as H2.
      { exfalso. destruct c; simpl in *. destruct H2 as [-> ->].
        destruct Hrc as (Hox & Hoy & _). simpl in *. rewrite Hox, Hoy in Hmpar. done. }
      destruct (Hclosed c Hrc Hpc) as [Hin|Hcl].
      * left. apply elem_of_cons. by right.
      * right. intros d' Hd' Hr'. apply Hmono. by apply Hcl.
    + destruct (cellAt_in w h g mx my Hrect) as [u Hu]; [lia..|].
      destruct (cellAt_in w h g nx ny Hrect) as [u' Hu']; [lia..|].
      assert (Hu1 : cellAt g1 nx ny = Some u').
      { rewrite Hc1. rewrite decide_False; [done|]. unfold nx, ny, mx, my. lia. }
      pose proof (writeCell_count isRoomPassage _ _ _ _ _ _ Hu Hw1) as R1.
      pose proof (writeCell_count isRoomPassage _ _ _ _ _ _ Hu1 Hw2) as R2.
      pose proof (writeCell_count isLinkPassage _ _ _ _ _ _ Hu Hw1) as L1.
      pose proof (writeCell_count isLinkPassage _ _ _ _ _ _ Hu1 Hw2) as L2.
      destruct Hnb as (Hox & Hoy & _).
      assert (Hu0 : bool_decide (u = 0) = false) by (apply bool_decide_eq_false_2; congruence).
      assert (Hu0' : bool_decide (u' = 0) = false) by (apply bool_decide_eq_false_2; congruence).
      unfold isRoomPassage in R1, R2. unfold isLinkPassage in L1, L2.
      rewrite Hmpar, ?Hu0 in R1, L1. rewrite Hox, Hoy, ?Hu0' in R2, L2.
      fold isRoomPassage in R1, R2. fold isLinkPassage in L1, L2.
      unfold roomCount, linkCount in *. simpl in *. lia.
  - destruct (cellAt_in w h g mx my Hrect) as [u Hu]; [lia..|].
    destruct (cellAt_in w h g nx ny Hrect) as [u' Hu']; [lia..|].
    assert (Hu1 : cellAt g1 nx ny = Some u').
    { rewrite Hc1. rewrite decide_False; [done|]. unfold nx, ny, mx, my. lia. }
    pose proof (writeCell_count isWallValue _ _ _ _ _ _ Hu Hw1) as W1.
    pose proof (writeCell_count isWallValue _ _ _ _ _ _ Hu1 Hw2) as W2.
    unfold wallCount, isWallValue in *.
    rewrite (bool_decide_eq_false_2 (u = 0)) in W1 by congruence.
    rewrite (bool_decide_eq_false_2 (u' = 0)) in W2 by congruence.
    simpl in *. lia.
Qed.

(** One pass over the directions either skips them all, every room two steps
    away being carved already, or carves one neighbour as [carve_step]
    describes. *)
Lemma tryDirs_spec (w h : Z) (g : Grid) (cur : Cell) (below : list Cell) (ds : list Dir) :
  carveInv w h g (cur :: below) -> (forall d, d ∈ ds -> d ∈ carveDirs) ->
  (tryDirs w h g cur ds = Ok None /\
   forall d, d ∈ ds -> room w h (cur.1 + d.1, cur.2 + d.2) ->
             cellAt g (cur.1 + d.1) (cur.2 + d.2) = Some 0)
  \/ exists g' n, tryDirs w h g cur ds = Ok (Some (g', n)) /\
       carveInv w h g' (n :: cur :: below) /\ (wallCount g' + 2 = wallCount g)%nat.
Proof.
  intros Hinv. induction ds as [|d ds IH]; intros Hds.
  - left. split; [done|]. intros d Hd. by apply elem_of_nil in Hd.
  - assert (Hd : d ∈ carveDirs) by (apply Hds; left).
    assert (Hds' : forall d', d' ∈ ds -> d' ∈ carveDirs) by (intros; apply Hds; by right).
    specialize (IH Hds').
    assert (Hcur : room w h cur) by (apply (inv_stack _ _ _ _ Hinv); left).
    simpl. case_decide as Hb.
    + destruct IH as [[-> Hall]|IH]; [left|by right].
      split; [done|]. intros d' [->|Hd']%elem_of_cons Hr; [|by apply Hall].
      destruct Hr as (_ & _ & ? & ?); simpl in *. lia.
    + pose proof (room_step _ _ _ _ Hcur Hd Hb) as Hroom.
      rewrite (readCell_rect w h) by
        (try apply (inv_rect _ _ _ _ Hinv); destruct Hroom as (_ & _ & ? & ?); simpl in *; lia).
      simpl. case_decide as Hv.
      * destruct IH as [[-> Hall]|IH]; [left|by right].
        split; [done|]. intros d' [->|Hd']%elem_of_cons Hr; [done|by apply Hall].
      * right.
        destruct (carve_step w h g (cur :: below) cur d Hinv) as (g1 & g2 & H1 & H2 & Hinv2 & Hcnt);
          [by left|done|done|done|].
        rewrite H1. simpl. rewrite H2. simpl. eauto.
Qed.

(** A cell all of whose rooms two steps away are carved can leave the stack. *)
Lemma carveInv_pop (w h : Z) (g : Grid) (cur : Cell) (below : list Cell) :
  carveInv w h g (cur :: below) ->
  (forall d, d ∈ carveDirs -> room w h (cur.1 + d.1, cur.2 + d.2) ->
             cellAt g (cur.1 + d.1) (cur.2 + d.2) = Some 0) ->
  carveInv w h g below.
Proof.
  intros [Hrect Horigin Hstack Hinside Hshape Hconn Hclosed Hcount] Hall.
  constructor; try done.
  - intros c Hc. apply Hstack. by right.
  - intros c Hr Hp. destruct (Hclosed c Hr Hp) as [[->|Hin]%elem_of_cons|Hcl]; auto.
Qed.

Section CarveLoop.
Variable rnd : nat -> Q.

(** With fuel beyond twice the walls plus the height of the stack the loop
    ends, with the stack empty. *)
Lemma carveLoop_spec (w h : Z) (fuel : nat) : forall (g : Grid) (stack : list Cell) (k : nat),
  carveInv w h g stack -> (2 * wallCount g + length stack < fuel)%nat ->
  exists g' k', carveLoop rnd fuel w h g stack k = Ok (g', k') /\ carveInv w h g' [].
Proof.
  induction fuel as [|fuel IH]; intros g stack k Hinv Hfuel; [lia|].
  destruct stack as [|cur below]; [simpl; eauto|]. cbn [carveLoop].
  pose proof (shuffle_perm rnd k) as Hperm.
  destruct (shuffle rnd k) as [shuffled k']. simpl in Hperm.
  destruct (tryDirs_spec w h g cur below shuffled Hinv) as [[-> Hall]|(g' & n & -> & Hinv' & Hcnt)].
  - intros d Hd. by rewrite <- Hperm.
  - simpl. apply IH; [|simpl in Hfuel; lia].
    apply (carveInv_pop _ _ _ cur); [done|].
    intros d Hd. apply Hall. by rewrite Hperm.
  - simpl. apply IH; [done|]. simpl in *. lia.
Qed.

End CarveLoop.

(** [ensureOdd] adds one to an even number, keeps an odd one, and the result
    is odd. *)
Lemma ensureOdd_spec (n : Z) :
  ensureOdd n = (if Z.even n then n + 1 else n) /\ Z.odd (ensureOdd n) = true.
Proof.
  unfold ensureOdd. rewrite <- Z.negb_odd.
  case_decide as H; rewrite Z.rem_mod_eq_0 in H by lia.
  - apply odd_false_mod in H as Hodd. rewrite Hodd. simpl. split; [done|].
    apply odd_true_mod. Z.div_mod_to_equations. lia.
  - assert (Hodd : Z.odd n = true).
    { destruct (Z.odd n) eqn:E; [done|]. by apply odd_false_mod in E. }
    rewrite Hodd. done.
Qed.

(** The grid with only (1, 1) carved satisfies the invariant with (1, 1) on
    the stack. *)
Lemma carveInv_start (w h : Z) :
  Z.odd w = true -> Z.odd h = true -> 3 <= w -> 3 <= h ->
  exists g0 g1, newGrid w h WALL = Ok g0 /\ carve g0 1 1 = Ok g1 /\
    carveInv w h g1 [(1, 1)] /\ Z.of_nat (wallCount g1) <= w * h.
Proof.
  intros Hw Hh Hw3 Hh3.
  destruct (newGrid_rect w h WALL) as (g0' & Hg0 & Hr0 & Hc0); [lia..|].
  destruct (writeCell_rect w h g0' 1 1 0 Hr0) as (g1' & Hg1 & Hr1 & Hc1); [lia..|].
  exists g0', g1'. split; [done|]. split; [done|].
  assert (Hones : forall x y, cellAt g1' x y = Some 0 -> x = 1 /\ y = 1).
  { intros x y. rewrite Hc1. case_decide; [done|]. intros Hxy.
    destruct (cellAt_range _ _ _ _ _ _ Hr0 Hxy). rewrite Hc0 in Hxy by lia. done. }
  assert (H11 : cellAt g1' 1 1 = Some 0) by (rewrite Hc1; by rewrite decide_True).
  split; [|by apply countGrid_le].
  constructor.
  - done.
  - done.
  - intros c ->%list_elem_of_singleton. split; [|done].
    unfold room; simpl. repeat split; try done; lia.
  - intros x y [-> ->]%Hones. lia.
  - intros x y [-> ->]%Hones. by left.
  - intros x y [-> ->]%Hones. exists 0%nat. constructor.
  - intros [x y] _ [Hx Hy]%Hones. simpl in *. subst. left. by apply list_elem_of_singleton.
  - assert (Hu : cellAt g0' 1 1 = Some 1) by (apply Hc0; lia).
    pose proof (writeCell_count isRoomPassage _ _ _ _ _ _ Hu Hg1) as R.
    pose proof (writeCell_count isLinkPassage _ _ _ _ _ _ Hu Hg1) as L.
    unfold newGrid in Hg0. rewrite !decide_False in Hg0 by lia. inversion Hg0; subst g0'.
    unfold roomCount, linkCount.
    rewrite (countGrid_walls isRoomPassage) in R by (intros; unfold isRoomPassage; by rewrite andb_false_r).
    rewrite (countGrid_walls isLinkPassage) in L by (intros; unfold isLinkPassage; by rewrite andb_false_r).
    simpl in *. lia.
Qed.

Lemma odd_decompose (x : Z) :
  Z.odd x = true -> 0 < x -> exists i : nat, x = 2 * Z.of_nat i + 1.
Proof.
  intros Hodd Hpos. exists (Z.to_nat ((x - 1) / 2)). parity. lia.
Qed.

(** Once the stack is empty every room is carved. *)
Lemma carveInv_all_rooms (w h : Z) (g : Grid) :
  carveInv w h g [] -> forall c, room w h c -> cellAt g c.1 c.2 = Some 0.
Proof.
  intros Hinv.
  assert (Hclosed : forall c d, room w h c -> cellAt g c.1 c.2 = Some 0 ->
            d ∈ carveDirs -> room w h (c.1 + d.1, c.2 + d.2) ->
            cellAt g (c.1 + d.1) (c.2 + d.2) = Some 0).
  { intros c d Hr Hp Hd Hr'.
    destruct (inv_closed _ _ _ _ Hinv c Hr Hp) as [Hin|Hcl]; [by apply elem_of_nil in Hin|].
    by apply Hcl. }
  assert (Hrow : forall i : nat, room w h (2 * Z.of_nat i + 1, 1) ->
            cellAt g (2 * Z.of_nat i + 1) 1 = Some 0).
  { induction i as [|i IH]; intros Hr.
    - apply (inv_origin _ _ _ _ Hinv).
    - assert (Hr0 : room w h (2 * Z.of_nat i + 1, 1)).
      { destruct Hr as (Hx & Hy & Hbx & Hby); simpl in *.
        unfold room; simpl. repeat split; try done; try lia.
        apply odd_true_mod. Z.div_mod_to_equations. lia. }
      specialize (Hclosed (2 * Z.of_nat i + 1, 1) (2, 0) Hr0 (IH Hr0)). simpl in Hclosed.
      replace (2 * Z.of_nat (S i) + 1) with (2 * Z.of_nat i + 1 + 2) by lia.
      replace 1 with (1 + 0) at 2 by lia. apply Hclosed.
      + unfold carveDirs. set_solver.
      + replace (2 * Z.of_nat i + 1 + 2) with (2 * Z.of_nat (S i) + 1) by lia. done. }
  assert (Hcol : forall (j : nat) (x : Z), room w h (x, 2 * Z.of_nat j + 1) ->
            cellAt g x (2 * Z.of_nat j + 1) = Some 0).
  { induction j as [|j IH]; intros x Hr.
    - destruct Hr as (Hx & Hy & Hbx & Hby); simpl in *.
      destruct (odd_decompose x Hx) as [i ->]; [lia|].
      apply Hrow. unfold room; simpl. repeat split; try done; lia.
    - assert (Hr0 : room w h (x, 2 * Z.of_nat j + 1)).
      { destruct Hr as (Hx & Hy & Hbx & Hby); simpl in *.
        unfold room; simpl. repeat split; try done; try lia.
        apply odd_true_mod. Z.div_mod_to_equations. lia. }
      specialize (Hclosed (x, 2 * Z.of_nat j + 1) (0, 2) Hr0 (IH x Hr0)). simpl in Hclosed.
      replace (2 * Z.of_nat (S j) + 1) with (2 * Z.of_nat j + 1 + 2) by lia.
      replace x with (x + 0) at 1 by lia. apply Hclosed.
      + unfold carveDirs. set_solver.
      + replace (x + 0) with x by lia.
        replace (2 * Z.of_nat j + 1 + 2) with (2 * Z.of_nat (S j) + 1) by lia. done. }
  intros [x y] Hr. simpl.
  destruct Hr as (Hx & Hy & Hbx & Hby); simpl in *.
  destruct (odd_decompose y Hy) as [j ->]; [lia|].
  apply Hcol. unfold room; simpl. repeat split; try done; lia.
Qed.

Lemma ensureOdd_ge3 (n : Z) : 2 <= n -> 3 <= ensureOdd n.
Proof.
  intros Hn. destruct (ensureOdd_spec n) as [-> _].
  destruct (Z.even n) eqn:E; [lia|].
  rewrite <- Z.negb_odd in E. apply negb_false_iff in E. parity. lia.
Qed.

(** The carve phase returns, and what it returns satisfies the invariant
    with an empty stack. *)
Lemma carvePhase_inv (rnd : nat -> Q) (w h : Z) :
  Z.odd w = true -> Z.odd h = true -> 3 <= w -> 3 <= h ->
  exists g k, carvePhase rnd w h = Ok (g, k) /\ carveInv w h g [].
Proof.
  intros Hwo Hho Hw3 Hh3.
  destruct (carveInv_start w h Hwo Hho Hw3 Hh3) as (g0 & g1 & Hg0 & Hg1 & Hinv1 & Hcnt).
  destruct (carveLoop_spec rnd w h (carveFuel w h) g1 [(1, 1)] 0%nat Hinv1)
    as (g & k & Hloop & Hinv).
  { unfold carveFuel. simpl. lia. }
  exists g, k. unfold carvePhase. rewrite Hg0. simpl. rewrite Hg1. simpl.
  split; [exact Hloop|exact Hinv].
Qed.

(** Claim C1. For every requested width and height of at least 2 and
    every random stream, the carve loop of [generatePerfectMaze] ends and
    leaves a grid in which every passage cell is reachable from every other
    one through orthogonally adjacent passage cells, and whose passages form
    a spanning tree over the odd-coordinate interior cells: every such cell
    (a [room]) is a passage, every other passage lies between two passages
    in line with it, and there is exactly one passage fewer between the
    rooms than there are rooms. *)
Theorem carve_phase_spanning_tree (rnd : nat -> Q) (w h : Z) :
  2 <= w -> 2 <= h ->
  exists g k, carvePhase rnd (ensureOdd w) (ensureOdd h) = Ok (g, k) /\
    rect (ensureOdd w) (ensureOdd h) g /\
    (forall a b, isWalkable g a.1 a.2 = true -> isWalkable g b.1 b.2 = true ->
       reachable g a b) /\
    (forall c, room (ensureOdd w) (ensureOdd h) c -> isWalkable g c.1 c.2 = true) /\
    (forall x y, isWalkable g x y = true ->
       (Z.odd x = true /\ Z.odd y = true)
       \/ (Z.odd x = false /\ Z.odd y = true /\
           isWalkable g (x - 1) y = true /\ isWalkable g (x + 1) y = true)
       \/ (Z.odd x = true /\ Z.odd y = false /\
           isWalkable g x (y - 1) = true /\ isWalkable g x (y + 1) = true)) /\
    roomCount g = (linkCount g + 1)%nat.
Proof.
  intros Hw Hh.
  destruct (carvePhase_inv rnd (ensureOdd w) (ensureOdd h)) as (g & k & Hrun & Hinv);
    [apply ensureOdd_spec..|by apply ensureOdd_ge3|by apply ensureOdd_ge3|].
  exists g, k. split; [exact Hrun|].
  pose proof (inv_rect _ _ _ _ Hinv) as Hrect.
  split; [exact Hrect|].
  assert (Hwk : forall x y, isWalkable g x y = true <-> cellAt g x y = Some 0)
    by (intros; by apply (isWalkable_rect (ensureOdd w) (ensureOdd h))).
  split; [|split; [|split]].
  - intros [ax ay] [bx by'] Ha Hb. simpl in *.
    destruct (inv_conn _ _ _ _ Hinv ax ay) as [na Hna]; [by apply Hwk|].
    destruct (inv_conn _ _ _ _ Hinv bx by') as [nb Hnb]; [by apply Hwk|].
    exists (na + nb)%nat. eapply path_trans; [|exact Hnb].
    apply path_sym; [done|]. simpl. apply Hwk. apply (inv_origin _ _ _ _ Hinv).
  - intros c Hc. apply Hwk. by apply carveInv_all_rooms with (ensureOdd w) (ensureOdd h).
  - intros x y Hxy. rewrite !Hwk. apply (inv_shape _ _ _ _ Hinv). by apply Hwk.
  - apply (inv_count _ _ _ _ Hinv).
Qed.

(* ------------------------------------------------------------------ *)
(** ** Soft re-walling and the border *)

Lemma floor_scaled (r : Q) (n : Z) :
  (0 <= r)%Q -> (r < 1)%Q -> 0 < n -> 0 <= Qfloor (r * inject_Z n) < n.
Proof.
  intros H0 H1 Hn.
  assert (Hn' : (0 < inject_Z n)%Q) by (change 0%Q with (inject_Z 0); rewrite <- Zlt_Qlt; lia).
  split.
  - rewrite <- (Qfloor_Z 0). apply Qfloor_resp_le. change (inject_Z 0) with 0%Q.
    apply Qmult_le_0_compat; [done|]. by apply Qlt_le_weak.
  - rewrite Zlt_Qlt. eapply Qle_lt_trans; [apply Qfloor_le|].
    rewrite <- (Qmult_1_l (inject_Z n)) at 2.
    by apply Qmult_lt_compat_r.
Qed.

Lemma isOpen_rect (w h : Z) (g : Grid) (x y : Z) :
  rect w h g -> 0 <= y < h ->
  isOpen g x y = Ok (if decide (cellAt g x y = Some 0) then 1 else 0).
Proof. intros Hr Hy. unfold isOpen. by rewrite (readCell_rect w h). Qed.

Section Soft.
Variable rnd : nat -> Q.
Hypothesis Hrnd : unitRange rnd.

(** One soft re-walling attempt never throws, walls up no cell but a passage
    off the border, and never cell (1, 1), which has a border wall above it
    and another to its left. *)
Lemma softWall_spec (w h : Z) (g : Grid) (k : nat) :
  3 <= w -> 3 <= h -> softInv w h g ->
  exists g' k', softWall rnd w h (g, k) = Ok (g', k') /\ softInv w h g'.
Proof.
  intros Hw Hh [Hrect Horigin Hinside]. unfold softWall.
  destruct (Hrnd k) as [Ha0 Ha1]. destruct (Hrnd (S k)) as [Hb0 Hb1].
  pose proof (floor_scaled (rnd k) (w - 2) Ha0 Ha1 ltac:(lia)) as Hx.
  pose proof (floor_scaled (rnd (S k)) (h - 2) Hb0 Hb1 ltac:(lia)) as Hy.
  set (x := 1 + Qfloor (rnd k * inject_Z (w - 2))) in *.
  set (y := 1 + Qfloor (rnd (S k) * inject_Z (h - 2))) in *.
  rewrite (readCell_rect w h) by (done || lia). simpl.
  case_decide as Hv; [by eauto using Build_softInv|].
  rewrite !(isOpen_rect w h) by (done || lia). simpl.
  case_decide as Hopen; [|by eauto using Build_softInv].
  destruct (Qlt_le_dec (rnd (S (S k))) (1 # 4)); [|by eauto using Build_softInv].
  destruct (writeCell_rect w h g x y WALL Hrect) as (g' & -> & Hr' & Hc'); [lia..|].
  simpl. exists g', (S (S (S k))). split; [done|].
  assert (Hne : ~ (x = 1 /\ y = 1)).
  { intros [Hx1 Hy1]. rewrite Hx1, Hy1 in Hopen. simpl in Hopen.
    rewrite (decide_False (P := cellAt g 1 0 = Some 0)) in Hopen
      by (intros ?%Hinside; lia).
    rewrite (decide_False (P := cellAt g 0 1 = Some 0)) in Hopen
      by (intros ?%Hinside; lia).
    repeat case_decide; lia. }
  constructor.
  - done.
  - rewrite Hc'. by rewrite decide_False by lia.
  - intros x' y'. rewrite Hc'. unfold WALL.
    destruct (decide (x' = x /\ y' = y)); [done|]. apply Hinside.
Qed.

Lemma softWall_iter (w h : Z) (n : nat) : forall (g : Grid) (k : nat),
  3 <= w -> 3 <= h -> softInv w h g ->
  exists g' k', iterM n (softWall rnd w h) (g, k) = Ok (g', k') /\ softInv w h g'.
Proof.
  induction n as [|n IH]; intros g k Hw Hh Hinv; cbn [iterM]; [eauto|].
  destruct (softWall_spec w h g k Hw Hh Hinv) as (g1 & k1 & -> & Hinv1).
  cbn [mbind res_bind]. by apply IH.
Qed.

End Soft.

(** The first border loop over the columns from [a] on: the two ends of each
    column become walls and nothing else changes. *)
Lemma wallRows_spec (w h : Z) (n : nat) : forall (a : Z) (g : Grid),
  0 < h -> 0 <= a -> a + Z.of_nat n <= w -> rect w h g ->
  exists g',
    foldM (fun g x => g' ← writeCell g x 0 WALL; writeCell g' x (h - 1) WALL)
          g (seqZ a (Z.of_nat n)) = Ok g' /\
    rect w h g' /\
    forall x y, cellAt g' x y =
      if decide (a <= x < a + Z.of_nat n /\ (y = 0 \/ y = h - 1)) then Some 1
      else cellAt g x y.
Proof.
  induction n as [|n IH]; intros a g Hh Ha Han Hr.
  - exists g. split; [done|]. split; [done|]. intros x y. rewrite decide_False by lia. done.
  - rewrite seqZ_cons by lia. simpl.
    destruct (writeCell_rect w h g a 0 WALL Hr) as (g1 & -> & Hr1 & Hc1); [lia..|]. simpl.
    destruct (writeCell_rect w h g1 a (h - 1) WALL Hr1) as (g2 & -> & Hr2 & Hc2); [lia..|]. simpl.
    replace (Z.pred (Z.of_nat (S n))) with (Z.of_nat n) by lia.
    destruct (IH (Z.succ a) g2) as (g' & -> & Hr' & Hc'); [lia..|done|].
    exists g'. split; [done|]. split; [done|].
    intros x y. rewrite Hc', Hc2, Hc1. unfold WALL. repeat case_decide; (done || lia).
Qed.

(** The second border loop over the rows from [a] on. *)
Lemma wallCols_spec (w h : Z) (n : nat) : forall (a : Z) (g : Grid),
  0 < w -> 0 <= a -> a + Z.of_nat n <= h -> rect w h g ->
  exists g',
    foldM (fun g y => g' ← writeCell g 0 y WALL; writeCell g' (w - 1) y WALL)
          g (seqZ a (Z.of_nat n)) = Ok g' /\
    rect w h g' /\
    forall x y, cellAt g' x y =
      if decide (a <= y < a + Z.of_nat n /\ (x = 0 \/ x = w - 1)) then Some 1
      else cellAt g x y.
Proof.
  induction n as [|n IH]; intros a g Hw Ha Han Hr.
  - exists g. split; [done|]. split; [done|]. intros x y. rewrite decide_False by lia. done.
  - rewrite seqZ_cons by lia. simpl.
    destruct (writeCell_rect w h g 0 a WALL Hr) as (g1 & -> & Hr1 & Hc1); [lia..|]. simpl.
    destruct (writeCell_rect w h g1 (w - 1) a WALL Hr1) as (g2 & -> & Hr2 & Hc2); [lia..|]. simpl.
    replace (Z.pred (Z.of_nat (S n))) with (Z.of_nat n) by lia.
    destruct (IH (Z.succ a) g2) as (g' & -> & Hr' & Hc'); [lia..|done|].
    exists g'. split; [done|]. split; [done|].
    intros x y. rewrite Hc', Hc2, Hc1. unfold WALL. repeat case_decide; (done || lia).
Qed.

(** The border loops turn exactly the border into walls. *)
Lemma wallRowEnds_spec (w h : Z) (g : Grid) :
  0 < w -> 0 < h -> rect w h g ->
  exists g', wallRowEnds w h g = Ok g' /\ rect w h g' /\
    (forall x y, onBorder w h x y -> cellAt g' x y = Some 1) /\
    (forall x y, ~ onBorder w h x y -> cellAt g' x y = cellAt g x y).
Proof.
  intros Hw Hh Hr. unfold wallRowEnds.
  destruct (wallRows_spec w h (Z.to_nat w) 0 g) as (g1 & H1 & Hr1 & Hc1); [lia..|done|].
  destruct (wallCols_spec w h (Z.to_nat h) 0 g1) as (g2 & H2 & Hr2 & Hc2); [lia..|done|].
  rewrite Z2Nat.id in H1, H2 by lia. rewrite H1. simpl. rewrite H2.
  exists g2. split; [done|]. split; [done|]. unfold onBorder. split.
  - intros x y Hb. rewrite Hc2, Hc1. repeat case_decide; (done || lia).
  - intros x y Hb. rewrite Hc2, Hc1. repeat case_decide; (done || lia).
Qed.

(* ------------------------------------------------------------------ *)
(** ** The generator as a whole *)

Lemma generate_stages (rnd : nat -> Q) (w h : Z) :
  unitRange rnd -> 2 <= w -> 2 <= h ->
  exists g1 k1 g2 k2 g,
    carvePhase rnd (ensureOdd w) (ensureOdd h) = Ok (g1, k1) /\
    iterM 140 (softWall rnd (ensureOdd w) (ensureOdd h)) (g1, k1) = Ok (g2, k2) /\
    wallRowEnds (ensureOdd w) (ensureOdd h) g2 = Ok g /\
    generatePerfectMaze rnd w h = Ok g /\
    softInv (ensureOdd w) (ensureOdd h) g1 /\
    softInv (ensureOdd w) (ensureOdd h) g2 /\
    softInv (ensureOdd w) (ensureOdd h) g /\
    (forall x y, onBorder (ensureOdd w) (ensureOdd h) x y -> cellAt g x y = Some 1).
Proof.
  intros Hrnd Hw Hh.
  pose proof (ensureOdd_ge3 w Hw) as Hw3. pose proof (ensureOdd_ge3 h Hh) as Hh3.
  destruct (carvePhase_inv rnd (ensureOdd w) (ensureOdd h)) as (g1 & k1 & Hrun & Hinv);
    [apply ensureOdd_spec..|done|done|].
  assert (Hs1 : softInv (ensureOdd w) (ensureOdd h) g1).
  { destruct Hinv. by constructor. }
  destruct (softWall_iter rnd Hrnd (ensureOdd w) (ensureOdd h) 140 g1 k1 Hw3 Hh3 Hs1)
    as (g2 & k2 & Hsoft & Hs2).
  destruct (wallRowEnds_spec (ensureOdd w) (ensureOdd h) g2) as (g & Hwall & Hr & Hb & Hnb);
    [lia..|apply Hs2|].
  exists g1, k1, g2, k2, g.
  split; [done|]. split; [done|]. split; [done|]. split.
  { unfold generatePerfectMaze. rewrite Hrun. cbn [mbind res_bind].
    rewrite Hsoft. cbn [mbind res_bind]. exact Hwall. }
  split; [done|]. split; [done|]. split; [|done].
  constructor.
  - done.
  - rewrite Hnb; [apply Hs2|]. unfold onBorder. lia.
  - intros x y Hxy.
    destruct (decide (onBorder (ensureOdd w) (ensureOdd h) x y)) as [Hon|Hoff].
    + rewrite (Hb _ _ Hon) in Hxy. done.
    + rewrite (Hnb _ _ Hoff) in Hxy. by apply Hs2.
Qed.

(* ------------------------------------------------------------------ *)
(** ** What the generator guarantees *)

Lemma zeroStream_unitRange : unitRange zeroStream.
Proof. intros i. split; [apply Qle_refl|reflexivity]. Defined.

Lemma carve_phase_spanning_tree_witness :
  exists g k, carvePhase zeroStream (ensureOdd 4) (ensureOdd 6) = Ok (g, k) /\
    roomCount g = (linkCount g + 1)%nat.
Proof.
  destruct (carve_phase_spanning_tree zeroStream 4 6) as (g & k & Hrun & _ & _ & _ & _ & Hcount);
    [lia|lia|].
  exists g, k. split; [exact Hrun|exact Hcount].
Defined.

(** Claim C7. For every requested width and height of at least 2 and
    every random stream, [generatePerfectMaze] returns a grid whose cells on
    row 0, on the last row, on column 0 and on the last column are all
    walls. *)
Theorem generated_border_is_wall (rnd : nat -> Q) (w h : Z) :
  unitRange rnd -> 2 <= w -> 2 <= h ->
  exists g, generatePerfectMaze rnd w h = Ok g /\
    forall x y, 0 <= x < cols g -> 0 <= y < rows g ->
      y = 0 \/ y = rows g - 1 \/ x = 0 \/ x = cols g - 1 ->
      cellAt g x y = Some WALL.
Proof.
  intros Hrnd Hw Hh.
  destruct (generate_stages rnd w h Hrnd Hw Hh)
    as (g1 & k1 & g2 & k2 & g & _ & _ & _ & Hgen & _ & _ & Hs & Hb).
  pose proof (ensureOdd_ge3 h Hh) as Hh3.
  exists g. split; [exact Hgen|].
  rewrite (rect_rows _ _ _ (soft_rect _ _ _ Hs)).
  rewrite (rect_cols _ _ _ (soft_rect _ _ _ Hs)) by lia.
  intros x y Hx Hy Hedge. apply Hb. unfold onBorder. lia.
Qed.

Lemma generated_border_is_wall_witness :
  exists g, generatePerfectMaze zeroStream 40 28 = Ok g /\
    forall x y, 0 <= x < cols g -> 0 <= y < rows g ->
      y = 0 \/ y = rows g - 1 \/ x = 0 \/ x = cols g - 1 ->
      cellAt g x y = Some WALL.
Proof.
  apply (generated_border_is_wall zeroStream 40 28 zeroStream_unitRange); lia.
Defined.

(** Claim C8. For every random stream [generatePerfectMaze(40, 28)]
    returns a grid of exactly 41 columns and 29 rows. In general an even
    dimension becomes the next odd value, which is at least 3 for a positive
    dimension, an odd dimension is kept, and the grid returned for
    dimensions of at least 2 has exactly the coerced numbers of columns and
    rows. *)
Theorem generated_dimensions_are_odd (rnd : nat -> Q) :
  unitRange rnd ->
  (exists g, generatePerfectMaze rnd 40 28 = Ok g /\
     cols g = 41 /\ rows g = 29 /\ rect 41 29 g) /\
  (forall n, Z.even n = true -> ensureOdd n = n + 1) /\
  (forall n, Z.even n = true -> 0 < n -> 3 <= ensureOdd n) /\
  (forall n, Z.odd n = true -> ensureOdd n = n) /\
  (forall w h, 2 <= w -> 2 <= h ->
     exists g, generatePerfectMaze rnd w h = Ok g /\
       cols g = ensureOdd w /\ rows g = ensureOdd h /\
       rect (ensureOdd w) (ensureOdd h) g).
Proof.
  intros Hrnd.
  assert (Hall : forall w h, 2 <= w -> 2 <= h ->
     exists g, generatePerfectMaze rnd w h = Ok g /\
       cols g = ensureOdd w /\ rows g = ensureOdd h /\
       rect (ensureOdd w) (ensureOdd h) g).
  { intros w h Hw Hh.
    destruct (generate_stages rnd w h Hrnd Hw Hh)
      as (g1 & k1 & g2 & k2 & g & _ & _ & _ & Hgen & _ & _ & Hs & _).
    pose proof (ensureOdd_ge3 h Hh) as Hh3.
    exists g. split; [exact Hgen|].
    split; [apply (rect_cols _ _ _ (soft_rect _ _ _ Hs)); lia|].
    split; [apply (rect_rows _ _ _ (soft_rect _ _ _ Hs))|apply Hs]. }
  split; [|split; [|split; [|split]]].
  - destruct (Hall 40 28) as (g & Hg & Hc & Hr & Hrect); [lia..|].
    exists g. change (ensureOdd 40) with 41 in *. change (ensureOdd 28) with 29 in *. done.
  - intros n He. destruct (ensureOdd_spec n) as [-> _]. by rewrite He.
  - intros n He Hn. apply ensureOdd_ge3.
    rewrite <- Z.negb_odd in He. apply negb_true_iff in He. parity. lia.
  - intros n Ho. destruct (ensureOdd_spec n) as [-> _].
    rewrite <- Z.negb_odd, Ho. done.
  - exact Hall.
Qed.

Lemma generated_dimensions_are_odd_witness :
  exists g, generatePerfectMaze zeroStream 40 28 = Ok g /\ cols g = 41 /\ rows g = 29.
Proof.
  destruct (generated_dimensions_are_odd zeroStream zeroStream_unitRange)
    as [(g & Hg & Hc & Hr & _) _].
  exists g. split; [exact Hg|]. split; [exact Hc|exact Hr].
Defined.

(** Claim C10. For every requested width and height of at least 2 and
    every random stream, cell (1, 1) is a passage after the carve loop, is
    still one after the 140 soft re-walling attempts and is one in the grid
    [generatePerfectMaze] returns; so the fallback cell of [nearestPassage]
    is walkable on every generated grid. *)
Theorem origin_is_always_passage (rnd : nat -> Q) (w h : Z) :
  unitRange rnd -> 2 <= w -> 2 <= h ->
  exists g1 k1 g2 k2 g,
    carvePhase rnd (ensureOdd w) (ensureOdd h) = Ok (g1, k1) /\
    cellAt g1 1 1 = Some PASSAGE /\
    iterM 140 (softWall rnd (ensureOdd w) (ensureOdd h)) (g1, k1) = Ok (g2, k2) /\
    cellAt g2 1 1 = Some PASSAGE /\
    wallRowEnds (ensureOdd w) (ensureOdd h) g2 = Ok g /\
    generatePerfectMaze rnd w h = Ok g /\
    cellAt g 1 1 = Some PASSAGE /\
    isWalkable g 1 1 = true.
Proof.
  intros Hrnd Hw Hh.
  destruct (generate_stages rnd w h Hrnd Hw Hh)
    as (g1 & k1 & g2 & k2 & g & Hcarve & Hsoft & Hwall & Hgen & Hs1 & Hs2 & Hs & _).
  exists g1, k1, g2, k2, g.
  split; [exact Hcarve|]. split; [apply Hs1|].
  split; [exact Hsoft|]. split; [apply Hs2|].
  split; [exact Hwall|]. split; [exact Hgen|]. split; [apply Hs|].
  apply (isWalkable_rect _ _ _ _ _ (soft_rect _ _ _ Hs)). apply Hs.
Qed.

Lemma origin_is_always_passage_witness :
  exists g, generatePerfectMaze zeroStream 2 2 = Ok g /\ isWalkable g 1 1 = true.
Proof.
  destruct (origin_is_always_passage zeroStream 2 2 zeroStream_unitRange)
    as (g1 & k1 & g2 & k2 & g & _ & _ & _ & _ & _ & Hgen & _ & Hwalk); [lia|lia|].
  exists g. split; [exact Hgen|exact Hwalk].
Defined.
(* ================================================================== *)
(** * More on the generator *)

(* ------------------------------------------------------------------ *)
(** ** Reading outside an array *)

(** The number of columns is a length. *)
Lemma cols_nonneg (maze : Grid) : 0 <= cols maze.
Proof. unfold cols. destruct maze; lia. Qed.

(** An index outside the array reads [undefined]. *)
Lemma jsIndex_None {A : Type} (l : list A) (i : Z) :
  ~ (0 <= i < Z.of_nat (length l)) -> jsIndex l i = None.
Proof.
  intros Hi. unfold jsIndex. case_decide; [|done].
  apply lookup_ge_None_2. lia.
Qed.

(* ------------------------------------------------------------------ *)
(** ** The shuffle of the directions *)

Section ShuffleOrder.
Variable rnd : nat -> Q.

(** Tagging uses one draw for each direction, in order. *)
Lemma tagRandom_next (ds : list Dir) (k : nat) :
  (tagRandom rnd ds k).2 = (k + length ds)%nat.
Proof.
  revert k. induction ds as [|d ds IH]; intros k; simpl; [lia|].
  specialize (IH (S k)). destruct (tagRandom rnd ds (S k)). simpl in *. lia.
Qed.

Lemma tagRandom_tags (ds : list Dir) (k : nat) :
  (tagRandom rnd ds k).1 = zip ds (map rnd (seq k (length ds))).
Proof.
  revert k. induction ds as [|d ds IH]; intros k; simpl; [done|].
  specialize (IH (S k)). destruct (tagRandom rnd ds (S k)). simpl in *. by rewrite IH.
Qed.

(** The sort leaves the tagged directions in the order of their draws. *)
Lemma insertByKey_sorted (o : Dir * Q) (l : list (Dir * Q)) :
  StronglySorted (fun a b => (a.2 <= b.2)%Q) l ->
  StronglySorted (fun a b => (a.2 <= b.2)%Q) (insertByKey o l).
Proof.
  induction 1 as [|p l Hl IH Hp]; simpl.
  - constructor; [constructor|constructor].
  - destruct (Qle_bool o.2 p.2) eqn:E.
    + apply Qle_bool_iff in E. constructor; [by constructor|].
      constructor; [done|]. eapply Forall_impl; [exact Hp|].
      intros b Hb. simpl in *. by eapply Qle_trans.
    + assert (Hlt : (p.2 <= o.2)%Q).
      { destruct (Qlt_le_dec o.2 p.2) as [Hlt|Hle]; [|done].
        apply Qlt_le_weak, Qle_bool_iff in Hlt. congruence. }
      constructor; [done|].
      apply (Forall_forall (fun b => (p.2 <= b.2)%Q)). intros b Hb.
      rewrite (insertByKey_perm o l) in Hb. apply elem_of_cons in Hb as [->|Hb]; [done|].
      by apply (proj1 (Forall_forall _ _) Hp).
Qed.

Lemma sortByKey_sorted (l : list (Dir * Q)) :
  StronglySorted (fun a b => (a.2 <= b.2)%Q) (sortByKey l).
Proof.
  induction l as [|o l IH]; simpl; [constructor|]. by apply insertByKey_sorted.
Qed.

End ShuffleOrder.

(** Property X1. Each iteration of the carve loop tags the four
    directions with the next four draws, in the order right, left, down, up,
    and tries them in the order of their draws, smallest first: the shuffled
    list is the list of directions of a rearrangement of the four tagged
    directions that is sorted by the draws; it holds every direction exactly
    once, and four draws are used. *)
Theorem shuffle_orders_by_draw (rnd : nat -> Q) (k : nat) :
  exists tagged,
    tagged ≡ₚ zip carveDirs [rnd k; rnd (S k); rnd (S (S k)); rnd (S (S (S k)))] /\
    StronglySorted (fun a b => (a.2 <= b.2)%Q) tagged /\
    shuffle rnd k = (tagged.*1, (k + 4)%nat) /\
    (shuffle rnd k).1 ≡ₚ carveDirs.
Proof.
  exists (sortByKey (tagRandom rnd carveDirs k).1). split; [|split; [|split]].
  - rewrite sortByKey_perm, tagRandom_tags. done.
  - apply sortByKey_sorted.
  - unfold shuffle. pose proof (tagRandom_next rnd carveDirs k) as Hn.
    destruct (tagRandom rnd carveDirs k) as [tagged k']. simpl in *. by rewrite Hn.
  - apply shuffle_perm.
Qed.

(* ------------------------------------------------------------------ *)
(** ** What the soft re-walling can change *)

(** Fewer passages, fewer passages around a cell. *)
Lemma openNeighbours_mono (g0 g : Grid) (x y : Z) :
  (forall x y, cellAt g x y = Some 0 -> cellAt g0 x y = Some 0) ->
  openNeighbours g x y <= openNeighbours g0 x y.
Proof.
  intros Hsub. unfold openNeighbours.
  assert (H : forall x y, (if decide (cellAt g x y = Some 0) then 1 else 0) <=
                          (if decide (cellAt g0 x y = Some 0) then 1 else 0)).
  { intros x' y'. destruct (decide (cellAt g x' y' = Some 0)) as [Hp|]; [|case_decide; lia].
    by rewrite decide_True by (by apply Hsub). }
  pose proof (H x (y - 1)). pose proof (H x (y + 1)).
  pose proof (H (x - 1) y). pose proof (H (x + 1) y). lia.
Qed.

Section SoftEffect.
Variable rnd : nat -> Q.
Hypothesis Hrnd : unitRange rnd.

(** One soft re-walling attempt leaves the grid as it is or turns one
    passage off the border with three or more passages around it into a
    wall; it uses two or three draws. *)
Lemma softWall_effect (w h : Z) (g : Grid) (k : nat) :
  3 <= w -> 3 <= h -> rect w h g ->
  exists g' k', softWall rnd w h (g, k) = Ok (g', k') /\ rect w h g' /\
    (k + 2 <= k' <= k + 3)%nat /\
    ((forall x y, cellAt g' x y = cellAt g x y) \/
     exists x y, 0 < x < w - 1 /\ 0 < y < h - 1 /\
       cellAt g x y = Some 0 /\ 3 <= openNeighbours g x y /\
       forall x' y', cellAt g' x' y' =
         if decide (x' = x /\ y' = y) then Some 1 else cellAt g x' y').
Proof.
  intros Hw Hh Hrect. unfold softWall.
  destruct (Hrnd k) as [Ha0 Ha1]. destruct (Hrnd (S k)) as [Hb0 Hb1].
  pose proof (floor_scaled (rnd k) (w - 2) Ha0 Ha1 ltac:(lia)) as Hx.
  pose proof (floor_scaled (rnd (S k)) (h - 2) Hb0 Hb1 ltac:(lia)) as Hy.
  set (x := 1 + Qfloor (rnd k * inject_Z (w - 2))) in *.
  set (y := 1 + Qfloor (rnd (S k) * inject_Z (h - 2))) in *.
  rewrite (readCell_rect w h) by (done || lia). simpl.
  destruct (decide (cellAt g x y <> Some 0)) as [Hv|Hv].
  { exists g, (S (S k)). split; [done|]. split; [done|]. split; [lia|by left]. }
  rewrite !(isOpen_rect w h) by (done || lia). simpl.
  fold (openNeighbours g x y).
  destruct (decide (openNeighbours g x y >= 3)) as [Hopen|Hopen]; cycle 1.
  { exists g, (S (S k)). split; [done|]. split; [done|]. split; [lia|by left]. }
  destruct (Qlt_le_dec (rnd (S (S k))) (1 # 4)); cycle 1.
  { exists g, (S (S (S k))). split; [done|]. split; [done|]. split; [lia|by left]. }
  destruct (writeCell_rect w h g x y WALL Hrect) as (g' & -> & Hr' & Hc'); [lia..|].
  simpl. exists g', (S (S (S k))). split; [done|]. split; [done|]. split; [lia|].
  right. exists x, y. split; [lia|]. split; [lia|]. split.
  { destruct (cellAt g x y) as [v|] eqn:E; [|by destruct Hv].
    destruct (decide (v = 0)) as [->|]; [done|]. destruct Hv. congruence. }
  split; [lia|]. exact Hc'.
Qed.

(** Soft re-walling only ever thins the grid it started from. *)
Lemma softWall_thins (w h : Z) (g0 g : Grid) (k : nat) :
  3 <= w -> 3 <= h -> thinned w h g0 g ->
  exists g' k', softWall rnd w h (g, k) = Ok (g', k') /\ thinned w h g0 g'.
Proof.
  intros Hw Hh [Hrect Hsub Hjun].
  destruct (softWall_effect w h g k Hw Hh Hrect) as (g' & k' & Hrun & Hr' & _ & Heff).
  exists g', k'. split; [exact Hrun|].
  destruct Heff as [Hsame|(x & y & Hx & Hy & Hp & Hopen & Hc')].
  - constructor; [done|..]; intros x y; rewrite Hsame; auto.
  - constructor; [done|..].
    + intros x' y'. rewrite Hc'. case_decide; [done|]. apply Hsub.
    + intros x' y' Hp0. rewrite Hc'.
      destruct (decide (x' = x /\ y' = y)) as [[-> ->]|Hne]; [|by apply Hjun].
      intros _. split; [done|].
      pose proof (openNeighbours_mono g0 g x y Hsub). lia.
Qed.

(** So do the 140 attempts together. *)
Lemma softWall_thins_iter (w h : Z) (g0 : Grid) (n : nat) : forall (g : Grid) (k : nat),
  3 <= w -> 3 <= h -> thinned w h g0 g ->
  exists g' k', iterM n (softWall rnd w h) (g, k) = Ok (g', k') /\ thinned w h g0 g'.
Proof.
  induction n as [|n IH]; intros g k Hw Hh Hinv; cbn [iterM]; [eauto|].
  destruct (softWall_thins w h g0 g k Hw Hh Hinv) as (g1 & k1 & -> & Hinv1).
  cbn [mbind res_bind]. by apply IH.
Qed.

End SoftEffect.

(** A grid is itself with nothing walled. *)
Lemma thinned_refl (w h : Z) (g : Grid) : rect w h g -> thinned w h g g.
Proof. intros Hr. constructor; [done|auto|]. intros x y Hp Hn. by destruct Hn. Qed.

(** In the carved grid a passage that is no room has exactly the two rooms
    it links around it. *)
Lemma link_has_two_open (w h : Z) (g : Grid) (x y : Z) :
  carveInv w h g [] -> cellAt g x y = Some 0 ->
  ~ (Z.odd x = true /\ Z.odd y = true) -> openNeighbours g x y = 2.
Proof.
  intros Hinv Hp Hlink.
  assert (Heven : forall x' y', Z.odd x' = false -> Z.odd y' = false ->
                    cellAt g x' y' <> Some 0).
  { intros x' y' Hx' Hy' Hp'.
    destruct (inv_shape _ _ _ _ Hinv x' y' Hp') as [[? ?]|[(? & ? & _)|(? & ? & _)]];
      congruence. }
  unfold openNeighbours.
  destruct (inv_shape _ _ _ _ Hinv x y Hp) as [[? ?]|[(Hx & Hy & Hl & Hr)|(Hx & Hy & Hu & Hd)]].
  - tauto.
  - rewrite (decide_False (P := cellAt g x (y - 1) = Some 0))
      by (apply Heven; [done|]; rewrite Z.odd_sub, Hy; done).
    rewrite (decide_False (P := cellAt g x (y + 1) = Some 0))
      by (apply Heven; [done|]; rewrite Z.odd_add, Hy; done).
    by rewrite !decide_True.
  - rewrite (decide_False (P := cellAt g (x - 1) y = Some 0))
      by (apply Heven; [|done]; rewrite Z.odd_sub, Hx; done).
    rewrite (decide_False (P := cellAt g (x + 1) y = Some 0))
      by (apply Heven; [|done]; rewrite Z.odd_add, Hx; done).
    by rewrite !decide_True.
Qed.

(** The stages of the generator, with the carved grid only thinned by what
    follows. *)
Lemma generate_thinned (rnd : nat -> Q) (w h : Z) :
  unitRange rnd -> 2 <= w -> 2 <= h ->
  exists g1 k1 g,
    carvePhase rnd (ensureOdd w) (ensureOdd h) = Ok (g1, k1) /\
    generatePerfectMaze rnd w h = Ok g /\
    carveInv (ensureOdd w) (ensureOdd h) g1 [] /\
    thinned (ensureOdd w) (ensureOdd h) g1 g.
Proof.
  intros Hrnd Hw Hh.
  pose proof (ensureOdd_ge3 w Hw) as Hw3. pose proof (ensureOdd_ge3 h Hh) as Hh3.
  destruct (carvePhase_inv rnd (ensureOdd w) (ensureOdd h)) as (g1 & k1 & Hrun & Hinv);
    [apply ensureOdd_spec..|done|done|].
  pose proof (inv_rect _ _ _ _ Hinv) as Hr1.
  destruct (softWall_thins_iter rnd Hrnd (ensureOdd w) (ensureOdd h) g1 140 g1 k1 Hw3 Hh3
              (thinned_refl _ _ _ Hr1)) as (g2 & k2 & Hsoft & Hthin).
  destruct (wallRowEnds_spec (ensureOdd w) (ensureOdd h) g2) as (g & Hwall & Hr & Hb & Hnb);
    [lia..|apply Hthin|].
  exists g1, k1, g. split; [done|]. split.
  { unfold generatePerfectMaze. rewrite Hrun. cbn [mbind res_bind].
    rewrite Hsoft. cbn [mbind res_bind]. exact Hwall. }
  split; [done|].
  assert (Hborder : forall x y, onBorder (ensureOdd w) (ensureOdd h) x y ->
                      cellAt g2 x y <> Some 0).
  { intros x y Hon Hp. apply (thin_sub _ _ _ _ Hthin) in Hp.
    apply (inv_inside _ _ _ _ Hinv) in Hp. unfold onBorder in Hon. lia. }
  constructor; [done|..].
  - intros x y Hp. apply (thin_sub _ _ _ _ Hthin).
    destruct (decide (onBorder (ensureOdd w) (ensureOdd h) x y)) as [Hon|Hoff].
    + rewrite (Hb _ _ Hon) in Hp. done.
    + by rewrite <- (Hnb _ _ Hoff).
  - intros x y Hp0 Hn.
    destruct (decide (onBorder (ensureOdd w) (ensureOdd h) x y)) as [Hon|Hoff].
    + apply (inv_inside _ _ _ _ Hinv) in Hp0. unfold onBorder in Hon. lia.
    + rewrite (Hnb _ _ Hoff) in *. by apply (thin_junction _ _ _ _ Hthin).
Qed.

(** Property X2. For every stream of draws in [[0, 1)] and requested
    width and height of at least 2, the grid [generatePerfectMaze] returns
    is the grid its carve loop left with some passages turned into walls:
    every passage of the result was carved; a carved passage that is no
    longer one is a wall now, had three or more carved passages around it
    and has odd coordinates (it was a junction room, never the link between
    two rooms); and a carved passage with at most two carved passages around
    it is still a passage. *)
Theorem soft_walls_only_junctions (rnd : nat -> Q) (w h : Z) :
  unitRange rnd -> 2 <= w -> 2 <= h ->
  exists g1 k1 g,
    carvePhase rnd (ensureOdd w) (ensureOdd h) = Ok (g1, k1) /\
    generatePerfectMaze rnd w h = Ok g /\
    (forall x y, cellAt g x y = Some PASSAGE -> cellAt g1 x y = Some PASSAGE) /\
    (forall x y, cellAt g1 x y = Some PASSAGE -> cellAt g x y <> Some PASSAGE ->
       cellAt g x y = Some WALL /\ 3 <= openNeighbours g1 x y /\
       Z.odd x = true /\ Z.odd y = true) /\
    (forall x y, cellAt g1 x y = Some PASSAGE -> openNeighbours g1 x y <= 2 ->
       cellAt g x y = Some PASSAGE).
Proof.
  intros Hrnd Hw Hh.
  destruct (generate_thinned rnd w h Hrnd Hw Hh) as (g1 & k1 & g & Hcarve & Hgen & Hinv & Hthin).
  exists g1, k1, g. split; [done|]. split; [done|]. unfold PASSAGE, WALL.
  split; [apply Hthin|]. split.
  - intros x y Hp0 Hn. destruct (thin_junction _ _ _ _ Hthin x y Hp0 Hn) as [H1 H3].
    split; [done|]. split; [done|].
    destruct (Z.odd x) eqn:Hx, (Z.odd y) eqn:Hy; try done;
      (rewrite (link_has_two_open _ _ g1 x y Hinv Hp0) in H3; [lia|]; rewrite Hx, Hy;
       intros [? ?]; congruence).
  - intros x y Hp0 Hle. destruct (decide (cellAt g x y = Some 0)) as [|Hn]; [done|].
    destruct (thin_junction _ _ _ _ Hthin x y Hp0 Hn). lia.
Qed.

Lemma soft_walls_only_junctions_witness :
  exists g1 k1 g,
    carvePhase zeroStream (ensureOdd 6) (ensureOdd 4) = Ok (g1, k1) /\
    generatePerfectMaze zeroStream 6 4 = Ok g /\
    forall x y, cellAt g x y = Some PASSAGE -> cellAt g1 x y = Some PASSAGE.
Proof.
  destruct (soft_walls_only_junctions zeroStream 6 4 zeroStream_unitRange)
    as (g1 & k1 & g & Hcarve & Hgen & Hsub & _); [lia|lia|].
  exists g1, k1, g. split; [exact Hcarve|]. split; [exact Hgen|exact Hsub].
Defined.

(** The rooms in the corners of the carved grid have a border wall on two
    sides. *)
Lemma corner_has_two_open (w h : Z) (g : Grid) (x y : Z) :
  carveInv w h g [] -> (x = 1 \/ x = w - 2) -> (y = 1 \/ y = h - 2) ->
  openNeighbours g x y <= 2.
Proof.
  intros Hinv Hx Hy. unfold openNeighbours.
  assert (Hb : forall x' y', ~ (0 < x' < w - 1 /\ 0 < y' < h - 1) ->
                 (if decide (cellAt g x' y' = Some 0) then 1 else 0) = 0).
  { intros x' y' Hout. rewrite decide_False; [done|].
    intros Hp%(inv_inside _ _ _ _ Hinv). tauto. }
  assert (Hle : forall x' y', 0 <= (if decide (cellAt g x' y' = Some 0) then 1 else 0) <= 1)
    by (intros; case_decide; lia).
  pose proof (Hle x (y - 1)). pose proof (Hle x (y + 1)).
  pose proof (Hle (x - 1) y). pose proof (Hle (x + 1) y).
  destruct Hx as [->| ->], Hy as [->| ->].
  - rewrite (Hb 1 (1 - 1)), (Hb (1 - 1) 1) by lia. lia.
  - rewrite (Hb 1 (h - 2 + 1)), (Hb (1 - 1) (h - 2)) by lia. lia.
  - rewrite (Hb (w - 2) (1 - 1)), (Hb (w - 2 + 1) 1) by lia. lia.
  - rewrite (Hb (w - 2) (h - 2 + 1)), (Hb (w - 2 + 1) (h - 2)) by lia. lia.
Qed.

(* ------------------------------------------------------------------ *)
(** ** Dimensions below 2 *)

(** [ensureOdd] keeps a dimension below 2 below 2, a negative one negative
    and one that is not negative positive. *)
Lemma ensureOdd_small (n : Z) : n < 2 -> ensureOdd n <= 1.
Proof.
  intros Hn. destruct (ensureOdd_spec n) as [-> _].
  destruct (Z.even n) eqn:E; [|lia].
  destruct (decide (n = 1)) as [->|]; [done|]. lia.
Qed.

Lemma ensureOdd_negative (n : Z) : n < 0 -> ensureOdd n < 0.
Proof.
  intros Hn. destruct (ensureOdd_spec n) as [-> _].
  destruct (Z.even n) eqn:E; [|lia].
  destruct (decide (n = -1)) as [->|]; [done|]. lia.
Qed.

Lemma ensureOdd_positive (n : Z) : 0 <= n -> 1 <= ensureOdd n.
Proof.
  intros Hn. destruct (ensureOdd_spec n) as [-> _].
  destruct (Z.even n) eqn:E; [lia|].
  destruct (decide (n = 0)) as [->|]; [done|]. lia.
Qed.

(** Property X4. [generatePerfectMaze] throws when the height is below
    2 or the width is negative. With a height below 2 and a width that is
    not negative (or with a negative height and any width) the grid has no
    row 1 and [carve(1, 1)] throws a [TypeError]; with a negative width and
    a height that is not negative [Array(w)] throws a [RangeError]. *)
Theorem generator_rejects_small_grids (rnd : nat -> Q) (w h : Z) :
  (h < 2 -> 0 <= w \/ h < 0 -> generatePerfectMaze rnd w h = Err TypeError) /\
  (w < 0 -> 0 <= h -> generatePerfectMaze rnd w h = Err RangeError).
Proof.
  split.
  - intros Hh Hor. unfold generatePerfectMaze, carvePhase, newGrid.
    pose proof (ensureOdd_small h Hh) as Hh1.
    destruct (decide (ensureOdd h <= 0)) as [Hh0|Hh0]; cbn [mbind res_bind].
    + unfold carve, writeCell. by rewrite jsIndex_None by (simpl; lia).
    + assert (0 <= h).
      { destruct (decide (0 <= h)); [done|]. pose proof (ensureOdd_negative h). lia. }
      assert (0 <= w) by (destruct Hor; lia).
      pose proof (ensureOdd_positive w).
      rewrite decide_False by lia. cbn [mbind res_bind].
      unfold carve, writeCell. rewrite jsIndex_None; [done|].
      rewrite length_replicate. lia.
  - intros Hw Hh. unfold generatePerfectMaze, carvePhase, newGrid.
    pose proof (ensureOdd_positive h Hh). pose proof (ensureOdd_negative w Hw).
    rewrite decide_False by lia. by rewrite decide_True by lia.
Qed.

Lemma generator_rejects_small_grids_witness :
  generatePerfectMaze zeroStream 41 1 = Err TypeError /\
  generatePerfectMaze zeroStream (-3) 29 = Err RangeError.
Proof.
  split.
  - apply (proj1 (generator_rejects_small_grids zeroStream 41 1)); [lia|left; lia].
  - apply (proj2 (generator_rejects_small_grids zeroStream (-3) 29)); lia.
Defined.


(* ================================================================== *)
(** * Distance maps: [bfsDistances] *)

Lemma isWalkable_range (maze : Grid) (x y : Z) :
  isWalkable maze x y = true -> 0 <= x < cols maze /\ 0 <= y < rows maze.
Proof. unfold isWalkable. case_decide; [done|]. lia. Qed.

(** The neighbours of a cell are the cells one step away in the four
    directions. *)
Lemma adjacent_dirs (c c' : Cell) :
  adjacent c c' <-> exists d, d ∈ stepDirs /\ c' = (c.1 + d.1, c.2 + d.2).
Proof.
  destruct c as [x y], c' as [x' y']. unfold adjacent, stepDirs. simpl. split.
  - intros H.
    assert ((x' = x + 1 /\ y' = y + 0) \/ (x' = x + -1 /\ y' = y + 0) \/
            (x' = x + 0 /\ y' = y + 1) \/ (x' = x + 0 /\ y' = y + -1)) as Hc by lia.
    destruct Hc as [[-> ->]|[[-> ->]|[[-> ->]|[-> ->]]]].
    + exists (1, 0). split; [set_solver|done].
    + exists (-1, 0). split; [set_solver|done].
    + exists (0, 1). split; [set_solver|done].
    + exists (0, -1). split; [set_solver|done].
  - intros ([dx dy] & Hd & Heq). simpl in Heq. inversion Heq; subst.
    rewrite !elem_of_cons, elem_of_nil in Hd.
    destruct Hd as [Hd|[Hd|[Hd|[Hd|[]]]]]; inversion Hd; subst; lia.
Qed.

Lemma distOf_Some (dist : Grid) (c : Cell) (n : Z) :
  cellAt dist c.1 c.2 = Some n -> distOf dist c = n.
Proof. unfold distOf. by intros ->. Qed.

Lemma distOf_visited (dist : Grid) (c : Cell) :
  0 <= distOf dist c -> cellAt dist c.1 c.2 = Some (distOf dist c).
Proof. unfold distOf. destruct (cellAt dist c.1 c.2); simpl; [done|intros; lia]. Qed.

Lemma sortedBy_ext (k1 k2 : Cell -> Z) (q : list Cell) :
  (forall u, u ∈ q -> k1 u = k2 u) -> sortedBy k1 q -> sortedBy k2 q.
Proof.
  induction q as [|c q IH]; intros Hk; simpl; [done|].
  intros [Hc Hq]. split.
  - intros u Hu. rewrite <- !Hk by first [by left|by right]. by apply Hc.
  - apply IH; [|done]. intros u Hu. apply Hk. by right.
Qed.

Lemma sortedBy_snoc (key : Cell -> Z) (q : list Cell) (c : Cell) :
  sortedBy key q -> (forall u, u ∈ q -> key u <= key c) -> sortedBy key (q ++ [c]).
Proof.
  induction q as [|u q IH]; simpl; intros Hs Hle; [split; [|done]|].
  - intros ? H. by apply elem_of_nil in H.
  - destruct Hs as [Hu Hq]. split.
    + intros v [Hv|Hv]%elem_of_app; [by apply Hu|].
      apply list_elem_of_singleton in Hv as ->. apply Hle. by left.
    + apply IH; [done|]. intros; apply Hle. by right.
Qed.

Section Bfs.
Variable maze : Grid.
Variable a : Cell.

(** Looking at one neighbour of the cell [c] being expanded never throws,
    keeps the invariant, keeps every distance already set, leaves the
    neighbour with a distance if it is walkable, and does not raise the
    measure. *)
Lemma bfsVisit_spec (dist : Grid) (c : Cell) (q : list Cell) (d : Dir) :
  d ∈ stepDirs -> bfsInv maze a dist (c :: q) ->
  exists dist' q',
    bfsVisit maze c (dist, q) d = Ok (dist', q') /\
    bfsInv maze a dist' (c :: q') /\
    (forall v, 0 <= distOf dist v -> distOf dist' v = distOf dist v) /\
    (isWalkable maze (c.1 + d.1) (c.2 + d.2) = true ->
       0 <= distOf dist' (c.1 + d.1, c.2 + d.2)) /\
    (2 * unvisitedCount dist' + length q' <= 2 * unvisitedCount dist + length q)%nat.
Proof.
  intros Hd Hinv. pose proof Hinv as [Hrect Hsrc Hlow Hpath Hq Hsorted Hfront Hclosed].
  assert (Hc0 : 0 <= distOf dist c) by (apply Hq; by left).
  pose proof (distOf_visited _ _ Hc0) as Hcn. set (n := distOf dist c) in *.
  set (nx := c.1 + d.1). set (ny := c.2 + d.2). set (nb := (nx, ny)).
  unfold bfsVisit. fold nx ny. fold nb.
  destruct (isWalkable maze nx ny) eqn:Hwalk; cbn [negb].
  2:{ exists dist, q. split; [done|]. split; [exact Hinv|]. split; [done|]. split; [done|lia]. }
  pose proof (isWalkable_range _ _ _ Hwalk) as [Hx Hy].
  rewrite (readCell_rect _ _ dist nx ny Hrect) by lia. cbn [mbind res_bind].
  destruct (cellAt_in _ _ dist nx ny Hrect Hx Hy) as [v Hv]. rewrite Hv.
  case_decide as Hv1.
  { exists dist, q. split; [done|]. split; [exact Hinv|]. split; [done|]. split; [|lia].
    intros _. pose proof (Hlow nb) as Hl. rewrite (distOf_Some _ nb _ Hv) in *.
    assert (v <> -1) by congruence. lia. }
  assert (v = -1) as -> by congruence. clear Hv1.
  destruct (cellAt_range _ _ _ _ _ _ Hrect Hcn) as [Hcx Hcy].
  rewrite (readCell_rect _ _ dist c.1 c.2 Hrect) by lia. cbn [mbind res_bind]. rewrite Hcn.
  destruct (writeCell_rect _ _ dist nx ny (n + 1) Hrect Hx Hy) as (dist' & Hw & Hrect' & Hcell).
  rewrite Hw. cbn [mbind res_bind]. exists dist', (q ++ [nb]). split; [done|].
  assert (Hd' : forall x, distOf dist' x = if decide (x = nb) then n + 1 else distOf dist x).
  { intros [x y]. unfold distOf. simpl. rewrite Hcell.
    destruct (decide (x = nx /\ y = ny)) as [[-> ->]|Hne].
    - by rewrite decide_True.
    - rewrite decide_False; [done|]. unfold nb. intros Heq. apply Hne. by inversion Heq. }
  assert (Hnb : distOf dist nb = -1) by (by apply distOf_Some).
  assert (Hkeep : forall v, 0 <= distOf dist v -> distOf dist' v = distOf dist v).
  { intros v Hv0. rewrite Hd'. case_decide; [subst; lia|done]. }
  split; [|split; [exact Hkeep|split]].
  - constructor.
    + exact Hrect'.
    + rewrite Hkeep; [done|lia].
    + intros x. rewrite Hd'. case_decide; [lia|apply Hlow].
    + intros x. rewrite Hd'. case_decide as Hx'.
      * subst x. intros _. replace (Z.to_nat (n + 1)) with (S (Z.to_nat n)) by lia.
        eapply path_step; [by apply Hpath| |done].
        apply adjacent_dirs. by exists d.
      * apply Hpath.
    + intros x Hx'. rewrite Hd'. case_decide; [lia|].
      change (c :: q ++ [nb]) with ((c :: q) ++ [nb]) in Hx'.
      apply elem_of_app in Hx' as [Hx'|Hx']; [by apply Hq|].
      apply list_elem_of_singleton in Hx'. done.
    + change (c :: q ++ [nb]) with ((c :: q) ++ [nb]).
      apply sortedBy_snoc.
      * eapply sortedBy_ext; [|exact Hsorted]. intros u Hu. symmetry. apply Hkeep. by apply Hq.
      * intros u Hu. rewrite (Hkeep u) by (by apply Hq). rewrite Hd', decide_True by done.
        apply Hfront. by left.
    + intros x u Hu. change (c :: q ++ [nb]) with ((c :: q) ++ [nb]) in Hu.
      rewrite (Hd' x), (Hd' u).
      apply elem_of_app in Hu as [Hu|Hu].
      * rewrite (decide_False (P := u = nb)) by (intros ->; specialize (Hq _ Hu); lia).
        case_decide.
        -- destruct Hsorted as [Hmin _]. simpl in Hu.
           apply elem_of_cons in Hu as [->|Hu]; [fold n; lia|].
           specialize (Hmin u Hu). fold n in Hmin. lia.
        -- by apply Hfront.
      * apply list_elem_of_singleton in Hu as ->.
        rewrite (decide_True (P := nb = nb)) by done.
        case_decide; [lia|]. specialize (Hfront x c ltac:(by left)). fold n in Hfront. lia.
    + intros x. rewrite (Hd' x). case_decide as Hx'.
      * subst x. intros _. left. apply elem_of_cons. right. apply elem_of_app. right. by left.
      * intros Hx0. destruct (Hclosed x Hx0) as [Hin|Hcl].
        -- left. change (c :: q ++ [nb]) with ((c :: q) ++ [nb]). apply elem_of_app. by left.
        -- right. intros c' Hadj Hw'. specialize (Hcl c' Hadj Hw').
           rewrite (Hkeep c') by lia. done.
  - intros _. rewrite Hd', decide_True by done. lia.
  - pose proof (writeCell_count isUnvisited _ _ _ _ _ _ Hv Hw) as Hcount.
    unfold unvisitedCount. unfold isUnvisited in Hcount at 2 4.
    rewrite bool_decide_eq_true_2 in Hcount by done.
    rewrite bool_decide_eq_false_2 in Hcount by lia.
    rewrite length_app. simpl in *. lia.
Qed.

(** The same for a loop over several directions. *)
Lemma bfsVisit_fold (c : Cell) (ds : list Dir) : forall (dist : Grid) (q : list Cell),
  (forall d, d ∈ ds -> d ∈ stepDirs) -> bfsInv maze a dist (c :: q) ->
  exists dist' q',
    foldM (bfsVisit maze c) (dist, q) ds = Ok (dist', q') /\
    bfsInv maze a dist' (c :: q') /\
    (forall v, 0 <= distOf dist v -> distOf dist' v = distOf dist v) /\
    (forall d, d ∈ ds -> isWalkable maze (c.1 + d.1) (c.2 + d.2) = true ->
       0 <= distOf dist' (c.1 + d.1, c.2 + d.2)) /\
    (2 * unvisitedCount dist' + length q' <= 2 * unvisitedCount dist + length q)%nat.
Proof.
  induction ds as [|d ds IH]; intros dist q Hds Hinv.
  - exists dist, q. split; [done|]. split; [done|]. split; [done|]. split; [|lia].
    intros d Hd. by apply elem_of_nil in Hd.
  - destruct (bfsVisit_spec dist c q d) as (dist1 & q1 & Hrun1 & Hinv1 & Hkeep1 & Hdone1 & Hm1);
      [apply Hds; by left|done|].
    destruct (IH dist1 q1) as (dist2 & q2 & Hrun2 & Hinv2 & Hkeep2 & Hdone2 & Hm2);
      [intros; apply Hds; by right|done|].
    exists dist2, q2. cbn [foldM]. rewrite Hrun1. cbn [mbind res_bind].
    split; [done|]. split; [done|]. split; [|split; [|lia]].
    + intros v Hv. rewrite Hkeep2; rewrite Hkeep1; done.
    + intros d' [->|Hd']%elem_of_cons Hw; [|by apply Hdone2].
      specialize (Hdone1 Hw). rewrite Hkeep2; done.
Qed.

(** A cell whose walkable neighbours all carry a distance can leave the
    queue. *)
Lemma bfsInv_pop (dist : Grid) (c : Cell) (q : list Cell) :
  bfsInv maze a dist (c :: q) ->
  (forall d, d ∈ stepDirs -> isWalkable maze (c.1 + d.1) (c.2 + d.2) = true ->
     0 <= distOf dist (c.1 + d.1, c.2 + d.2)) ->
  bfsInv maze a dist q.
Proof.
  intros [Hrect Hsrc Hlow Hpath Hq Hsorted Hfront Hclosed] Hdone.
  constructor; try done.
  - intros x Hx. apply Hq. by right.
  - by destruct Hsorted.
  - intros x u Hu. apply Hfront. by right.
  - intros x Hx. destruct (Hclosed x Hx) as [[->|Hin]%elem_of_cons|Hcl]; [|by left|by right].
    right. intros c' (d & Hd & ->)%adjacent_dirs Hw. simpl in Hw.
    split; [by apply Hdone|]. apply Hfront. by left.
Qed.

(** With fuel beyond twice the unvisited cells plus the length of the queue
    the search ends, with the queue empty. *)
Lemma bfsLoop_spec (fuel : nat) : forall (dist : Grid) (q : list Cell),
  bfsInv maze a dist q ->
  (2 * unvisitedCount dist + length q < fuel)%nat ->
  exists dist', bfsLoop maze fuel dist q = Ok dist' /\ bfsInv maze a dist' [].
Proof.
  induction fuel as [|fuel IH]; intros dist q Hinv Hfuel; [lia|].
  destruct q as [|c q]; [by exists dist|]. cbn [bfsLoop].
  destruct (bfsVisit_fold c stepDirs dist q) as (dist' & q' & Hrun & Hinv' & _ & Hdone & Hm);
    [done|done|].
  rewrite Hrun. cbn [mbind res_bind].
  apply IH; [|simpl in Hfuel; lia].
  by apply (bfsInv_pop dist' c).
Qed.

(** From a source inside the maze [bfsDistances] returns a map that
    satisfies the invariant with an empty queue. *)
Lemma bfsDistances_spec :
  0 <= a.1 < cols maze -> 0 <= a.2 < rows maze ->
  exists dist, bfsDistances maze a = Ok dist /\ bfsInv maze a dist [].
Proof.
  intros Hx Hy. unfold bfsDistances.
  destruct (newGrid_rect (cols maze) (rows maze) (-1)) as (d0 & -> & Hr0 & Hc0); [lia..|].
  cbn [mbind res_bind].
  destruct (writeCell_rect _ _ d0 a.1 a.2 0 Hr0 Hx Hy) as (d1 & -> & Hr1 & Hc1).
  cbn [mbind res_bind].
  assert (Hd1 : forall c, distOf d1 c = if decide (c = a) then 0 else -1).
  { intros [x y]. unfold distOf. simpl. rewrite Hc1.
    destruct (decide (x = a.1 /\ y = a.2)) as [[-> ->]|Hne].
    - rewrite decide_True; [done|]. by destruct a.
    - rewrite decide_False by (intros <-; by apply Hne).
      destruct (cellAt d0 x y) as [v|] eqn:Hv; [|done].
      destruct (cellAt_range _ _ _ _ _ _ Hr0 Hv). rewrite Hc0 in Hv by lia. by inversion Hv. }
  apply bfsLoop_spec.
  - constructor.
    + done.
    + rewrite Hd1. by rewrite decide_True.
    + intros c. rewrite Hd1. case_decide; lia.
    + intros c. rewrite Hd1. case_decide; [|lia]. subst. intros _. constructor.
    + intros c ->%list_elem_of_singleton. rewrite Hd1. by rewrite decide_True.
    + simpl. split; [|done]. intros u Hu. by apply elem_of_nil in Hu.
    + intros c u ->%list_elem_of_singleton. rewrite !Hd1.
      rewrite (decide_True (P := a = a)) by done. case_decide; lia.
    + intros c. rewrite Hd1. case_decide; [|lia]. subst. intros _. left. by left.
  - pose proof (countGrid_le isUnvisited _ _ d1 Hr1). unfold unvisitedCount, bfsFuel.
    simpl. lia.
Qed.

(** With the queue empty the map holds shortest-path lengths. *)
Lemma bfsInv_complete (dist : Grid) (k : nat) (c : Cell) :
  bfsInv maze a dist [] -> path maze k a c -> 0 <= distOf dist c <= Z.of_nat k.
Proof.
  intros Hinv Hp. induction Hp as [a'|k a' b c Hp IH Hadj Hw].
  - rewrite (bfs_source _ _ _ _ Hinv). lia.
  - specialize (IH Hinv).
    destruct (bfs_closed _ _ _ _ Hinv b ltac:(lia)) as [Hin|Hcl]; [by apply elem_of_nil in Hin|].
    specialize (Hcl c Hadj Hw). lia.
Qed.

End Bfs.

Lemma path_zero (maze : Grid) (a c : Cell) : path maze 0 a c -> c = a.
Proof. by inversion 1. Qed.

(** A path of at least one step starts with a step onto a walkable
    neighbour. *)
Lemma path_first_step (maze : Grid) (n : nat) (a c : Cell) :
  path maze n a c -> n <> 0%nat ->
  exists c1, adjacent a c1 /\ isWalkable maze c1.1 c1.2 = true.
Proof.
  induction 1 as [a|n a b c Hp IH Hadj Hw]; intros Hn; [done|].
  destruct n as [|n].
  - apply path_zero in Hp as ->. by exists c.
  - by apply IH.
Qed.

(** Claim C9. On every grid, for passage cells [a] and [b] with [b]
    reachable from [a], the distance [bfsDistances(a)] holds for [b] equals
    the distance [bfsDistances(b)] holds for [a]. *)
Theorem bfs_distance_symmetric (maze : Grid) (a b : Cell) :
  isWalkable maze a.1 a.2 = true -> isWalkable maze b.1 b.2 = true ->
  reachable maze a b ->
  exists da db n,
    bfsDistances maze a = Ok da /\ bfsDistances maze b = Ok db /\
    0 <= n /\ cellAt da b.1 b.2 = Some n /\ cellAt db a.1 a.2 = Some n.
Proof.
  intros Ha Hb [k Hk].
  destruct (isWalkable_range _ _ _ Ha) as [Hax Hay].
  destruct (isWalkable_range _ _ _ Hb) as [Hbx Hby].
  destruct (bfsDistances_spec maze a Hax Hay) as (da & Hda & Ia).
  destruct (bfsDistances_spec maze b Hbx Hby) as (db & Hdb & Ib).
  exists da, db, (distOf da b).
  pose proof (bfsInv_complete maze a da k b Ia Hk) as [Hn0 _].
  split; [done|]. split; [done|]. split; [done|]. split; [by apply distOf_visited|].
  (* the two maps hold the length of a shortest path, in either direction *)
  pose proof (bfs_path _ _ _ _ Ia b Hn0) as Hab.
  pose proof (path_sym _ _ _ _ Hab Ha) as Hba.
  pose proof (bfsInv_complete maze b db _ a Ib Hba) as [Hm0 Hmn].
  pose proof (bfs_path _ _ _ _ Ib a Hm0) as Hba'.
  pose proof (path_sym _ _ _ _ Hba' Hb) as Hab'.
  pose proof (bfsInv_complete maze a da _ b Ia Hab') as [_ Hnm].
  replace (distOf da b) with (distOf db a) by lia. by apply distOf_visited.
Qed.

Lemma bfs_distance_symmetric_witness :
  exists da db n,
    bfsDistances [[0; 0; 0]] (0, 0) = Ok da /\ bfsDistances [[0; 0; 0]] (2, 0) = Ok db /\
    0 <= n /\ cellAt da 2 0 = Some n /\ cellAt db 0 0 = Some n.
Proof.
  apply (bfs_distance_symmetric [[0; 0; 0]] (0, 0) (2, 0)); [reflexivity|reflexivity|].
  exists 2%nat.
  apply (path_step _ 1 (0, 0) (1, 0) (2, 0)); [|unfold adjacent; simpl; lia|reflexivity].
  apply (path_step _ 0 (0, 0) (0, 0) (1, 0)); [|unfold adjacent; simpl; lia|reflexivity].
  apply path_here.
Defined.

(** Claim C4, amended. From an in-bounds source that is a wall,
    [bfsDistances] marks the source 0 and expands from it as from any other
    cell: every passage next to the source is marked 1. Only when no cell
    next to the source is a passage is every other cell left at -1. *)
Theorem bfs_from_wall_source (maze : Grid) (a : Cell) :
  0 <= a.1 < cols maze -> 0 <= a.2 < rows maze ->
  cellAt maze a.1 a.2 = Some WALL ->
  exists dist,
    bfsDistances maze a = Ok dist /\
    cellAt dist a.1 a.2 = Some 0 /\
    (forall c, adjacent a c -> isWalkable maze c.1 c.2 = true ->
       cellAt dist c.1 c.2 = Some 1) /\
    ((forall c, adjacent a c -> isWalkable maze c.1 c.2 = false) ->
     forall x y, 0 <= x < cols maze -> 0 <= y < rows maze -> (x, y) <> a ->
       cellAt dist x y = Some (-1)).
Proof.
  intros Hx Hy Hwall.
  assert (Ha : isWalkable maze a.1 a.2 = false).
  { unfold isWalkable. case_decide; [done|]. apply bool_decide_eq_false_2.
    rewrite Hwall. done. }
  destruct (bfsDistances_spec maze a Hx Hy) as (dist & Hrun & Hinv).
  exists dist. split; [done|]. split; [|split].
  - rewrite <- (bfs_source _ _ _ _ Hinv). apply distOf_visited.
    rewrite (bfs_source _ _ _ _ Hinv). done.
  - intros c Hadj Hw.
    assert (Hp : path maze 1 a c) by (eapply path_step; [constructor|done|done]).
    pose proof (bfsInv_complete maze a dist 1 c Hinv Hp) as [H0 H1].
    destruct (decide (distOf dist c = 0)) as [Hz|Hnz].
    + pose proof (bfs_path _ _ _ _ Hinv c H0) as Hp0. rewrite Hz in Hp0.
      apply path_zero in Hp0 as ->. congruence.
    + replace 1 with (distOf dist c) by lia. by apply distOf_visited.
  - intros Hnone x y Hx' Hy' Hne.
    destruct (cellAt_in _ _ dist x y (bfs_rect _ _ _ _ Hinv) Hx' Hy') as [v Hv].
    rewrite Hv. f_equal.
    pose proof (distOf_Some dist (x, y) v Hv) as Hd.
    pose proof (bfs_low _ _ _ _ Hinv (x, y)) as Hlow.
    destruct (decide (v = -1)) as [|Hv1]; [done|]. exfalso.
    pose proof (bfs_path _ _ _ _ Hinv (x, y) ltac:(lia)) as Hp. rewrite Hd in Hp.
    destruct (decide (v = 0)) as [->|Hv0].
    + apply path_zero in Hp. done.
    + destruct (path_first_step _ _ _ _ Hp ltac:(lia)) as (c1 & Hadj & Hw).
      rewrite (Hnone c1 Hadj) in Hw. done.
Qed.

Lemma bfs_from_wall_source_witness :
  exists dist, bfsDistances [[1; 1; 0]] (0, 0) = Ok dist /\ cellAt dist 2 0 = Some (-1).
Proof.
  destruct (bfs_from_wall_source [[1; 1; 0]] (0, 0)) as (dist & Hrun & _ & _ & Hiso);
    [by vm_compute|by vm_compute|reflexivity|].
  exists dist. split; [exact Hrun|].
  apply Hiso; [|by vm_compute|by vm_compute|done].
  intros [x y] Hadj. unfold adjacent in Hadj. simpl in *.
  assert ((x = 1 /\ y = 0) \/ (x = -1 /\ y = 0) \/ (x = 0 /\ y = 1) \/ (x = 0 /\ y = -1))
    as [[-> ->]|[[-> ->]|[[-> ->]|[-> ->]]]] by lia; reflexivity.
Defined.

(** Claim C4 as stated fails: on the one-row grid [wall, passage] the
    search from the wall marks the passage beside it with distance 1. *)
Lemma bfs_wall_source_propagates :
  cellAt [[1; 0]] 0 0 = Some WALL /\
  bfsDistances [[1; 0]] (0, 0) = Ok [[0; 1]] /\
  cellAt [[0; 1]] 1 0 <> Some (-1).
Proof. split; [reflexivity|]. split; [reflexivity|done]. Qed.
(* ------------------------------------------------------------------ *)
(** ** Distances are lengths of shortest paths *)

(** Property X6. From a source inside the maze [bfsDistances] returns
    a map of the size of the maze in which a number that is not negative is
    the length of a shortest path from the source to the cell, over
    orthogonally adjacent passages: there is a path of that length and none
    shorter. Every cell some path reaches holds such a number, at most the
    length of the path, and a cell of the maze no path reaches holds -1. *)
Theorem bfs_holds_shortest_paths (maze : Grid) (a : Cell) :
  0 <= a.1 < cols maze -> 0 <= a.2 < rows maze ->
  exists dist, bfsDistances maze a = Ok dist /\
    rect (cols maze) (rows maze) dist /\
    (forall c n, cellAt dist c.1 c.2 = Some n -> 0 <= n ->
       path maze (Z.to_nat n) a c /\
       forall k, path maze k a c -> (Z.to_nat n <= k)%nat) /\
    (forall c k, path maze k a c ->
       exists n, cellAt dist c.1 c.2 = Some n /\ 0 <= n <= Z.of_nat k) /\
    (forall x y, 0 <= x < cols maze -> 0 <= y < rows maze ->
       ~ reachable maze a (x, y) -> cellAt dist x y = Some (-1)).
Proof.
  intros Hx Hy.
  destruct (bfsDistances_spec maze a Hx Hy) as (dist & Hrun & Hinv).
  exists dist. split; [exact Hrun|]. split; [apply Hinv|]. split; [|split].
  - intros c n Hc Hn. apply distOf_Some in Hc. split.
    + rewrite <- Hc. apply (bfs_path _ _ _ _ Hinv). lia.
    + intros k Hk. pose proof (bfsInv_complete maze a dist k c Hinv Hk). lia.
  - intros c k Hk. pose proof (bfsInv_complete maze a dist k c Hinv Hk) as Hb.
    exists (distOf dist c). split; [apply distOf_visited; lia|exact Hb].
  - intros x y Hx' Hy' Hno.
    destruct (cellAt_in _ _ dist x y (bfs_rect _ _ _ _ Hinv) Hx' Hy') as [v Hv].
    rewrite Hv. f_equal.
    pose proof (distOf_Some dist (x, y) v Hv) as Hd.
    pose proof (bfs_low _ _ _ _ Hinv (x, y)) as Hlow.
    destruct (decide (v = -1)) as [|Hne]; [done|]. exfalso. apply Hno.
    exists (Z.to_nat (distOf dist (x, y))). apply (bfs_path _ _ _ _ Hinv). lia.
Qed.

Lemma bfs_holds_shortest_paths_witness :
  exists dist, bfsDistances maze5 (1, 1) = Ok dist /\ rect 5 5 dist.
Proof.
  destruct (bfs_holds_shortest_paths maze5 (1, 1)) as (dist & Hrun & Hrect & _);
    [by vm_compute|by vm_compute|].
  exists dist. split; [exact Hrun|exact Hrect].
Defined.

(** Property X7. A source whose row lies outside the maze makes
    [bfsDistances] throw a [TypeError]: [dist[from.y]] is [undefined]. *)
Theorem bfs_source_row_outside (maze : Grid) (a : Cell) :
  ~ (0 <= a.2 < rows maze) -> bfsDistances maze a = Err TypeError.
Proof.
  intros Hy. unfold bfsDistances, newGrid.
  pose proof (cols_nonneg maze) as Hc.
  destruct (decide (rows maze <= 0)) as [Hr|Hr]; cbn [mbind res_bind].
  - unfold writeCell. by rewrite jsIndex_None by (simpl; lia).
  - rewrite decide_False by lia. cbn [mbind res_bind].
    unfold writeCell. rewrite jsIndex_None; [done|].
    rewrite length_replicate. lia.
Qed.

Lemma bfs_source_row_outside_witness : bfsDistances maze5 (1, 5) = Err TypeError.
Proof. apply (bfs_source_row_outside maze5 (1, 5)). unfold rows. simpl. lia. Defined.


(* ================================================================== *)
(** * Snapping to a passage: [nearestPassage] *)

Lemma elem_of_allCells (maze : Grid) (c : Cell) :
  c ∈ allCells maze <-> 0 <= c.1 < cols maze /\ 0 <= c.2 < rows maze.
Proof.
  unfold allCells. rewrite list_elem_of_bind. split.
  - intros (y & Hc & Hy). apply list_elem_of_bind in Hc as (x & Hc & Hx).
    apply list_elem_of_singleton in Hc as ->. apply elem_of_seqZ in Hx, Hy. simpl. lia.
  - intros [Hx Hy]. exists c.2. split; [|apply elem_of_seqZ; lia].
    apply list_elem_of_bind. exists c.1. split; [|apply elem_of_seqZ; lia].
    destruct c. by apply list_elem_of_singleton.
Qed.

Lemma length_allCells_rows (w : Z) (ys : list Z) :
  0 <= w ->
  Z.of_nat (length (y ← ys; x ← seqZ 0 w; [(x, y)])) = w * Z.of_nat (length ys).
Proof.
  intros Hw. induction ys as [|y ys IH]; [simpl; lia|].
  rewrite bind_cons, length_app, Nat2Z.inj_add, IH.
  assert (Hrow : forall xs : list Z, length (x ← xs; [(x, y)]) = length xs).
  { induction xs as [|x xs IHx]; [done|]. rewrite bind_cons, length_app, IHx. done. }
  rewrite Hrow, length_seqZ. simpl. lia.
Qed.

Lemma length_allCells (maze : Grid) :
  Z.of_nat (length (allCells maze)) = rows maze * cols maze.
Proof.
  assert (0 <= cols maze) by (unfold cols; destruct maze; lia).
  unfold allCells. rewrite length_allCells_rows by done.
  rewrite length_seqZ. unfold rows. lia.
Qed.

(** A stricter filter that loses an element keeps fewer elements. *)
Lemma filter_length_drop {A : Type} (P Q : A -> Prop)
    `{!forall x, Decision (P x)} `{!forall x, Decision (Q x)} (l : list A) (a : A) :
  (forall x, Q x -> P x) -> a ∈ l -> P a -> ~ Q a ->
  (length (filter Q l) < length (filter P l))%nat.
Proof.
  intros HQP Ha HPa HQa.
  assert (Hle : forall l', (length (filter Q l') <= length (filter P l'))%nat).
  { induction l' as [|x l' IH]; [done|].
    rewrite !filter_cons. destruct (decide (Q x)) as [Hq|Hq].
    - rewrite decide_True by auto. simpl. lia.
    - destruct (decide (P x)); simpl; lia. }
  induction l as [|x l IH]; [by apply elem_of_nil in Ha|].
  rewrite !filter_cons. apply elem_of_cons in Ha as [<-|Ha].
  - rewrite decide_False by done. rewrite decide_True by done. simpl.
    specialize (Hle l). lia.
  - specialize (IH Ha). destruct (decide (Q x)) as [Hq|Hq].
    + rewrite decide_True by auto. simpl. lia.
    + destruct (decide (P x)); simpl; lia.
Qed.

Section Ring.
Variable maze : Grid.

(** Looking at one neighbour in the ring search does not raise the measure:
    a cell joins the queue only by leaving the unseen cells. *)
Lemma ringVisit_spec (c : Cell) (q : list Cell) (seen : gset Cell) (d : Dir) :
  exists q' seen', ringVisit maze c (q, seen) d = (q', seen') /\
    (length q' + unseenCount maze seen' <= length q + unseenCount maze seen)%nat.
Proof.
  unfold ringVisit. set (n := (c.1 + d.1, c.2 + d.2)).
  case_decide as Hb; [by exists q, seen|].
  case_decide as Hs; [by exists q, seen|].
  exists (q ++ [n]), ({[n]} ∪ seen). split; [done|].
  rewrite length_app. simpl.
  assert (unseenCount maze ({[n]} ∪ seen) < unseenCount maze seen)%nat; [|lia].
  unfold unseenCount. apply (filter_length_drop _ _ _ n).
  - intros x. set_solver.
  - apply elem_of_allCells. unfold n. simpl. lia.
  - done.
  - set_solver.
Qed.

Lemma ringVisit_fold (c : Cell) (ds : list Dir) : forall (q : list Cell) (seen : gset Cell),
  exists q' seen', foldl (ringVisit maze c) (q, seen) ds = (q', seen') /\
    (length q' + unseenCount maze seen' <= length q + unseenCount maze seen)%nat.
Proof.
  induction ds as [|d ds IH]; intros q seen; [by exists q, seen|].
  destruct (ringVisit_spec c q seen d) as (q1 & seen1 & H1 & Hm1).
  destruct (IH q1 seen1) as (q2 & seen2 & H2 & Hm2).
  exists q2, seen2. cbn [foldl]. rewrite H1. split; [done|lia].
Qed.

(** With fuel beyond the length of the queue plus the unseen cells the ring
    search ends, on a walkable cell or on the fallback (1, 1). *)
Lemma ringLoop_spec (fuel : nat) : forall (q : list Cell) (seen : gset Cell),
  (length q + unseenCount maze seen < fuel)%nat ->
  exists c, ringLoop maze fuel q seen = Ok c /\
    (isWalkable maze c.1 c.2 = true \/ c = (1, 1)).
Proof.
  induction fuel as [|fuel IH]; intros q seen Hfuel; [lia|].
  destruct q as [|c q]; [exists (1, 1); by split; [|right]|].
  cbn [ringLoop]. destruct (isWalkable maze c.1 c.2) eqn:Hw.
  { exists c. by split; [|left]. }
  destruct (ringVisit_fold c stepDirs q seen) as (q' & seen' & -> & Hm).
  apply IH. simpl in Hfuel. lia.
Qed.

(** [nearestPassage] always returns: a walkable cell, or the fallback (1,
    1). *)
Lemma nearestPassage_spec (tx ty : Z) :
  exists c, nearestPassage maze tx ty = Ok c /\
    (isWalkable maze c.1 c.2 = true \/ c = (1, 1)).
Proof.
  apply ringLoop_spec. unfold searchFuel.
  assert (unseenCount maze {[(tx, ty)]} <= length (allCells maze))%nat
    by apply length_filter.
  pose proof (length_allCells maze). simpl. lia.
Qed.

End Ring.
(* ------------------------------------------------------------------ *)
(** ** The passage found is a nearest one *)

Section RingNearest.
Variable maze : Grid.
Variable t : Cell.
Hypothesis Ht : inside maze t.

(** Every cell of the maze other than the target has a neighbour in the maze
    one step closer to the target. *)
Lemma step_towards (c : Cell) :
  inside maze c -> c <> t ->
  exists n, adjacent n c /\ inside maze n /\ manhattan t n = manhattan t c - 1.
Proof.
  destruct c as [x y], t as [tx ty] eqn:Et. unfold inside, manhattan, adjacent in *.
  simpl in *. intros Hc Hne.
  destruct (decide (x = tx)) as [->|Hx].
  - assert (y <> ty) by congruence.
    destruct (decide (y < ty)).
    + exists (tx, y + 1). simpl. lia.
    + exists (tx, y - 1). simpl. lia.
  - destruct (decide (x < tx)).
    + exists (x + 1, y). simpl. lia.
    + exists (x - 1, y). simpl. lia.
Qed.

(** One step changes the distance from the target by one. *)
Lemma manhattan_adjacent (c n : Cell) :
  adjacent c n -> manhattan t n = manhattan t c + 1 \/ manhattan t n = manhattan t c - 1.
Proof. unfold adjacent, manhattan. lia. Qed.

(** Cells of the maze closer to the target than everything in the queue
    have been taken from the queue: they are no passages and their
    neighbours are seen. *)
Lemma ring_below (q : list Cell) (seen : gset Cell) (k : nat) : forall c,
  ringInv maze t q seen -> inside maze c -> manhattan t c = Z.of_nat k ->
  (forall u, u ∈ q -> manhattan t c < manhattan t u) ->
  c ∈ seen /\ isWalkable maze c.1 c.2 = false /\
  forall n, adjacent c n -> inside maze n -> n ∈ seen.
Proof.
  induction k as [|k IH]; intros c Hinv Hc Hk Hlt.
  - assert (c = t) as ->.
    { destruct c, t. unfold manhattan in Hk. simpl in *. f_equal; lia. }
    pose proof (ring_target _ _ _ _ Hinv) as Hseen. split; [done|].
    destruct (ring_done _ _ _ _ Hinv t Hseen) as [Hq|Hd]; [|done].
    specialize (Hlt t Hq). lia.
  - destruct (step_towards c Hc) as (n & Hadj & Hn & Hdn).
    { intros ->. unfold manhattan in Hk. lia. }
    destruct (IH n Hinv Hn) as (_ & _ & Hnb); [lia| |].
    { intros u Hu. specialize (Hlt u Hu). lia. }
    assert (Hseen : c ∈ seen) by (by apply Hnb).
    split; [done|].
    destruct (ring_done _ _ _ _ Hinv c Hseen) as [Hq|Hd]; [|done].
    specialize (Hlt c Hq). lia.
Qed.

(** Looking at one neighbour: it joins the queue if it lies inside the maze
    and was not seen. *)
Lemma ringVisit_cases (c : Cell) (q : list Cell) (seen : gset Cell) (d : Dir) :
  ringVisit maze c (q, seen) d =
    if decide (inside maze (c.1 + d.1, c.2 + d.2) /\ (c.1 + d.1, c.2 + d.2) ∉ seen)
    then (q ++ [(c.1 + d.1, c.2 + d.2)], {[(c.1 + d.1, c.2 + d.2)]} ∪ seen)
    else (q, seen).
Proof.
  unfold ringVisit, inside. simpl.
  destruct (decide (c.1 + d.1 < 0 \/ c.2 + d.2 < 0 \/
                    c.1 + d.1 >= cols maze \/ c.2 + d.2 >= rows maze)).
  { rewrite decide_False; [done|]. lia. }
  destruct (decide ((c.1 + d.1, c.2 + d.2) ∈ seen)).
  { rewrite decide_False; [done|]. tauto. }
  rewrite decide_True; [done|]. split; [lia|done].
Qed.

(** The neighbours the [for] loop adds around [c]: the queue grows by cells
    next to [c], inside the maze and not seen before; afterwards every
    neighbour of [c] in the directions tried that lies inside the maze is
    seen. *)
Lemma ringVisit_new (c : Cell) (ds : list Dir) : forall (q : list Cell) (seen : gset Cell),
  exists new seen', foldl (ringVisit maze c) (q, seen) ds = (q ++ new, seen') /\
    (forall n, n ∈ seen' <-> n ∈ seen \/ n ∈ new) /\
    (forall n, n ∈ new -> (n ∉ seen) /\ inside maze n /\
                         exists d, d ∈ ds /\ n = (c.1 + d.1, c.2 + d.2)) /\
    (forall d, d ∈ ds -> inside maze (c.1 + d.1, c.2 + d.2) ->
               (c.1 + d.1, c.2 + d.2) ∈ seen').
Proof.
  induction ds as [|d ds IH]; intros q seen.
  { exists [], seen. rewrite app_nil_r. split; [done|].
    split; [intros n; rewrite elem_of_nil; tauto|].
    split; intros ? H; by apply elem_of_nil in H. }
  cbn [foldl]. rewrite ringVisit_cases. set (n := (c.1 + d.1, c.2 + d.2)).
  destruct (decide (inside maze n /\ n ∉ seen)) as [[Hin Hnot]|Hskip]; cycle 1.
  { destruct (IH q seen) as (new & seen' & Hrun & Hs & Hnew & Hall).
    exists new, seen'. split; [exact Hrun|]. split; [exact Hs|]. split.
    - intros m Hm. destruct (Hnew m Hm) as (? & ? & d' & ? & ?).
      split; [done|]. split; [done|]. exists d'. split; [by right|done].
    - intros d' [->|Hd']%elem_of_cons Hi; [|by apply Hall].
      apply Hs. left. fold n in Hi. destruct (decide (n ∈ seen)); [done|]. tauto. }
  destruct (IH (q ++ [n]) ({[n]} ∪ seen)) as (new & seen' & Hrun & Hs & Hnew & Hall).
  exists (n :: new), seen'. split; [by rewrite Hrun, <- app_assoc|]. split; [|split].
  - intros m. rewrite Hs, elem_of_cons, elem_of_union, elem_of_singleton. tauto.
  - intros m [->|Hm]%elem_of_cons.
    + split; [done|]. split; [done|]. exists d. split; [by left|done].
    + destruct (Hnew m Hm) as (Hns & ? & d' & ? & ?).
      split; [intros Hx; apply Hns, elem_of_union; by right|].
      split; [done|]. exists d'. split; [by right|done].
  - intros d' [->|Hd']%elem_of_cons Hi; [|by apply Hall].
    apply Hs. left. apply elem_of_union. left. by apply elem_of_singleton.
Qed.

(** Cells one step farther than the head keep the queue in order. *)
Lemma sortedBy_app_tail (key : Cell -> Z) (q new : list Cell) (b : Z) :
  sortedBy key q -> (forall u, u ∈ q -> key u <= b) -> (forall n, n ∈ new -> key n = b) ->
  sortedBy key (q ++ new).
Proof.
  intros Hs Hq Hn. induction q as [|u q IH]; simpl.
  - clear Hs Hq. induction new as [|n new IHn]; [done|]. simpl. split.
    + intros v Hv. rewrite (Hn n), (Hn v); [lia|by right|by left].
    + apply IHn. intros; apply Hn. by right.
  - destruct Hs as [Hu Hs]. split.
    + intros v [Hv|Hv]%elem_of_app; [by apply Hu|].
      rewrite (Hn v Hv). apply Hq. by left.
    + apply IH; [done|]. intros; apply Hq. by right.
Qed.

(** Taking a cell that is no passage from the queue and looking at its
    neighbours keeps the invariant. *)
Lemma ringInv_pop (c : Cell) (q : list Cell) (seen : gset Cell) :
  ringInv maze t (c :: q) seen -> inside maze c -> isWalkable maze c.1 c.2 = false ->
  exists q' seen', foldl (ringVisit maze c) (q, seen) stepDirs = (q', seen') /\
    ringInv maze t q' seen' /\ (forall u, u ∈ q' -> inside maze u \/ u ∈ q).
Proof.
  intros Hinv Hc Hw.
  destruct (ringVisit_new c stepDirs q seen) as (new & seen' & Hrun & Hs & Hnew & Hall).
  exists (q ++ new), seen'. split; [exact Hrun|].
  pose proof (ring_sorted _ _ _ _ Hinv) as [Hmin Hsorted]. 
  assert (Hd : forall n, n ∈ new -> manhattan t n = manhattan t c + 1).
  { intros n Hn. destruct (Hnew n Hn) as (Hns & Hi & d & Hd & ->).
    assert (Hadj : adjacent c (c.1 + d.1, c.2 + d.2)) by (apply adjacent_dirs; by exists d).
    destruct (manhattan_adjacent c _ Hadj) as [Hup|Hdown]; [done|]. exfalso.
    destruct (ring_below (c :: q) seen (Z.to_nat (manhattan t c - 1)) _ Hinv Hi) as [Hin _].
    - unfold manhattan in *. lia.
    - intros u [->|Hu]%elem_of_cons; [lia|]. specialize (Hmin u Hu). lia.
    - done. }
  split; [constructor|].
  - apply Hs. left. apply Hinv.
  - intros x [Hx|Hx]%Hs.
    + destruct (ring_done _ _ _ _ Hinv x Hx) as [[->|Hq]%elem_of_cons|[Hnw Hnb]].
      * right. split; [done|]. intros n Hadj Hi.
        apply adjacent_dirs in Hadj as (d & Hd' & ->). by apply Hall.
      * left. apply elem_of_app. by left.
      * right. split; [done|]. intros n Hadj Hi. apply Hs. left. by apply Hnb.
    + left. apply elem_of_app. by right.
  - apply (sortedBy_app_tail _ _ _ (manhattan t c + 1)); [done| |done].
    intros u Hu. apply (ring_front _ _ _ _ Hinv); [by right|by left].
  - intros u v [Hu|Hu]%elem_of_app [Hv|Hv]%elem_of_app.
    + apply (ring_front _ _ _ _ Hinv); by right.
    + rewrite (Hd v Hv). pose proof (ring_front _ _ _ _ Hinv u c). 
      assert (manhattan t u <= manhattan t c + 1); [|lia].
      apply (ring_front _ _ _ _ Hinv); [by right|by left].
    + rewrite (Hd u Hu). specialize (Hmin v Hv). lia.
    + rewrite (Hd u Hu), (Hd v Hv). lia.
  - intros u [Hu|Hu]%elem_of_app; [by right|]. left. by apply Hnew.
Qed.

(** With enough fuel the search from a queue of cells of the maze ends on a
    passage no farther from the target than any other, or on the fallback
    when the maze has no passage. *)
Lemma ringLoop_nearest (fuel : nat) : forall (q : list Cell) (seen : gset Cell),
  ringInv maze t q seen -> (forall u, u ∈ q -> inside maze u) ->
  (length q + unseenCount maze seen < fuel)%nat ->
  exists c, ringLoop maze fuel q seen = Ok c /\
    ((isWalkable maze c.1 c.2 = true /\
      forall w, isWalkable maze w.1 w.2 = true -> manhattan t c <= manhattan t w)
     \/ (c = (1, 1) /\ forall w, isWalkable maze w.1 w.2 = false)).
Proof.
  induction fuel as [|fuel IH]; intros q seen Hinv Hq Hfuel; [lia|].
  destruct q as [|c q].
  { exists (1, 1). split; [done|]. right. split; [done|]. intros w.
    destruct (isWalkable maze w.1 w.2) eqn:Hw; [|done]. exfalso.
    apply isWalkable_range in Hw as Hi.
    destruct (ring_below [] seen (Z.to_nat (manhattan t w)) w Hinv Hi) as (_ & Hno & _).
    - unfold manhattan. lia.
    - intros u Hu. by apply elem_of_nil in Hu.
    - congruence. }
  cbn [ringLoop]. destruct (isWalkable maze c.1 c.2) eqn:Hw.
  { exists c. split; [done|]. left. split; [done|]. intros w Hww.
    destruct (decide (manhattan t c <= manhattan t w)) as [|Hlt]; [done|]. exfalso.
    apply isWalkable_range in Hww as Hi.
    destruct (ring_below (c :: q) seen (Z.to_nat (manhattan t w)) w Hinv Hi) as (_ & Hno & _).
    - unfold manhattan. lia.
    - pose proof (ring_sorted _ _ _ _ Hinv) as [Hmin _].
      intros u [->|Hu]%elem_of_cons; [lia|]. specialize (Hmin u Hu). lia.
    - congruence. }
  destruct (ringInv_pop c q seen Hinv) as (q' & seen' & Hrun & Hinv' & Hq'); [|done|].
  { apply Hq. by left. }
  destruct (ringVisit_fold maze c stepDirs q seen) as (q2 & seen2 & Hrun2 & Hm).
  rewrite Hrun in Hrun2. inversion Hrun2; subst q2 seen2. rewrite Hrun.
  apply IH; [done| |simpl in Hfuel; lia].
  intros u Hu. destruct (Hq' u Hu) as [|Hin]; [done|]. apply Hq. by right.
Qed.

End RingNearest.

(** From a target inside the maze the ring search ends on a passage as
    close to the target as any, or on the fallback when there is none. *)
Lemma nearestPassage_nearest (maze : Grid) (tx ty : Z) :
  0 <= tx < cols maze -> 0 <= ty < rows maze ->
  exists c, nearestPassage maze tx ty = Ok c /\
    ((exists w, isWalkable maze w.1 w.2 = true) ->
       isWalkable maze c.1 c.2 = true /\
       forall w, isWalkable maze w.1 w.2 = true ->
         manhattan (tx, ty) c <= manhattan (tx, ty) w) /\
    ((forall w, isWalkable maze w.1 w.2 = false) -> c = (1, 1)).
Proof.
  intros Hx Hy.
  destruct (ringLoop_nearest maze (tx, ty) ltac:(by split) (searchFuel maze)
              [(tx, ty)] {[(tx, ty)]}) as (c & Hrun & Hc).
  - constructor.
    + by apply elem_of_singleton.
    + intros c ->%elem_of_singleton. left. by left.
    + simpl. split; [|done]. intros u Hu. by apply elem_of_nil in Hu.
    + intros u v ->%list_elem_of_singleton ->%list_elem_of_singleton. lia.
  - intros u ->%list_elem_of_singleton. by split.
  - unfold searchFuel.
    assert (unseenCount maze {[(tx, ty)]} <= length (allCells maze))%nat
      by apply length_filter.
    pose proof (length_allCells maze). simpl. lia.
  - exists c. split; [exact Hrun|]. split.
    + intros [w Hw]. destruct Hc as [Hc|[_ Hno]]; [done|]. rewrite Hno in Hw. done.
    + intros Hno. destruct Hc as [[Hc _]|[Hc _]]; [|done]. rewrite Hno in Hc. done.
Qed.

(** Property X5. For a target inside the maze [nearestPassage]
    returns; if the maze has a passage the cell returned is a passage and no
    passage is closer to the target, counting orthogonal steps through walls
    and passages alike; if it has none the cell returned is the fallback
    (1, 1). *)
Theorem nearest_passage_is_nearest (maze : Grid) (tx ty : Z) :
  0 <= tx < cols maze -> 0 <= ty < rows maze ->
  exists c, nearestPassage maze tx ty = Ok c /\
    ((exists w, isWalkable maze w.1 w.2 = true) ->
       isWalkable maze c.1 c.2 = true /\
       forall w, isWalkable maze w.1 w.2 = true ->
         manhattan (tx, ty) c <= manhattan (tx, ty) w) /\
    ((forall w, isWalkable maze w.1 w.2 = false) -> c = (1, 1)).
Proof. apply nearestPassage_nearest. Qed.

Lemma nearest_passage_is_nearest_witness :
  exists c, nearestPassage maze5 2 2 = Ok c /\ isWalkable maze5 c.1 c.2 = true.
Proof.
  destruct (nearest_passage_is_nearest maze5 2 2) as (c & Hrun & Hsome & _);
    [by vm_compute|by vm_compute|].
  exists c. split; [exact Hrun|]. apply Hsome. by exists (1, 1).
Defined.

(* ================================================================== *)
(** * Doubles: what rounding cannot change *)

(* ------------------------------------------------------------------ *)
(** ** Signs *)

Lemma shr_1_nonneg (mrs : shr_record) : 0 <= shr_m mrs -> 0 <= shr_m (shr_1 mrs).
Proof.
  destruct mrs as [m r s]. simpl. intros Hm.
  destruct m as [|p|p]; [done| |lia]. by destruct p.
Qed.

Lemma iter_shr_1_nonneg (p : positive) : forall mrs,
  0 <= shr_m mrs -> 0 <= shr_m (SpecFloat.iter_pos shr_1 p mrs).
Proof.
  induction p as [p IH|p IH|]; intros mrs Hm; simpl.
  - apply IH, IH. by apply shr_1_nonneg.
  - by apply IH, IH.
  - by apply shr_1_nonneg.
Qed.

Lemma shr_fexp_nonneg (m e : Z) (l : location) :
  0 <= m -> 0 <= shr_m (shr_fexp 53 1024 m e l).1.
Proof.
  intros Hm. unfold shr_fexp, shr.
  assert (H0 : 0 <= shr_m (shr_record_of_loc m l)).
  { destruct l as [|[| |]]; exact Hm. }
  destruct (fexp 53 1024 (Zdigits2 m + e) - e) as [|p|p]; simpl; [done| |done].
  by apply iter_shr_1_nonneg.
Qed.

Lemma round_nearest_even_nonneg (m : Z) (l : location) :
  0 <= m -> 0 <= round_nearest_even m l.
Proof.
  intros Hm. unfold round_nearest_even.
  destruct l as [|[| |]]; [done| |done|lia]. destruct (Z.even m); lia.
Qed.

(** Rounding a mantissa that is not negative gives no NaN and no negative
    double. *)
Lemma binary_round_aux_nonneg (m e : Z) (l : location) :
  0 <= m -> nonneg (binary_round_aux 53 1024 false m e l).
Proof.
  intros Hm. unfold binary_round_aux.
  pose proof (shr_fexp_nonneg m e l Hm) as H1.
  destruct (shr_fexp 53 1024 m e l) as [mrs' e']. simpl in H1.
  pose proof (shr_fexp_nonneg _ e' loc_Exact
                (round_nearest_even_nonneg (shr_m mrs') (loc_of_shr_record mrs') H1)) as H2.
  destruct (shr_fexp 53 1024 _ e' loc_Exact) as [mrs'' e'']. simpl in H2.
  destruct (shr_m mrs'') as [|p|p]; [done| |lia].
  by destruct (e'' <=? 1024 - 53).
Qed.

Lemma binary_round_nonneg (m : positive) (e : Z) : nonneg (binary_round 53 1024 false m e).
Proof.
  unfold binary_round. destruct (shl_align m e _) as [mz ez].
  by apply binary_round_aux_nonneg.
Qed.

Lemma ofZ_nonneg (z : Z) : 0 <= z -> nonneg (ofZ z).
Proof.
  intros Hz. unfold ofZ, binary_normalize.
  destruct z as [|p|p]; [done|apply binary_round_nonneg|lia].
Qed.

Lemma fadd_nonneg (x y : double) : nonneg x -> nonneg y -> nonneg (fadd x y).
Proof.
  destruct x as [[]|[]| |[] mx ex], y as [[]|[]| |[] my ey]; try done.
  intros _ _. unfold fadd, SFadd, cond_Zopp, binary_normalize.
  destruct (shl_align mx ex (Z.min ex ey)) as [m1 e1].
  destruct (shl_align my ey (Z.min ex ey)) as [m2 e2]. simpl.
  apply binary_round_nonneg.
Qed.

Lemma fmul_nonneg (x y : double) : nonneg x -> positive_finite y -> nonneg (fmul x y).
Proof.
  destruct x as [[]|[]| |[] mx ex], y as [[]|[]| |[] my ey]; try done.
  intros _ _. unfold fmul, SFmul. simpl. by apply binary_round_aux_nonneg.
Qed.

Lemma fdiv_nonneg (x y : double) : nonneg x -> positive_finite y -> nonneg (fdiv x y).
Proof.
  destruct x as [[]|[]| |[] mx ex], y as [[]|[]| |[] my ey]; try done.
  intros _ _. unfold fdiv, SFdiv. simpl.
  destruct (SFdiv_core_binary 53 1024 (Z.pos mx) ex (Z.pos my) ey) as [[mz ez] lz] eqn:Hcore.
  apply binary_round_aux_nonneg.
  unfold SFdiv_core_binary in Hcore.
  set (m' := match _ - _ - _ with Z0 => _ | Z.pos _ => _ | Z.neg _ => _ end) in Hcore.
  assert (Hm' : 0 <= m').
  { subst m'. destruct (_ - _ - _); [lia| |lia]. apply Z.shiftl_nonneg. lia. }
  pose proof (Z.div_eucl_eq m' (Z.pos my) ltac:(lia)) as Heq.
  pose proof (Z.mod_pos_bound m' (Z.pos my) ltac:(lia)) as Hmod.
  unfold Z.modulo in Hmod.
  destruct (Z.div_eucl m' (Z.pos my)) as [q r]. inversion Hcore; subst. nia.
Qed.

(** Nothing that is not negative lies below [-1]. *)
Lemma fgt_minus_one (x : double) : nonneg x -> fgt x (ofZ (-1)) = true.
Proof. by destruct x as [[]|[]| |[] m e]. Qed.

Lemma not_fgt_minus_one (x : double) : nonneg x -> fgt (ofZ (-1)) x = false.
Proof. by destruct x as [[]|[]| |[] m e]. Qed.

(* ------------------------------------------------------------------ *)
(** ** The double of a positive integer below [2^53] is a positive number *)

Lemma digits2_size (p : positive) : digits2_pos p = Pos.size p.
Proof. induction p; simpl; by rewrite ?IHp. Qed.

Lemma digits2_iter_xO (k : positive) (p : positive) :
  digits2_pos (Pos.iter xO p k) = (digits2_pos p + k)%positive.
Proof.
  revert p. induction k using Pos.peano_ind; intros p.
  - simpl. lia.
  - rewrite Pos.iter_succ. simpl. rewrite IHk. lia.
Qed.

Lemma digits2_le_53 (p : positive) : Z.pos p < 2 ^ 53 -> Z.pos (digits2_pos p) <= 53.
Proof.
  intros Hp. rewrite digits2_size.
  destruct (Z_le_gt_dec (Z.pos (Pos.size p)) 53) as [|Hgt]; [done|]. exfalso.
  pose proof (Pos.size_le p) as Hle.
  apply Pos2Z.pos_le_pos in Hle. rewrite Pos2Z.inj_pow in Hle.
  pose proof (Z.pow_le_mono_r 2 54 (Z.pos (Pos.size p)) ltac:(lia) ltac:(lia)) as H54.
  change (2 ^ 54) with (2 * 2 ^ 53) in H54. lia.
Qed.

Lemma shr_0 (mrs : shr_record) (e n : Z) : n = 0 -> shr mrs e n = (mrs, e).
Proof. by intros ->. Qed.

Lemma ofZ_positive (z : Z) : 0 < z < 2 ^ 53 -> positive_finite (ofZ z).
Proof.
  intros [Hz Hb]. destruct z as [|p|p]; [lia| |lia].
  pose proof (digits2_le_53 p Hb) as Hd.
  unfold ofZ, binary_normalize, binary_round.
  assert (Hfexp : fexp 53 1024 (Z.pos (digits2_pos p) + 0) = Z.pos (digits2_pos p) - 53).
  { unfold fexp, emin. lia. }
  rewrite Hfexp. unfold shl_align.
  assert (Haux : forall mz ez, Z.pos (digits2_pos mz) = 53 -> ez = Z.pos (digits2_pos p) - 53 ->
            positive_finite (binary_round_aux 53 1024 false (Z.pos mz) ez loc_Exact)).
  { intros mz ez Hmz Hez. unfold binary_round_aux, shr_fexp. simpl Zdigits2.
    assert (Hf : fexp 53 1024 (Z.pos (digits2_pos mz) + ez) - ez = 0).
    { unfold fexp, emin. lia. }
    rewrite shr_0 by exact Hf.
    cbn [shr_record_of_loc shr_m loc_of_shr_record round_nearest_even Zdigits2].
    rewrite shr_0 by exact Hf. cbn [shr_record_of_loc shr_m].
    destruct (ez <=? 1024 - 53) eqn:Hle; [done|]. apply Z.leb_gt in Hle. lia. }
  destruct (Z.pos (digits2_pos p) - 53 - 0) as [|d|d] eqn:Hdiff.
  - apply Haux; lia.
  - lia.
  - apply Haux; [|lia]. rewrite digits2_iter_xO. lia.
Qed.

(* ================================================================== *)
(** * Key-cell placement: [placeKeyCells] *)

Lemma elem_of_getAllPassages (maze : Grid) (c : Cell) :
  c ∈ getAllPassages maze <-> isWalkable maze c.1 c.2 = true.
Proof.
  unfold getAllPassages, isWalkable. rewrite list_elem_of_bind. split.
  - intros (y & Hc & Hy). apply list_elem_of_bind in Hc as (x & Hc & Hx).
    apply elem_of_seqZ in Hx, Hy. case_decide as Hp; [|by apply elem_of_nil in Hc].
    apply list_elem_of_singleton in Hc as ->. simpl.
    rewrite decide_False by lia. by apply bool_decide_eq_true.
  - case_decide as Hb; [done|]. intros Hp%bool_decide_eq_true.
    exists c.2. split; [|apply elem_of_seqZ; lia].
    apply list_elem_of_bind. exists c.1. split; [|apply elem_of_seqZ; lia].
    rewrite decide_True by done. destruct c. by apply list_elem_of_singleton.
Qed.

Lemma candyScore_nonneg (a b : Z) : 40 <= a -> 40 <= b -> 0 <= candyScore a b.
Proof. unfold candyScore. lia. Qed.

Lemma candyOf_nonneg (dStart dExit : Grid) (c : Cell) (s : Z) :
  candyOf dStart dExit c = Some s -> 0 <= s.
Proof.
  unfold candyOf. destruct (cellAt dStart c.1 c.2) as [a|]; [|done].
  destruct (cellAt dExit c.1 c.2) as [b|]; [|done].
  case_decide as H; [|done]. intros [= <-]. apply candyScore_nonneg; lia.
Qed.

Section Candy.
Variable maze : Grid.
Variables dStart dExit : Grid.
Hypothesis HdStart : rect (cols maze) (rows maze) dStart.
Hypothesis HdExit : rect (cols maze) (rows maze) dExit.

(** One iteration of the candy loop takes the cell when its objective beats
    the best score so far. *)
Lemma candyStep_spec (st : option Cell * Z) (c : Cell) :
  0 <= c.2 < rows maze ->
  candyStep dStart dExit st c =
    Ok (match candyOf dStart dExit c with
        | Some s => if decide (s > st.2) then (Some c, s) else st
        | None => st
        end).
Proof.
  intros Hy. unfold candyStep, candyOf.
  rewrite (readCell_rect _ _ dStart c.1 c.2 HdStart) by lia. cbn [mbind res_bind].
  rewrite (readCell_rect _ _ dExit c.1 c.2 HdExit) by lia. cbn [mbind res_bind].
  destruct (cellAt dStart c.1 c.2) as [a|]; [|done].
  destruct (cellAt dExit c.1 c.2) as [b|]; [|done].
  repeat case_decide; try done; lia.
Qed.

(** The candy loop keeps [candyInv]. *)
Lemma candy_fold (l : list Cell) : forall (seen : list Cell) (st : option Cell * Z),
  (forall c, c ∈ l -> 0 <= c.2 < rows maze) ->
  candyInv dStart dExit seen st ->
  exists st', foldM (candyStep dStart dExit) st l = Ok st' /\
    candyInv dStart dExit (seen ++ l) st'.
Proof.
  induction l as [|c l IH]; intros seen st Hrange Hinv.
  - exists st. by rewrite app_nil_r.
  - cbn [foldM]. rewrite candyStep_spec by (apply Hrange; by left). cbn [mbind res_bind].
    replace (seen ++ c :: l) with ((seen ++ [c]) ++ l) by (by rewrite <- app_assoc).
    apply IH; [intros; apply Hrange; by right|].
    destruct (candyOf dStart dExit c) as [s|] eqn:Hs.
    + pose proof (candyOf_nonneg _ _ _ _ Hs) as Hs0.
      case_decide as Hgt.
      * right. simpl. split; [done|]. exists c.
        split; [done|]. split; [apply elem_of_app; right; by left|]. split; [done|].
        intros c' s' [Hc'|Hc']%elem_of_app Hs'.
        -- destruct Hinv as [[_ Hnone]|(_ & c0 & _ & _ & _ & Hmax)].
           ++ rewrite (Hnone _ Hc') in Hs'. done.
           ++ specialize (Hmax _ _ Hc' Hs'). lia.
        -- apply list_elem_of_singleton in Hc' as ->. rewrite Hs in Hs'. inversion Hs'. lia.
      * destruct Hinv as [[Hm1 _]|(H0 & c0 & Hbest & Hin & Hsc & Hmax)]; [lia|].
        right. split; [done|]. exists c0.
        split; [done|]. split; [apply elem_of_app; by left|]. split; [done|].
        intros c' s' [Hc'|Hc']%elem_of_app Hs'; [by eapply Hmax|].
        apply list_elem_of_singleton in Hc' as ->. rewrite Hs in Hs'. inversion Hs'. lia.
    + destruct Hinv as [[Hm1 Hnone]|(H0 & c0 & Hbest & Hin & Hsc & Hmax)].
      * left. split; [done|]. intros c' [Hc'|Hc']%elem_of_app; [by apply Hnone|].
        by apply list_elem_of_singleton in Hc' as ->.
      * right. split; [done|]. exists c0.
        split; [done|]. split; [apply elem_of_app; by left|]. split; [done|].
        intros c' s' [Hc'|Hc']%elem_of_app Hs'; [by eapply Hmax|].
        apply list_elem_of_singleton in Hc' as ->. rewrite Hs in Hs'. done.
Qed.

End Candy.

(** The candy anchor [Math.floor(n * 0.3)], in integers. *)
Lemma anchor_floor (n : Z) : Qfloor (inject_Z n * (3 # 10)) = n * 3 / 10.
Proof. reflexivity. Qed.

Section Exit.
Variable maze : Grid.
Variable dCandy : Grid.
Hypothesis HdCandy : rect (cols maze) (rows maze) dCandy.
Hypothesis Hlow : forall c, -1 <= distOf dCandy c.
Hypothesis Hcols : cols maze < 2 ^ 53.
Hypothesis Hrows : rows maze < 2 ^ 53.

(** The combined score of a cell of the maze that the candy reaches is no
    NaN and not negative, however its five operations round. *)
Lemma exitCombined_nonneg (dc : Z) (c : Cell) :
  0 <= dc -> 0 <= c.1 < cols maze -> 0 <= c.2 < rows maze ->
  nonneg (exitCombined maze dc c).
Proof.
  intros Hd Hx Hy. unfold exitCombined, exitBias.
  apply fadd_nonneg; [by apply ofZ_nonneg|].
  apply fmul_nonneg; [|exact I].
  apply fadd_nonneg; (apply fdiv_nonneg; [apply ofZ_nonneg|apply ofZ_positive]; lia).
Qed.

(** One iteration of the relocation loop on a cell of the maze. *)
Lemma exitStep_spec (st : Cell * double) (c : Cell) :
  0 <= c.1 < cols maze -> 0 <= c.2 < rows maze ->
  exitStep maze dCandy st c =
    Ok (if fgt (ofZ (distOf dCandy c)) st.2 then
          if fgt (exitCombined maze (distOf dCandy c) c) st.2
          then (c, exitCombined maze (distOf dCandy c) c) else st
        else st).
Proof.
  intros Hx Hy. unfold exitStep.
  rewrite (readCell_rect _ _ dCandy c.1 c.2 HdCandy) by lia. cbn [mbind res_bind].
  destruct (cellAt_in _ _ dCandy c.1 c.2 HdCandy Hx Hy) as [v Hv].
  rewrite Hv, (distOf_Some _ _ _ Hv).
  by destruct (fgt (ofZ v) st.2), (fgt (exitCombined maze v c) st.2).
Qed.

(** The relocation loop returns. *)
Lemma exit_fold_returns (l : list Cell) : forall st : Cell * double,
  (forall c, c ∈ l -> 0 <= c.1 < cols maze /\ 0 <= c.2 < rows maze) ->
  exists st', foldM (exitStep maze dCandy) st l = Ok st'.
Proof.
  induction l as [|c l IH]; intros st Hrange; [by exists st|].
  destruct (Hrange c ltac:(by left)) as [Hx Hy].
  cbn [foldM]. rewrite exitStep_spec by done. cbn [mbind res_bind].
  apply IH. intros; apply Hrange; by right.
Qed.

(** The relocation loop keeps [exitInv]: the first cell the candy reaches is
    taken, and a cell the candy does not reach never is. *)
Lemma exit_fold (exit0 : Cell) (l : list Cell) : forall (seen : list Cell) (st : Cell * double),
  (forall c, c ∈ l -> 0 <= c.1 < cols maze /\ 0 <= c.2 < rows maze) ->
  exitInv dCandy exit0 seen st ->
  exists st', foldM (exitStep maze dCandy) st l = Ok st' /\
    exitInv dCandy exit0 (seen ++ l) st'.
Proof.
  induction l as [|c l IH]; intros seen st Hrange Hinv.
  - exists st. by rewrite app_nil_r.
  - destruct (Hrange c ltac:(by left)) as [Hx Hy].
    cbn [foldM]. rewrite exitStep_spec by done. cbn [mbind res_bind].
    replace (seen ++ c :: l) with ((seen ++ [c]) ++ l) by (by rewrite <- app_assoc).
    apply IH; [intros; apply Hrange; by right|].
    destruct (decide (distOf dCandy c < 0)) as [Hneg|Hpos].
    + (* a cell the candy does not reach holds -1 *)
      assert (Hd : distOf dCandy c = -1) by (pose proof (Hlow c); lia).
      rewrite Hd. destruct Hinv as [[-> Hall]|(Hin & H0 & Hnn)].
      * left. split; [done|]. intros c' [Hc'|Hc']%elem_of_app; [by apply Hall|].
        apply list_elem_of_singleton in Hc' as ->. lia.
      * rewrite (not_fgt_minus_one _ Hnn). right.
        split; [apply elem_of_app; by left|done].
    + pose proof (exitCombined_nonneg (distOf dCandy c) c ltac:(lia) Hx Hy) as Hcomb.
      destruct Hinv as [[-> Hall]|(Hin & H0 & Hnn)].
      * cbn [snd]. rewrite (fgt_minus_one _ (ofZ_nonneg (distOf dCandy c) ltac:(lia))).
        rewrite (fgt_minus_one _ Hcomb). right. cbn [fst snd].
        split; [apply elem_of_app; right; by left|]. split; [lia|done].
      * right. destruct (fgt (ofZ (distOf dCandy c)) st.2);
          [destruct (fgt (exitCombined maze (distOf dCandy c) c) st.2)|]; cbn [fst snd].
        -- split; [apply elem_of_app; right; by left|]. split; [lia|done].
        -- split; [apply elem_of_app; by left|done].
        -- split; [apply elem_of_app; by left|done].
Qed.

End Exit.

Lemma candyOf_Some (dStart dExit : Grid) (c : Cell) (s : Z) :
  candyOf dStart dExit c = Some s <->
  exists a b, cellAt dStart c.1 c.2 = Some a /\ cellAt dExit c.1 c.2 = Some b /\
    40 <= a /\ 40 <= b /\ s = candyScore a b.
Proof.
  unfold candyOf. split.
  - destruct (cellAt dStart c.1 c.2) as [a|]; [|done].
    destruct (cellAt dExit c.1 c.2) as [b|]; [|done].
    case_decide; [|done]. intros [= <-]. exists a, b. tauto.
  - intros (a & b & -> & -> & Ha & Hb & ->). by rewrite decide_True.
Qed.

(** The candy is a best cell among those far from both ends when there is
    one, and the snapped anchor otherwise. *)
Lemma chooseCandy_spec (maze dStart dExit : Grid) :
  rect (cols maze) (rows maze) dStart -> rect (cols maze) (rows maze) dExit ->
  exists candy,
    chooseCandy maze dStart dExit (getAllPassages maze) = Ok candy /\
    (isWalkable maze candy.1 candy.2 = true \/ candy = (1, 1)) /\
    ((exists c, isWalkable maze c.1 c.2 = true /\ is_Some (candyOf dStart dExit c)) ->
       isWalkable maze candy.1 candy.2 = true /\
       exists s, candyOf dStart dExit candy = Some s /\
         forall c s', isWalkable maze c.1 c.2 = true ->
           candyOf dStart dExit c = Some s' -> s' <= s) /\
    ((forall c, isWalkable maze c.1 c.2 = true -> candyOf dStart dExit c = None) ->
       nearestPassage maze (cols maze * 3 / 10) (rows maze * 3 / 10) = Ok candy).
Proof.
  intros HdS HdE. unfold chooseCandy. rewrite !anchor_floor.
  destruct (candy_fold maze dStart dExit HdS HdE (getAllPassages maze) []
              (head (getAllPassages maze), -1)) as ([best score] & -> & Hinv).
  { intros c Hc%elem_of_getAllPassages. by apply isWalkable_range in Hc as [_ ?]. }
  { left. split; [done|]. intros c Hc. by apply elem_of_nil in Hc. }
  rewrite app_nil_l in Hinv. cbn [mbind res_bind].
  destruct Hinv as [[Hm Hnone]|(H0 & c0 & Hbest & Hin & Hsc & Hmax)]; simpl in *.
  - subst score. rewrite decide_False by lia.
    destruct (nearestPassage_spec maze (cols maze * 3 / 10) (rows maze * 3 / 10))
      as (c & Hc & Hcw).
    exists c. split; [done|]. split; [done|]. split; [|done].
    intros (c' & Hw & [s Hs]). apply elem_of_getAllPassages in Hw.
    rewrite (Hnone _ Hw) in Hs. done.
  - rewrite decide_True by lia. subst best. exists c0. split; [done|].
    apply elem_of_getAllPassages in Hin as Hw0.
    split; [by left|]. split.
    + intros _. split; [done|]. exists score. split; [done|].
      intros c s' Hw Hs'. apply elem_of_getAllPassages in Hw. by eapply Hmax.
    + intros Hnone. rewrite (Hnone _ Hw0) in Hsc. done.
Qed.

(** [relocateExit] returns for a first exit inside the maze. *)
Lemma relocateExit_returns (maze dCandy : Grid) (exit0 : Cell) :
  rect (cols maze) (rows maze) dCandy ->
  0 <= exit0.1 < cols maze -> 0 <= exit0.2 < rows maze ->
  exists e, relocateExit maze dCandy (getAllPassages maze) exit0 = Ok e.
Proof.
  intros HdC Hx Hy. unfold relocateExit.
  rewrite (readCell_rect _ _ dCandy exit0.1 exit0.2 HdC) by lia. cbn [mbind res_bind].
  destruct (cellAt_in _ _ dCandy exit0.1 exit0.2 HdC Hx Hy) as [d Hd]. rewrite Hd.
  case_decide as Hd60; [|by exists exit0].
  destruct (exit_fold_returns maze dCandy HdC (getAllPassages maze) (exit0, ofZ (-1)))
    as ([e ed] & ->).
  { intros c Hc%elem_of_getAllPassages. by apply isWalkable_range. }
  by exists e.
Qed.

(** The exit stays when it is at least 60 steps from the candy; otherwise it
    is where the scan ends: on a passage the candy reaches, or where it was
    when the candy reaches no passage. *)
Lemma relocateExit_spec (maze dCandy : Grid) (exit0 : Cell) :
  rect (cols maze) (rows maze) dCandy ->
  (forall c, -1 <= distOf dCandy c) ->
  cols maze < 2 ^ 53 -> rows maze < 2 ^ 53 ->
  0 <= exit0.1 < cols maze -> 0 <= exit0.2 < rows maze ->
  exists e d,
    relocateExit maze dCandy (getAllPassages maze) exit0 = Ok e /\
    cellAt dCandy exit0.1 exit0.2 = Some d /\
    (60 <= d -> e = exit0) /\
    (d < 60 ->
       (e = exit0 /\ forall c, isWalkable maze c.1 c.2 = true -> distOf dCandy c < 0)
       \/ (isWalkable maze e.1 e.2 = true /\ 0 <= distOf dCandy e)).
Proof.
  intros HdC Hlow Hcols Hrows Hx Hy. unfold relocateExit.
  rewrite (readCell_rect _ _ dCandy exit0.1 exit0.2 HdC) by lia. cbn [mbind res_bind].
  destruct (cellAt_in _ _ dCandy exit0.1 exit0.2 HdC Hx Hy) as [d Hd]. rewrite Hd.
  case_decide as Hd60.
  - destruct (exit_fold maze dCandy HdC Hlow Hcols Hrows exit0 (getAllPassages maze) []
                (exit0, ofZ (-1))) as ([e ed] & -> & Hinv).
    { intros c Hc%elem_of_getAllPassages. by apply isWalkable_range. }
    { left. split; [done|]. intros c Hc. by apply elem_of_nil in Hc. }
    rewrite app_nil_l in Hinv. cbn [mbind res_bind].
    exists e, d. split; [done|]. split; [done|]. split; [lia|]. intros _.
    destruct Hinv as [[Heq Hneg]|(Hin & H0 & _)]; simpl in *.
    + left. inversion Heq; subst. split; [done|].
      intros c Hc. apply Hneg. by apply elem_of_getAllPassages.
    + right. split; [by apply elem_of_getAllPassages|done].
  - exists exit0, d. split; [done|]. split; [done|]. split; [done|lia].
Qed.

(** The stages of [placeKeyCells] on a maze of at least two rows and
    columns, where the fallback cell [(1, 1)] lies inside the maze. *)
Lemma placeKeyCells_stages (maze : Grid) :
  2 <= cols maze -> 2 <= rows maze ->
  exists start exit0 dStart dExit candy dCandy exit,
    nearestPassage maze 1 (rows maze - 2) = Ok start /\
    nearestPassage maze (cols maze - 2) (rows maze - 2) = Ok exit0 /\
    bfsDistances maze start = Ok dStart /\
    bfsDistances maze exit0 = Ok dExit /\
    chooseCandy maze dStart dExit (getAllPassages maze) = Ok candy /\
    bfsDistances maze candy = Ok dCandy /\
    relocateExit maze dCandy (getAllPassages maze) exit0 = Ok exit /\
    placeKeyCells maze =
      Ok {| startCell := start; exitCell := exit; candyCell := candy |} /\
    rect (cols maze) (rows maze) dStart /\
    rect (cols maze) (rows maze) dExit /\
    rect (cols maze) (rows maze) dCandy /\
    (0 <= exit0.1 < cols maze /\ 0 <= exit0.2 < rows maze).
Proof.
  intros Hc Hr.
  assert (Hin : forall c, isWalkable maze c.1 c.2 = true \/ c = (1, 1) ->
            0 <= c.1 < cols maze /\ 0 <= c.2 < rows maze).
  { intros c [Hw| ->]; [by apply isWalkable_range|simpl; lia]. }
  destruct (nearestPassage_spec maze 1 (rows maze - 2)) as (start & Hstart & Hsw).
  destruct (nearestPassage_spec maze (cols maze - 2) (rows maze - 2)) as (exit0 & Hexit0 & Hew).
  destruct (Hin _ Hsw) as [Hsx Hsy]. destruct (Hin _ Hew) as [Hex Hey].
  destruct (bfsDistances_spec maze start Hsx Hsy) as (dStart & HdS & IS).
  destruct (bfsDistances_spec maze exit0 Hex Hey) as (dExit & HdE & IE).
  destruct (chooseCandy_spec maze dStart dExit (bfs_rect _ _ _ _ IS) (bfs_rect _ _ _ _ IE))
    as (candy & Hcandy & Hcw & _).
  destruct (Hin _ Hcw) as [Hcx Hcy].
  destruct (bfsDistances_spec maze candy Hcx Hcy) as (dCandy & HdC & IC).
  destruct (relocateExit_returns maze dCandy exit0 (bfs_rect _ _ _ _ IC) Hex Hey)
    as (exit & Hexit).
  exists start, exit0, dStart, dExit, candy, dCandy, exit.
  repeat (split; [done|]). split.
  { unfold placeKeyCells. rewrite Hstart. cbn [mbind res_bind].
    rewrite Hexit0. cbn [mbind res_bind]. rewrite HdS. cbn [mbind res_bind].
    rewrite HdE. cbn [mbind res_bind]. rewrite Hcandy. cbn [mbind res_bind].
    rewrite HdC. cbn [mbind res_bind]. rewrite Hexit. done. }
  split; [apply IS|]. split; [apply IE|]. split; [apply IC|done].
Qed.

(** [maze5] is what the generator returns for 5 by 5 when every draw is 0. *)
Lemma maze5_generated : generatePerfectMaze zeroStream 5 5 = Ok maze5.
Proof. reflexivity. Qed.

(** Claim C2. On a maze of at least two rows and columns
    [placeKeyCells] returns, and with the distance maps from the start and
    from the first exit: if some passage cell is at least 40 steps from both,
    the candy cell is such a cell and no such cell has a higher
    [candyScore]; if no passage cell is, the candy cell is [nearestPassage]
    of the anchor at three tenths of the columns and rows, rounded down. *)
Theorem candy_is_far_maximizer (maze : Grid) :
  2 <= cols maze -> 2 <= rows maze ->
  exists start exit0 dStart dExit k,
    nearestPassage maze 1 (rows maze - 2) = Ok start /\
    nearestPassage maze (cols maze - 2) (rows maze - 2) = Ok exit0 /\
    bfsDistances maze start = Ok dStart /\
    bfsDistances maze exit0 = Ok dExit /\
    placeKeyCells maze = Ok k /\
    ((exists c a b, isWalkable maze c.1 c.2 = true /\
        cellAt dStart c.1 c.2 = Some a /\ cellAt dExit c.1 c.2 = Some b /\
        40 <= a /\ 40 <= b) ->
     exists a b,
       isWalkable maze (candyCell k).1 (candyCell k).2 = true /\
       cellAt dStart (candyCell k).1 (candyCell k).2 = Some a /\
       cellAt dExit (candyCell k).1 (candyCell k).2 = Some b /\
       40 <= a /\ 40 <= b /\
       forall c a' b', isWalkable maze c.1 c.2 = true ->
         cellAt dStart c.1 c.2 = Some a' -> cellAt dExit c.1 c.2 = Some b' ->
         40 <= a' -> 40 <= b' -> candyScore a' b' <= candyScore a b) /\
    ((forall c a b, isWalkable maze c.1 c.2 = true ->
        cellAt dStart c.1 c.2 = Some a -> cellAt dExit c.1 c.2 = Some b ->
        ~ (40 <= a /\ 40 <= b)) ->
     nearestPassage maze (cols maze * 3 / 10) (rows maze * 3 / 10) = Ok (candyCell k)).
Proof.
  intros Hc Hr.
  destruct (placeKeyCells_stages maze Hc Hr)
    as (start & exit0 & dStart & dExit & candy & dCandy & exit &
        Hstart & Hexit0 & HdS & HdE & Hcandy & _ & _ & Hplace & HrS & HrE & _).
  exists start, exit0, dStart, dExit, {| startCell := start; exitCell := exit; candyCell := candy |}.
  repeat (split; [done|]). simpl.
  destruct (chooseCandy_spec maze dStart dExit HrS HrE) as (candy' & Hcandy' & _ & Hfar & Hnear).
  rewrite Hcandy in Hcandy'. inversion Hcandy'; subst candy'. clear Hcandy'.
  split.
  - intros (c & a & b & Hw & Ha & Hb & Ha40 & Hb40).
    destruct Hfar as (Hcw & s & Hs & Hmax).
    { exists c. split; [done|]. exists (candyScore a b). apply candyOf_Some. by exists a, b. }
    apply candyOf_Some in Hs as (a0 & b0 & Ha0 & Hb0 & H40a & H40b & ->).
    exists a0, b0. repeat (split; [done|]).
    intros c' a' b' Hw' Ha' Hb' H1 H2. apply (Hmax c'); [done|].
    apply candyOf_Some. by exists a', b'.
  - intros Hnone. apply Hnear. intros c Hw.
    destruct (candyOf dStart dExit c) as [s|] eqn:Hs; [|done]. exfalso.
    apply candyOf_Some in Hs as (a & b & Ha & Hb & H40a & H40b & _).
    by apply (Hnone c a b).
Qed.

Lemma candy_is_far_maximizer_witness :
  exists k, placeKeyCells maze5 = Ok k.
Proof.
  destruct (candy_is_far_maximizer maze5) as (start & exit0 & dStart & dExit & k & H);
    [by vm_compute|by vm_compute|].
  exists k. apply H.
Defined.

(** Rounding decides the scan. On [maze10] the candy is (3, 7) and the scan
    first takes (1, 7), two steps from it; its score, 14 in exact arithmetic,
    is the double just below 14, so the passage (3, 9), 14 steps from the
    candy, is still taken, and is the exit. *)
Lemma relocation_rounds_as_doubles :
  placeKeyCells maze10 =
    Ok {| startCell := (1, 7); exitCell := (3, 9); candyCell := (3, 7) |} /\
  exitCombined maze10 2 (1, 7) = S754_finite false 7881299347898367 (-49) /\
  ofZ 14 = S754_finite false 7881299347898368 (-49) /\
  fgt (ofZ 14) (exitCombined maze10 2 (1, 7)) = true.
Proof. repeat split; reflexivity. Qed.

Lemma gameStream_unitRange : unitRange gameStream.
Proof.
  intros i. unfold gameStream. cbv zeta.
  set (v := (_ mod 997)). pose proof (Z.mod_pos_bound (7 * (Z.of_nat i + 31000) *
    (Z.of_nat i + 31000) + 13 * (Z.of_nat i + 31000) + 5) 997 ltac:(lia)) as Hv.
  fold v in Hv. unfold Qle, Qlt. simpl. lia.
Qed.

(** Claim C3 fails on the code. The scan of lines 244-255 takes a cell
    only when its plain distance from the candy is above the best combined
    score so far, so it ends on a cell that need not have the highest
    combined score, nor be the farthest. The scores are the doubles the
    code computes.
    - On [maze5], the maze of [generatePerfectMaze(5, 5)] when every draw
      is 0, the first exit (3, 3) is 4 steps from the candy (1, 1); the scan
      takes (1, 1) at once, with the score 6, and no cell after it: the exit
      returned is the candy cell itself, though the passage (1, 3) is 6
      steps from the candy and has the score 18.
    - In a game of 41 by 29 cells, on the draws [gameStream], the first
      exit (39, 27) cannot be reached from the candy (13, 8); the exit
      returned is (9, 19), 75 steps from the candy, though the passage
      (12, 19) is 78 steps from it and has a higher score. *)
Lemma relocated_exit_not_maximizer :
  (generatePerfectMaze zeroStream 5 5 = Ok maze5 /\
   nearestPassage maze5 (cols maze5 - 2) (rows maze5 - 2) = Ok (3, 3) /\
   placeKeyCells maze5 =
     Ok {| startCell := (1, 3); exitCell := (1, 1); candyCell := (1, 1) |} /\
   bfsDistances maze5 (1, 1) =
     Ok [[-1; -1; -1; -1; -1];
         [-1;  0;  1;  2; -1];
         [-1; -1; -1;  3; -1];
         [-1;  6;  5;  4; -1];
         [-1; -1; -1; -1; -1]] /\
   isWalkable maze5 1 3 = true /\
   exitCombined maze5 0 (1, 1) = ofZ 6 /\
   exitCombined maze5 6 (1, 3) = ofZ 18 /\
   fgt (exitCombined maze5 6 (1, 3)) (exitCombined maze5 0 (1, 1)) = true) /\
  (unitRange gameStream /\
   exists g dCandy,
     generatePerfectMaze gameStream 41 29 = Ok g /\
     nearestPassage g (cols g - 2) (rows g - 2) = Ok (39, 27) /\
     placeKeyCells g =
       Ok {| startCell := (1, 27); exitCell := (9, 19); candyCell := (13, 8) |} /\
     bfsDistances g (13, 8) = Ok dCandy /\
     cellAt dCandy 39 27 = Some (-1) /\
     cellAt dCandy 9 19 = Some 75 /\
     cellAt dCandy 12 19 = Some 78 /\
     isWalkable g 12 19 = true /\
     fgt (exitCombined g 78 (12, 19)) (exitCombined g 75 (9, 19)) = true).
Proof.
  split; [repeat split; reflexivity|].
  split; [apply gameStream_unitRange|].
  eexists _, _. split; [vm_compute; reflexivity|].
  split; [by vm_compute|]. split; [by vm_compute|].
  split; [vm_compute; reflexivity|].
  repeat split; by vm_compute.
Qed.
(* ------------------------------------------------------------------ *)
(** ** The list of passages *)

(** [seqZ] counts upwards. *)
Lemma seqZ_sorted (n : nat) : forall a, StronglySorted Z.lt (seqZ a (Z.of_nat n)).
Proof.
  induction n as [|n IH]; intros a; [constructor|].
  rewrite seqZ_cons by lia. constructor.
  - replace (Z.pred (Z.of_nat (S n))) with (Z.of_nat n) by lia. apply IH.
  - apply Forall_forall. intros x Hx%elem_of_seqZ. lia.
Qed.

(** Lists in order, taken from a list in order, are in order when joined. *)
Lemma bind_sorted {A B : Type} (S : relation A) (R : relation B) (f : A -> list B) (l : list A) :
  StronglySorted S l ->
  (forall x, x ∈ l -> StronglySorted R (f x)) ->
  (forall x x' a b, x ∈ l -> x' ∈ l -> S x x' -> a ∈ f x -> b ∈ f x' -> R a b) ->
  StronglySorted R (l ≫= f).
Proof.
  induction 1 as [|x l Hl IH Hx]; intros Hf Hcross; [constructor|].
  rewrite bind_cons. apply StronglySorted_app_2.
  - intros a b Ha Hb. apply list_elem_of_bind in Hb as (x' & Hb & Hx').
    apply (Hcross x x'); [by left|by right| |done|done].
    by apply (proj1 (Forall_forall _ _) Hx).
  - apply Hf. by left.
  - apply IH.
    + intros x' Hx'. apply Hf. by right.
    + intros x1 x2 a b H1 H2. apply Hcross; by right.
Qed.

(** Property X8. [getAllPassages] lists exactly the passage cells of
    the maze, row by row from the top and from left to right within a row,
    each of them once. *)
Theorem passages_listed_row_by_row (maze : Grid) :
  (forall c, c ∈ getAllPassages maze <-> isWalkable maze c.1 c.2 = true) /\
  StronglySorted rowMajor (getAllPassages maze) /\
  NoDup (getAllPassages maze).
Proof.
  split; [apply elem_of_getAllPassages|].
  assert (Hs : StronglySorted rowMajor (getAllPassages maze)).
  { unfold getAllPassages.
    assert (Hrows : exists n, rows maze = Z.of_nat n) by (by exists (length maze)).
    assert (Hcols : exists n, cols maze = Z.of_nat n).
    { unfold cols. destruct maze as [|row ?]; [by exists 0%nat|by exists (length row)]. }
    destruct Hrows as [nr ->], Hcols as [nc ->].
    apply (bind_sorted Z.lt); [by apply seqZ_sorted|..].
    - intros y _. apply (bind_sorted Z.lt); [by apply seqZ_sorted|..].
      + intros x _. destruct (decide (cellAt maze x y = Some 0)); repeat constructor.
      + intros x x' a b _ _ Hlt Ha Hb.
        destruct (decide (cellAt maze x y = Some 0)); [|by apply elem_of_nil in Ha].
        destruct (decide (cellAt maze x' y = Some 0)); [|by apply elem_of_nil in Hb].
        apply list_elem_of_singleton in Ha as ->. apply list_elem_of_singleton in Hb as ->.
        right. simpl. lia.
    - intros y y' a b _ _ Hlt Ha Hb.
      apply list_elem_of_bind in Ha as (x & Ha & _).
      apply list_elem_of_bind in Hb as (x' & Hb & _).
      destruct (decide (cellAt maze x y = Some 0)); [|by apply elem_of_nil in Ha].
      destruct (decide (cellAt maze x' y' = Some 0)); [|by apply elem_of_nil in Hb].
      apply list_elem_of_singleton in Ha as ->. apply list_elem_of_singleton in Hb as ->.
      left. simpl. lia. }
  split; [exact Hs|].
  induction Hs as [|c l Hl IH Hc]; constructor; [|done].
  intros Hin. pose proof (proj1 (Forall_forall _ _) Hc c Hin) as Hcc.
  unfold rowMajor in Hcc. lia.
Qed.

(* ------------------------------------------------------------------ *)
(** ** The key cells are passages *)

(** A target that is a passage is returned at once. *)
Lemma nearestPassage_hit (maze : Grid) (x y : Z) :
  isWalkable maze x y = true -> nearestPassage maze x y = Ok (x, y).
Proof.
  intros Hw. unfold nearestPassage, searchFuel. rewrite Nat.add_comm.
  cbn [Nat.add ringLoop fst snd]. by rewrite Hw.
Qed.

(** [nearestPassage] of a target in a maze that has a passage is a passage. *)
Lemma nearestPassage_walkable (maze : Grid) (tx ty : Z) (c w : Cell) :
  0 <= tx < cols maze -> 0 <= ty < rows maze -> isWalkable maze w.1 w.2 = true ->
  nearestPassage maze tx ty = Ok c -> isWalkable maze c.1 c.2 = true.
Proof.
  intros Hx Hy Hw Hrun.
  destruct (nearestPassage_nearest maze tx ty Hx Hy) as (c' & Hrun' & Hsome & _).
  rewrite Hrun in Hrun'. inversion Hrun'; subst c'.
  apply Hsome. by exists w.
Qed.

(** The candy is a passage whenever the maze has one. *)
Lemma chooseCandy_walkable (maze dStart dExit : Grid) (candy w : Cell) :
  1 <= cols maze -> 1 <= rows maze ->
  rect (cols maze) (rows maze) dStart -> rect (cols maze) (rows maze) dExit ->
  isWalkable maze w.1 w.2 = true ->
  chooseCandy maze dStart dExit (getAllPassages maze) = Ok candy ->
  isWalkable maze candy.1 candy.2 = true.
Proof.
  intros Hc Hr HdS HdE Hw Hrun.
  destruct (chooseCandy_spec maze dStart dExit HdS HdE) as (candy' & Hrun' & _ & Hfar & Hnear).
  rewrite Hrun in Hrun'. inversion Hrun'; subst candy'. clear Hrun'.
  destruct (decide (Exists (fun c => is_Some (candyOf dStart dExit c)) (getAllPassages maze)))
    as [Hex|Hno].
  - apply Exists_exists in Hex as (c & Hin & Hs). apply Hfar. exists c. split; [|done].
    by apply elem_of_getAllPassages.
  - apply (nearestPassage_walkable maze (cols maze * 3 / 10) (rows maze * 3 / 10) candy w);
      [Z.div_mod_to_equations; lia|Z.div_mod_to_equations; lia|done|].
    apply Hnear. intros c Hcw.
    destruct (candyOf dStart dExit c) as [s|] eqn:Hs; [|done]. exfalso. apply Hno.
    apply Exists_exists. exists c. split; [by apply elem_of_getAllPassages|].
    by rewrite Hs.
Qed.

(** On a maze of at least two rows and columns, and of fewer than [2^32]
    as the arrays of JavaScript are, that has a passage the three key cells
    are passages, the exit can be reached from the candy, and the start is a
    passage nearest to the bottom left corner. *)
Lemma placeKeyCells_walkable (maze : Grid) (w : Cell) :
  2 <= cols maze < 2 ^ 32 -> 2 <= rows maze < 2 ^ 32 ->
  isWalkable maze w.1 w.2 = true ->
  exists k, placeKeyCells maze = Ok k /\
    isWalkable maze (startCell k).1 (startCell k).2 = true /\
    isWalkable maze (candyCell k).1 (candyCell k).2 = true /\
    isWalkable maze (exitCell k).1 (exitCell k).2 = true /\
    reachable maze (candyCell k) (exitCell k) /\
    forall c, isWalkable maze c.1 c.2 = true ->
      manhattan (1, rows maze - 2) (startCell k) <= manhattan (1, rows maze - 2) c.
Proof.
  intros [Hc Hc32] [Hr Hr32] Hw.
  assert (H53 : 2 ^ 32 < 2 ^ 53) by done.
  destruct (placeKeyCells_stages maze Hc Hr)
    as (start & exit0 & dStart & dExit & candy & dCandy & exit &
        Hstart & Hexit0 & HdS & HdE & Hcandy & HdC & Hexit & Hplace & HrS & HrE & HrC & Hex & Hey).
  exists {| startCell := start; exitCell := exit; candyCell := candy |}.
  split; [exact Hplace|]. cbn [startCell exitCell candyCell].
  assert (Hsw : isWalkable maze start.1 start.2 = true).
  { apply (nearestPassage_walkable maze 1 (rows maze - 2) start w); (done || lia). }
  assert (H0w : isWalkable maze exit0.1 exit0.2 = true).
  { apply (nearestPassage_walkable maze (cols maze - 2) (rows maze - 2) exit0 w); (done || lia). }
  assert (Hcw : isWalkable maze candy.1 candy.2 = true).
  { apply (chooseCandy_walkable maze dStart dExit candy w); (done || lia). }
  split; [done|]. split; [done|].
  assert (Hcorner : forall c, isWalkable maze c.1 c.2 = true ->
            manhattan (1, rows maze - 2) start <= manhattan (1, rows maze - 2) c).
  { destruct (nearestPassage_nearest maze 1 (rows maze - 2)) as (c' & Hrun' & Hsome & _);
      [lia..|].
    rewrite Hstart in Hrun'. inversion Hrun'; subst c'. apply Hsome. by exists w. }
  destruct (isWalkable_range _ _ _ Hcw) as [Hcx Hcy].
  destruct (bfsDistances_spec maze candy Hcx Hcy) as (dC & HdC' & Hinv).
  rewrite HdC in HdC'. inversion HdC'; subst dC. clear HdC'.
  assert (Hpath : forall c, 0 <= distOf dCandy c -> reachable maze candy c).
  { intros c H0. exists (Z.to_nat (distOf dCandy c)). by apply (bfs_path _ _ _ _ Hinv). }
  destruct (relocateExit_spec maze dCandy exit0 HrC (bfs_low _ _ _ _ Hinv)
              ltac:(lia) ltac:(lia) Hex Hey) as (e & d & He & Hd & Hfar & Hnear).
  rewrite Hexit in He. inversion He; subst e. clear He.
  destruct (decide (60 <= d)) as [H60|H60].
  - rewrite (Hfar H60). split; [done|]. split; [|done]. apply Hpath.
    rewrite (distOf_Some _ _ _ Hd). lia.
  - destruct (Hnear ltac:(lia)) as [[_ Hneg]|(Hew & He0)].
    + specialize (Hneg candy Hcw). rewrite (bfs_source _ _ _ _ Hinv) in Hneg. lia.
    + split; [done|]. split; [|done]. by apply Hpath.
Qed.

(** Property X9. On every maze that has a passage, of at least two
    rows and columns and of fewer than [2^32], the most an array of
    JavaScript holds, [placeKeyCells] returns a start, a candy and an exit
    cell that are passages; the exit cell can be reached from the candy cell
    over orthogonally adjacent passages; and the start cell is a passage as
    close to the cell (1, rows - 2) of the bottom left corner as any. The
    exit is the one the relocation scan finds with its scores computed and
    compared in doubles. *)
Theorem key_cells_are_passages (maze : Grid) (w : Cell) :
  2 <= cols maze < 2 ^ 32 -> 2 <= rows maze < 2 ^ 32 ->
  isWalkable maze w.1 w.2 = true ->
  exists k, placeKeyCells maze = Ok k /\
    isWalkable maze (startCell k).1 (startCell k).2 = true /\
    isWalkable maze (candyCell k).1 (candyCell k).2 = true /\
    isWalkable maze (exitCell k).1 (exitCell k).2 = true /\
    reachable maze (candyCell k) (exitCell k) /\
    forall c, isWalkable maze c.1 c.2 = true ->
      manhattan (1, rows maze - 2) (startCell k) <= manhattan (1, rows maze - 2) c.
Proof. apply placeKeyCells_walkable. Qed.

Lemma key_cells_are_passages_witness :
  exists k, placeKeyCells maze5 = Ok k /\ reachable maze5 (candyCell k) (exitCell k).
Proof.
  destruct (key_cells_are_passages maze5 (1, 1)) as (k & Hk & _ & _ & _ & Hr & _);
    [by vm_compute|by vm_compute|reflexivity|].
  exists k. split; [exact Hk|exact Hr].
Defined.

(* ------------------------------------------------------------------ *)
(** ** Key cells of a generated maze *)

(** [ensureOdd] stays below the even bound [2^32]. *)
Lemma ensureOdd_below (n : Z) : n < 2 ^ 32 -> ensureOdd n < 2 ^ 32.
Proof.
  intros Hn. unfold ensureOdd. case_decide as He; [|done].
  pose proof (Z.quot_rem' n 2) as Hq. change (2 ^ 32) with (2 * 2 ^ 31) in *. lia.
Qed.

(** The generator followed by the placement: both return, the rooms in the
    two bottom corners are still passages, and the key cells are passages. *)
Lemma generated_keys (rnd : nat -> Q) (w h : Z) :
  unitRange rnd -> 2 <= w < 2 ^ 32 -> 2 <= h < 2 ^ 32 ->
  exists g k,
    generatePerfectMaze rnd w h = Ok g /\ placeKeyCells g = Ok k /\
    startCell k = (1, rows g - 2) /\
    nearestPassage g (cols g - 2) (rows g - 2) = Ok (cols g - 2, rows g - 2) /\
    isWalkable g (startCell k).1 (startCell k).2 = true /\
    isWalkable g (candyCell k).1 (candyCell k).2 = true /\
    isWalkable g (exitCell k).1 (exitCell k).2 = true /\
    reachable g (candyCell k) (exitCell k).
Proof.
  intros Hrnd [Hw Hw32] [Hh Hh32].
  pose proof (ensureOdd_ge3 w Hw) as Hw3. pose proof (ensureOdd_ge3 h Hh) as Hh3.
  pose proof (ensureOdd_below w Hw32) as Hwb. pose proof (ensureOdd_below h Hh32) as Hhb.
  destruct (generate_thinned rnd w h Hrnd Hw Hh) as (g1 & k1 & g & Hcarve & Hgen & Hinv & Hthin).
  pose proof (thin_rect _ _ _ _ Hthin) as Hrect.
  pose proof (rect_rows _ _ _ Hrect) as Hrows.
  pose proof (rect_cols _ _ _ Hrect ltac:(lia)) as Hcols.
  destruct (ensureOdd_spec w) as [_ Hwo]. destruct (ensureOdd_spec h) as [_ Hho].
  assert (Hcorner : forall x y, (x = 1 \/ x = ensureOdd w - 2) ->
            (y = 1 \/ y = ensureOdd h - 2) -> isWalkable g x y = true).
  { intros x y Hx Hy. apply (isWalkable_rect _ _ _ _ _ Hrect).
    assert (Hroom : room (ensureOdd w) (ensureOdd h) (x, y)).
    { unfold room. simpl. destruct Hx as [->| ->], Hy as [->| ->];
        rewrite ?Z.odd_sub, ?Hwo, ?Hho; repeat split; (done || lia). }
    pose proof (carveInv_all_rooms _ _ _ Hinv _ Hroom) as Hp0. simpl in Hp0.
    destruct (decide (cellAt g x y = Some 0)) as [|Hn]; [done|].
    destruct (thin_junction _ _ _ _ Hthin x y Hp0 Hn) as [_ H3].
    pose proof (corner_has_two_open _ _ g1 x y Hinv Hx Hy). lia. }
  destruct (placeKeyCells_walkable g (1, 1)) as (k & Hk & Hs & Hc & He & Hreach & _);
    [lia|lia|apply Hcorner; by left|].
  exists g, k. split; [exact Hgen|]. split; [exact Hk|].
  assert (H1 : nearestPassage g 1 (rows g - 2) = Ok (1, rows g - 2)).
  { apply nearestPassage_hit. rewrite Hrows. apply Hcorner; [by left|by right]. }
  assert (H2 : nearestPassage g (cols g - 2) (rows g - 2) = Ok (cols g - 2, rows g - 2)).
  { apply nearestPassage_hit. rewrite Hrows, Hcols. apply Hcorner; by right. }
  split.
  { unfold placeKeyCells in Hk. rewrite H1 in Hk. cbn [mbind res_bind] in Hk.
    destruct (nearestPassage g (cols g - 2) (rows g - 2)) as [e0|]; [|done].
    cbn [mbind res_bind] in Hk.
    destruct (bfsDistances g (1, rows g - 2)) as [dS|]; [|done]. cbn [mbind res_bind] in Hk.
    destruct (bfsDistances g e0) as [dE|]; [|done]. cbn [mbind res_bind] in Hk.
    destruct (chooseCandy g dS dE (getAllPassages g)) as [cd|]; [|done].
    cbn [mbind res_bind] in Hk.
    destruct (bfsDistances g cd) as [dC|]; [|done]. cbn [mbind res_bind] in Hk.
    destruct (relocateExit g dC (getAllPassages g) e0) as [e|]; [|done].
    cbn [mbind res_bind] in Hk. by inversion Hk. }
  split; [exact H2|]. done.
Qed.

(** Property X10. For every stream of draws in [[0, 1)] and requested
    width and height of at least 2 and below [2^32], the most an array of
    JavaScript holds, [generatePerfectMaze] and then [placeKeyCells] on its
    grid, its scores in doubles, both return. The start cell is the room in
    the bottom left corner, (1, rows - 2), and the exit is first placed on
    the room in the bottom right corner, (cols - 2, rows - 2): the soft
    re-walling never walls a corner room. The start, the candy and the final
    exit are passages, and the exit can be reached from the candy. *)
Theorem new_game_is_well_formed (rnd : nat -> Q) (w h : Z) :
  unitRange rnd -> 2 <= w < 2 ^ 32 -> 2 <= h < 2 ^ 32 ->
  exists g k,
    generatePerfectMaze rnd w h = Ok g /\ placeKeyCells g = Ok k /\
    startCell k = (1, rows g - 2) /\
    nearestPassage g (cols g - 2) (rows g - 2) = Ok (cols g - 2, rows g - 2) /\
    isWalkable g (startCell k).1 (startCell k).2 = true /\
    isWalkable g (candyCell k).1 (candyCell k).2 = true /\
    isWalkable g (exitCell k).1 (exitCell k).2 = true /\
    reachable g (candyCell k) (exitCell k).
Proof. apply generated_keys. Qed.

Lemma new_game_is_well_formed_witness :
  exists g k, generatePerfectMaze zeroStream 5 5 = Ok g /\ placeKeyCells g = Ok k /\
    startCell k = (1, rows g - 2).
Proof.
  destruct (new_game_is_well_formed zeroStream 5 5 zeroStream_unitRange)
    as (g & k & Hg & Hk & Hs & _); [done|done|].
  exists g, k. split; [exact Hg|]. split; [exact Hk|exact Hs].
Defined.
(* ================================================================== *)
(** * Decoration: [placeMonsters] *)

Section MonsterProofs.
Variable rnd : nat -> Q.
Variable k : KeyCells.

(** One iteration of the loop. *)
Lemma monsterLoop_S (fuel : nat) (ps : list Cell) (i : Z) (n : nat) (ms : list Monster) :
  monsterLoop rnd (S fuel) ps k i n ms =
    if decide (i < 6) then
      match pick rnd ps n with
      | None => Err TypeError
      | Some c =>
          if isKeyCell k c then monsterLoop rnd fuel ps k i (S n) ms
          else
            monsterLoop rnd fuel ps k (i + 1) (S n)
              (ms ++ [{| monsterX := c.1; monsterY := c.2;
                         emoji := jsIndex monsterBase (Z.rem i 5) |}])
      end
    else Ok (ms, n).
Proof. reflexivity. Qed.

(** The loop keeps [monstersOk] and returns only with six monsters; each
    iteration makes one draw. *)
Lemma monsterLoop_ok (ps : list Cell) (fuel : nat) :
  forall (i : Z) (n : nat) (ms ms' : list Monster) (n' : nat),
  0 <= i <= 6 -> monstersOk k ps i ms ->
  monsterLoop rnd fuel ps k i n ms = Ok (ms', n') ->
  monstersOk k ps 6 ms' /\ (n + Z.to_nat (6 - i) <= n')%nat /\ (n' < n + fuel)%nat.
Proof.
  induction fuel as [|fuel IH]; intros i n ms ms' n' Hi Hok Hrun; [done|].
  rewrite monsterLoop_S in Hrun. destruct (decide (i < 6)) as [Hlt|Hge]; cycle 1.
  { inversion Hrun; subst. assert (i = 6) as -> by lia. split; [done|]. simpl. lia. }
  destruct (pick rnd ps n) as [c|] eqn:Hc; [|done].
  destruct (isKeyCell k c) eqn:Hkey.
  - destruct (IH i (S n) ms ms' n' Hi Hok Hrun) as (? & ? & ?). split; [done|]. lia.
  - assert (Hok' : monstersOk k ps (i + 1)
              (ms ++ [{| monsterX := c.1; monsterY := c.2;
                         emoji := jsIndex monsterBase (Z.rem i 5) |}])); cycle 1.
    { destruct (IH (i + 1) (S n) _ ms' n' ltac:(lia) Hok' Hrun) as (? & ? & ?).
      split; [done|lia]. }
    destruct Hok as (Hlen & Hcells & Hemoji). split; [|split].
    + rewrite length_app. simpl. lia.
    + intros m [Hm|Hm]%elem_of_app; [by apply Hcells|].
      apply list_elem_of_singleton in Hm as ->. simpl.
      replace (c.1, c.2) with c by (by destruct c). split; [|done].
      apply jsIndex_Some in Hc as [_ Hc]. by apply list_elem_of_lookup_2 in Hc.
    + intros j m Hj. destruct (decide (j < length ms)%nat) as [Hjl|Hjl].
      * rewrite lookup_app_l in Hj by done. by apply Hemoji.
      * rewrite lookup_app_r in Hj by lia.
        destruct (j - length ms)%nat as [|?] eqn:E; [|done].
        simpl in Hj. inversion Hj; subst m. simpl.
        assert (j = Z.to_nat i) as -> by lia.
        unfold jsIndex. rewrite decide_True by (apply Z.rem_nonneg; lia).
        f_equal. rewrite Z.rem_mod_nonneg by lia.
        rewrite <- (Z2Nat.id i) at 1 by lia.
        change 5 with (Z.of_nat 5). rewrite <- Nat2Z.inj_mod. by rewrite Nat2Z.id.
Qed.

(** A draw in [[0, 1)] picks a passage whenever there is one. *)
Lemma pick_Some (ps : list Cell) (n : nat) :
  (0 <= rnd n)%Q -> (rnd n < 1)%Q -> ps <> [] -> is_Some (pick rnd ps n).
Proof.
  intros H0 H1 Hne. unfold pick.
  pose proof (floor_scaled (rnd n) (Z.of_nat (length ps)) H0 H1) as Hf.
  destruct Hf as [Hf0 Hf1]; [destruct ps; [done|simpl; lia]|].
  unfold jsIndex. rewrite decide_True by done.
  apply lookup_lt_is_Some. lia.
Qed.

(** Without a passage the first draw already reads [undefined]. *)
Lemma monsterLoop_empty (fuel : nat) (i : Z) (n : nat) (ms : list Monster) :
  i < 6 -> monsterLoop rnd (S fuel) [] k i n ms = Err TypeError.
Proof.
  intros Hi. rewrite monsterLoop_S, decide_True by done.
  unfold pick. rewrite jsIndex_None; [done|]. simpl. lia.
Qed.

(** When every passage is a key cell the loop never gets past [i]. *)
Lemma monsterLoop_stuck (ps : list Cell) (fuel : nat) :
  forall (i : Z) (n : nat) (ms : list Monster),
  unitRange rnd -> ps <> [] -> (forall c, c ∈ ps -> isKeyCell k c = true) ->
  i < 6 -> monsterLoop rnd fuel ps k i n ms = Err OutOfFuel.
Proof.
  induction fuel as [|fuel IH]; intros i n ms Hrnd Hne Hall Hi; [done|].
  rewrite monsterLoop_S, decide_True by done.
  destruct (Hrnd n) as [H0 H1]. destruct (pick_Some ps n H0 H1 Hne) as [c Hc].
  rewrite Hc. rewrite Hall; [by apply IH|].
  apply jsIndex_Some in Hc as [_ Hc]. by apply list_elem_of_lookup_2 in Hc.
Qed.

(** The loop returns once the draws still missing have picked free cells. *)
Lemma monsterLoop_returns (ps : list Cell) (m : nat) :
  forall (i : Z) (n : nat) (ms : list Monster),
  unitRange rnd -> ps <> [] -> 0 <= i <= 6 ->
  (Z.to_nat (6 - i) + freePicks rnd ps k n <= freePicks rnd ps k (n + m))%nat ->
  exists ms' n', monsterLoop rnd (S m) ps k i n ms = Ok (ms', n') /\ (n' <= n + m)%nat.
Proof.
  induction m as [|m IH]; intros i n ms Hrnd Hne Hi Hfree.
  - rewrite Nat.add_0_r in Hfree. assert (i = 6) as -> by lia.
    exists ms, n. split; [done|lia].
  - rewrite monsterLoop_S.
    destruct (decide (i < 6)) as [Hlt|Hge]; [|exists ms, n; split; [done|lia]].
    destruct (Hrnd n) as [H0 H1]. destruct (pick_Some ps n H0 H1 Hne) as [c Hc].
    replace (n + S m)%nat with (S n + m)%nat in Hfree by lia.
    assert (Hstep : freePicks rnd ps k (S n) =
              (freePicks rnd ps k n + if isKeyCell k c then 0 else 1)%nat).
    { simpl. by rewrite Hc. }
    rewrite Hc. destruct (isKeyCell k c).
    + destruct (IH i (S n) ms Hrnd Hne Hi) as (ms' & n' & Hrun & Hn'); [lia|].
      exists ms', n'. split; [exact Hrun|lia].
    + destruct (IH (i + 1) (S n) (ms ++ [{| monsterX := c.1; monsterY := c.2;
                  emoji := jsIndex monsterBase (Z.rem i 5) |}]) Hrnd Hne ltac:(lia))
        as (ms' & n' & Hrun & Hn'); [lia|].
      exists ms', n'. split; [exact Hrun|lia].
Qed.

End MonsterProofs.

(** The loop starts without monsters. *)
Lemma monstersOk_nil (k : KeyCells) (ps : list Cell) : monstersOk k ps 0 [].
Proof. split; [done|]. split; [by intros ? ?%elem_of_nil|]. intros j m Hj. done. Qed.

(** A maze with a passage has a list of passages that is not empty. *)
Lemma passages_nonempty (maze : Grid) (c : Cell) :
  isWalkable maze c.1 c.2 = true -> getAllPassages maze <> [].
Proof.
  intros Hc%elem_of_getAllPassages Hnil. rewrite Hnil in Hc. by apply elem_of_nil in Hc.
Qed.

(** Property X11. Whenever [placeMonsters] returns it has placed
    exactly six monsters, each on a passage cell that is neither the start,
    the exit nor the candy cell, with the emojis of [base] in order and the
    first of them again for the sixth; it has made at least six draws. *)
Theorem monsters_stand_on_free_passages (rnd : nat -> Q) (fuel : nat) (maze : Grid)
    (k : KeyCells) (ms : list Monster) (n : nat) :
  placeMonsters rnd fuel maze k = Ok (ms, n) ->
  length ms = 6%nat /\
  (forall m, m ∈ ms ->
     isWalkable maze (monsterX m) (monsterY m) = true /\
     (monsterX m, monsterY m) <> startCell k /\
     (monsterX m, monsterY m) <> exitCell k /\
     (monsterX m, monsterY m) <> candyCell k) /\
  emoji <$> ms = [Some Ghost; Some Imp; Some Spider; Some Zombie; Some Bat; Some Ghost] /\
  (6 <= n < fuel)%nat.
Proof.
  intros Hrun. unfold placeMonsters in Hrun.
  destruct (monsterLoop_ok rnd k _ fuel 0 0%nat [] ms n ltac:(lia) (monstersOk_nil k _) Hrun)
    as ((Hlen & Hcells & Hemoji) & Hn & Hf).
  split; [lia|]. split; [|split; [|simpl in *; lia]].
  - intros m Hm. destruct (Hcells m Hm) as [Hw%elem_of_getAllPassages Hkey]. split; [done|].
    unfold isKeyCell in Hkey. apply orb_false_iff in Hkey as [Hkey H3].
    apply orb_false_iff in Hkey as [H1 H2].
    apply bool_decide_eq_false in H1, H2, H3. done.
  - do 7 (destruct ms as [|? ms]; [simpl in Hlen; try lia|]); [|simpl in Hlen; lia].
    cbn [fmap list_fmap].
    rewrite (Hemoji 0%nat _ eq_refl), (Hemoji 1%nat _ eq_refl), (Hemoji 2%nat _ eq_refl),
      (Hemoji 3%nat _ eq_refl), (Hemoji 4%nat _ eq_refl), (Hemoji 5%nat _ eq_refl).
    done.
Qed.

Lemma sweepStream_unitRange : unitRange sweepStream.
Proof.
  intros i. pose proof (Z.mod_pos_bound (Z.of_nat i) 7 ltac:(lia)).
  unfold sweepStream, Qle, Qlt. simpl. lia.
Qed.

Lemma monsters_stand_on_free_passages_witness :
  exists ms n, placeMonsters sweepStream 20 maze5 keys5 = Ok (ms, n) /\
    length ms = 6%nat /\ (6 <= n < 20)%nat.
Proof.
  destruct (placeMonsters sweepStream 20 maze5 keys5) as [[ms n]|e] eqn:Hrun;
    [|vm_compute in Hrun; discriminate].
  exists ms, n. split; [reflexivity|].
  destruct (monsters_stand_on_free_passages sweepStream 20 maze5 keys5 ms n Hrun)
    as (Hlen & _ & _ & Hn).
  split; [exact Hlen|exact Hn].
Defined.

(** Property X12. [placeMonsters] needs a passage that is no key
    cell. On a maze without any passage the first pick reads [undefined] and
    the call throws a [TypeError]. On a maze whose passages are all key
    cells, with draws in [[0, 1)], every pick is skipped and the loop never
    ends: it outlasts every iteration budget. *)
Theorem monsters_need_a_free_passage (rnd : nat -> Q) (maze : Grid) (k : KeyCells) :
  ((forall c, isWalkable maze c.1 c.2 = false) ->
   forall fuel, placeMonsters rnd (S fuel) maze k = Err TypeError) /\
  (unitRange rnd -> (exists c, isWalkable maze c.1 c.2 = true) ->
   (forall c, isWalkable maze c.1 c.2 = true -> isKeyCell k c = true) ->
   forall fuel, placeMonsters rnd fuel maze k = Err OutOfFuel).
Proof.
  split.
  - intros Hno fuel. unfold placeMonsters.
    assert (getAllPassages maze = []) as ->.
    { destruct (getAllPassages maze) as [|c l] eqn:E; [done|].
      assert (Hc : c ∈ getAllPassages maze) by (rewrite E; by left).
      apply elem_of_getAllPassages in Hc. by rewrite Hno in Hc. }
    by apply monsterLoop_empty.
  - intros Hrnd [c Hc] Hall fuel. unfold placeMonsters.
    apply monsterLoop_stuck; [done|by apply (passages_nonempty maze c)| |lia].
    intros c' Hc'%elem_of_getAllPassages. by apply Hall.
Qed.

Lemma monsters_need_a_free_passage_witness :
  placeMonsters zeroStream 100 [[1; 1; 1]; [1; 0; 1]; [1; 1; 1]]
    {| startCell := (1, 1); exitCell := (1, 1); candyCell := (1, 1) |} = Err OutOfFuel.
Proof.
  apply (proj2 (monsters_need_a_free_passage zeroStream [[1; 1; 1]; [1; 0; 1]; [1; 1; 1]]
           {| startCell := (1, 1); exitCell := (1, 1); candyCell := (1, 1) |}));
    [apply zeroStream_unitRange|by exists (1, 1)|].
  intros [x y] Hw. apply isWalkable_range in Hw as Hr. unfold cols, rows in Hr.
  simpl in Hr.
  assert ((x = 0 \/ x = 1 \/ x = 2) /\ (y = 0 \/ y = 1 \/ y = 2)) as [Hx Hy] by lia.
  destruct Hx as [->|[->| ->]], Hy as [->|[->| ->]]; done.
Defined.

(** Property X13. With draws in [[0, 1)] on a maze that has a passage,
    [placeMonsters] returns as soon as six draws have picked passages that
    are no key cells: if six of the first [m] draws do, the call returns six
    monsters after at most [m] draws. *)
Theorem monsters_placed_after_six_free_picks (rnd : nat -> Q) (maze : Grid)
    (k : KeyCells) (m : nat) :
  unitRange rnd -> (exists c, isWalkable maze c.1 c.2 = true) ->
  (6 <= freePicks rnd (getAllPassages maze) k m)%nat ->
  exists ms n, placeMonsters rnd (S m) maze k = Ok (ms, n) /\ (6 <= n <= m)%nat /\
    length ms = 6%nat.
Proof.
  intros Hrnd [c Hc] Hfree. unfold placeMonsters.
  destruct (monsterLoop_returns rnd k (getAllPassages maze) m 0 0%nat [] Hrnd)
    as (ms & n & Hrun & Hn); [by apply (passages_nonempty maze c)|lia|simpl; lia|].
  exists ms, n. split; [exact Hrun|].
  destruct (monsterLoop_ok rnd k _ (S m) 0 0%nat [] ms n ltac:(lia) (monstersOk_nil k _) Hrun)
    as ((Hlen & _) & Hn6 & _).
  simpl in Hn6. split; lia.
Qed.

Lemma monsters_placed_after_six_free_picks_witness :
  exists ms n, placeMonsters sweepStream 10 maze5 keys5 = Ok (ms, n) /\ (6 <= n <= 9)%nat.
Proof.
  destruct (monsters_placed_after_six_free_picks sweepStream maze5 keys5 9)
    as (ms & n & Hrun & Hn & _);
    [apply sweepStream_unitRange|by exists (1, 1)|by vm_compute|].
  exists ms, n. split; [exact Hrun|exact Hn].
Defined.


(* ================================================================== *)
(** * Movement and progress: [tryMove], [animate], [finishMaze] *)

Lemma tryMove_progress (dir : string) (now : Q) (s : Game) :
  sameProgress s (tryMove dir now s).
Proof.
  unfold sameProgress, tryMove. destruct (gameFinished s) eqn:Hf; [by rewrite Hf|].
  destruct (moving (player s)); [done|].
  destruct (dirToDelta dir) as [d|]; [|by rewrite Hf].
  destruct (isWalkable _ _ _); simpl; by rewrite ?Hf.
Qed.

Lemma tryMove_finished (dir : string) (now : Q) (s : Game) :
  gameFinished s = true -> tryMove dir now s = s.
Proof. unfold tryMove. by intros ->. Qed.

(** While a move is in flight [tryMove] only fills the pending slot. *)
Lemma tryMove_moving (dir : string) (now : Q) (s : Game) :
  gameFinished s = false -> moving (player s) = true ->
  tryMove dir now s = withQueue (Some dir) s.
Proof. intros Hf Hm. unfold tryMove, withQueue. by rewrite Hf, Hm. Qed.

Lemma drainQueue_progress (now : Q) (s : Game) : sameProgress s (drainQueue now s).
Proof.
  unfold drainQueue. destruct (truthy (queuedDir s)) as [next|]; [|done].
  apply (tryMove_progress next now (withQueue None s)).
Qed.

(** The frame that ends the animation. *)
Lemma animate_late (a : Animation) (t now : Q) (s : Game) :
  ~ early a t ->
  animate a t now s =
    if bool_decide (playerCell s = exitCell (keys s)) then
      if negb (hasCandy (player (land a s)))
      then drainQueue now (say FindCandyFirst (land a s))
      else finishMaze (say FinishMaze (land a s))
    else drainQueue now (land a s).
Proof.
  intros Hlate. unfold animate, early in *. by destruct (Qlt_le_dec _ 1).
Qed.

(** A frame before the end of the animation only moves the sprite. *)
Lemma animate_early (a : Animation) (t now : Q) (s : Game) :
  early a t ->
  pending (animate a t now s) = Some a /\ sameProgress s (animate a t now s) /\
  playerCell (animate a t now s) = playerCell s /\
  queuedDir (animate a t now s) = queuedDir s /\
  moving (player (animate a t now s)) = moving (player s).
Proof.
  intros Hearly. unfold animate, early in *.
  destruct (Qlt_le_dec _ 1) as [_|Hle]; [done|]. by apply Qle_not_lt in Hle.
Qed.

Lemma early_or_late (a : Animation) (t : Q) : early a t \/ ~ early a t.
Proof.
  unfold early. destruct (Qlt_le_dec (Qmin 1 ((t - startT a) / MOVE_MS)) 1) as [Hlt|Hle].
  - by left.
  - right. by apply Qle_not_lt.
Qed.










(* ================================================================== *)
(** * More on movement and progress *)

(* ------------------------------------------------------------------ *)
(** ** What every session keeps *)

(** A direction that has a name is one orthogonal step. *)
Lemma dirToDelta_unit (dir : string) (d : Dir) :
  dirToDelta dir = Some d -> Z.abs d.1 + Z.abs d.2 = 1.
Proof.
  unfold dirToDelta. repeat case_decide; intros [= <-]; done.
Qed.

(** A new session satisfies the invariant, and every handler keeps it. *)
Lemma walkInv_start (m : Grid) (k : KeyCells) : walkInv m k (newSession m k).
Proof.
  constructor; try done.
  intros Hw. split; [|exact Hw].
  exists 0%nat. unfold playerCell. simpl. destruct (startCell k). constructor.
Qed.

Lemma walkInv_withQueue (m : Grid) (k : KeyCells) (q : option string) (s : Game) :
  walkInv m k s -> walkInv m k (withQueue q s).
Proof. intros []. by constructor. Qed.

Lemma walkInv_tryMove (m : Grid) (k : KeyCells) (dir : string) (now : Q) (s : Game) :
  walkInv m k s -> walkInv m k (tryMove dir now s).
Proof.
  intros H.
  destruct (gameFinished s) eqn:Hfin; [by rewrite tryMove_finished|].
  destruct (moving (player s)) eqn:Hmv.
  { rewrite tryMove_moving by done. by apply walkInv_withQueue. }
  unfold tryMove. rewrite Hfin, Hmv.
  destruct (dirToDelta dir) as [d|] eqn:Hd; [|exact H].
  destruct (isWalkable (maze s) (cellX (player s) + d.1) (cellY (player s) + d.2)) eqn:Hw;
    [|exact H].
  destruct H as [Hm Hk Hp Hfl Hrest Hc Hf].
  cbn [negb]. pose proof (dirToDelta_unit dir d Hd) as Hu. rewrite Hm in Hw.
  assert (Hadj : adjacent (cellX (player s), cellY (player s))
                          (cellX (player s) + d.1, cellY (player s) + d.2)).
  { unfold adjacent. simpl. lia. }
  constructor; try done.
  - intros Hs. split; [|exact Hw].
    destruct (Hp Hs) as [[n Hn] _]. exists (S n).
    eapply path_step; [exact Hn|exact Hadj|exact Hw].
  - cbn [pending player moving gameFinished]. intros a [= <-]. unfold playerCell. simpl.
    done.
  - unfold issued in *. cbn [notices gameFinished]. by rewrite Hf, Hfin.
Qed.

Lemma walkInv_drainQueue (m : Grid) (k : KeyCells) (now : Q) (s : Game) :
  walkInv m k s -> walkInv m k (drainQueue now s).
Proof.
  intros H. unfold drainQueue. destruct (truthy (queuedDir s)); [|done].
  apply walkInv_tryMove. by apply (walkInv_withQueue m k None).
Qed.

(** Landing keeps the invariant. *)
Lemma walkInv_land (m : Grid) (k : KeyCells) (a : Animation) (s : Game) :
  walkInv m k s -> pending s = Some a -> walkInv m k (land a s).
Proof.
  intros H Hpend. destruct H as [Hm Hk Hp Hfl Hrest Hc Hf].
  destruct (Hfl a Hpend) as (Hmv & Hfin & Htgt & Hadj).
  constructor; try done.
  - cbn [pending land]. intros _. cbn [player land moving px py cellX cellY].
    unfold playerCell in Htgt. by inversion Htgt.
  - unfold issued in *. cbn [notices land player hasCandy].
    destruct (hasCandy (player s)) eqn:Hcandy; cbn [negb andb orb]; [done|].
    destruct (bool_decide _); cbn [orb]; [|done].
    rewrite filter_cons_True by done. simpl in *. by rewrite Hc.
  - unfold issued in *. cbn [notices land gameFinished].
    destruct (negb _ && _); [|done].
    rewrite filter_cons_False by done. done.
Qed.

Lemma walkInv_step (m : Grid) (k : KeyCells) (s : Game) (e : Event) :
  walkInv m k s -> walkInv m k (step s e).
Proof.
  intros H. destruct e as [dir now|t now]; [by apply walkInv_tryMove|].
  cbn [step]. destruct (pending s) as [a|] eqn:Hpend; [|done].
  destruct (early_or_late a t) as [He|Hl].
  - destruct H as [Hm Hk Hp Hfl Hrest Hc Hf].
    unfold animate. unfold early in He.
    destruct (Qlt_le_dec _ 1) as [_|Hle]; [|by apply Qle_not_lt in Hle].
    constructor; try done.
    cbn [pending]. intros a' [= <-]. by apply Hfl.
  - rewrite (animate_late a t now s Hl).
    destruct H as [Hm Hk Hp Hfl Hrest Hc Hf].
    destruct (Hfl a Hpend) as (Hmv & Hfin & Htgt & Hadj).
    pose proof (walkInv_land m k a s (Build_walkInv _ _ _ Hm Hk Hp Hfl Hrest Hc Hf) Hpend)
      as Hland.
    assert (Hsay : walkInv m k (say FindCandyFirst (land a s))).
    { destruct Hland as [Hm' Hk' Hp' Hfl' Hrest' Hc' Hf'].
      by constructor. }
    destruct (bool_decide (playerCell s = exitCell (keys s))).
    + destruct (hasCandy (player (land a s))) eqn:Hcl; cbn [negb].
      * unfold finishMaze. cbn [gameFinished say land]. rewrite Hfin.
        destruct Hland as [Hm' Hk' Hp' Hfl' Hrest' Hc' Hf'].
        constructor; try done.
        unfold issued in *. cbn [notices say gameFinished].
        rewrite filter_cons_True by done. cbn [length]. rewrite Hf'.
        cbn [gameFinished land]. by rewrite Hfin.
      * by apply walkInv_drainQueue.
    + by apply walkInv_drainQueue.
Qed.

Lemma walkInv_run (m : Grid) (k : KeyCells) (evs : list Event) : forall s,
  walkInv m k s -> walkInv m k (run s evs).
Proof.
  induction evs as [|e evs IH]; intros s H; [done|].
  apply IH. by apply walkInv_step.
Qed.

(** A request or a frame moves the player by one orthogonal step at most. *)
Lemma tryMove_one_cell (dir : string) (now : Q) (s : Game) :
  playerCell (tryMove dir now s) = playerCell s \/
  adjacent (playerCell s) (playerCell (tryMove dir now s)).
Proof.
  unfold tryMove. destruct (gameFinished s); [by left|].
  destruct (moving (player s)); [by left|].
  destruct (dirToDelta dir) as [d|] eqn:Hd; [|by left].
  destruct (isWalkable _ _ _); [|by left].
  right. pose proof (dirToDelta_unit dir d Hd). unfold adjacent, playerCell. simpl. lia.
Qed.

Lemma step_one_cell (s : Game) (e : Event) :
  playerCell (step s e) = playerCell s \/ adjacent (playerCell s) (playerCell (step s e)).
Proof.
  destruct e as [dir now|t now]; [apply tryMove_one_cell|].
  cbn [step]. destruct (pending s) as [a|]; [|by left].
  destruct (early_or_late a t) as [He|Hl].
  { left. by destruct (animate_early a t now s He) as (_ & _ & -> & _). }
  rewrite (animate_late a t now s Hl).
  assert (Hdrain : forall x, playerCell x = playerCell s ->
            playerCell (drainQueue now x) = playerCell s \/
            adjacent (playerCell s) (playerCell (drainQueue now x))).
  { intros x Hx. unfold drainQueue. destruct (truthy (queuedDir x)) as [next|]; [|by left].
    rewrite <- Hx. apply (tryMove_one_cell next now (withQueue None x)). }
  destruct (bool_decide _); [destruct (negb _)|].
  - by apply Hdrain.
  - left. unfold finishMaze. by destruct (gameFinished _).
  - by apply Hdrain.
Qed.

(** Property X15. In a session that begins on a passage the player
    never leaves the passages: after any requests and frames the maze and
    the key cells are the ones the session began with, the player's cell is
    a passage that a path over passages joins to the start cell, and one
    more request or frame moves the player by one orthogonal step at most. *)
Theorem player_stays_on_passages (m : Grid) (k : KeyCells) (evs : list Event) :
  isWalkable m (startCell k).1 (startCell k).2 = true ->
  maze (run (newSession m k) evs) = m /\
  keys (run (newSession m k) evs) = k /\
  isWalkable m (cellX (player (run (newSession m k) evs)))
               (cellY (player (run (newSession m k) evs))) = true /\
  reachable m (startCell k) (playerCell (run (newSession m k) evs)) /\
  forall e, playerCell (step (run (newSession m k) evs) e) = playerCell (run (newSession m k) evs)
         \/ adjacent (playerCell (run (newSession m k) evs))
                     (playerCell (step (run (newSession m k) evs) e)).
Proof.
  intros Hs.
  destruct (walkInv_run m k evs _ (walkInv_start m k)) as [Hm Hk Hp _ _ _ _].
  destruct (Hp Hs) as [Hr Hw].
  split; [done|]. split; [done|]. split; [done|]. split; [done|].
  intros e. apply step_one_cell.
Qed.

Lemma player_stays_on_passages_witness :
  isWalkable maze5 (cellX (player (run (newSession maze5 keys5) walkToExit)))
                   (cellY (player (run (newSession maze5 keys5) walkToExit))) = true /\
  reachable maze5 (1, 3) (playerCell (run (newSession maze5 keys5) walkToExit)).
Proof.
  destruct (player_stays_on_passages maze5 keys5 walkToExit) as (_ & _ & Hw & Hr & _);
    [reflexivity|].
  split; [exact Hw|exact Hr].
Defined.

(** Property X16. In every session the player is moving exactly while
    an animation is pending, so at most one move is in flight. The pending
    animation leads to the player's cell from a cell next to it, and the
    game is not finished while it runs. At rest the sprite is drawn on the
    player's cell. *)
Theorem one_move_in_flight (m : Grid) (k : KeyCells) (evs : list Event) :
  (moving (player (run (newSession m k) evs)) = true <->
   is_Some (pending (run (newSession m k) evs))) /\
  (forall a, pending (run (newSession m k) evs) = Some a ->
     gameFinished (run (newSession m k) evs) = false /\
     (ex a, ey a) = playerCell (run (newSession m k) evs) /\
     adjacent (sx a, sy a) (ex a, ey a)) /\
  (moving (player (run (newSession m k) evs)) = false ->
     px (player (run (newSession m k) evs)) =
       inject_Z (cellX (player (run (newSession m k) evs))) /\
     py (player (run (newSession m k) evs)) =
       inject_Z (cellY (player (run (newSession m k) evs)))).
Proof.
  destruct (walkInv_run m k evs _ (walkInv_start m k)) as [_ _ _ Hfl Hrest _ _].
  set (s := run (newSession m k) evs) in *.
  split; [|split].
  - split.
    + intros Hmv. destruct (pending s) as [a|] eqn:Hp; [by eexists|].
      destruct (Hrest eq_refl) as [Hno _]. congruence.
    + intros [a Ha]. by destruct (Hfl a Ha).
  - intros a Ha. destruct (Hfl a Ha) as (_ & ? & ? & ?). done.
  - intros Hmv. destruct (pending s) as [a|] eqn:Hp.
    + destruct (Hfl a eq_refl) as [? _]. congruence.
    + by destruct (Hrest eq_refl) as [_ ?].
Qed.

(** Property X18. In every session the candy notice has been issued
    exactly once if the candy flag is set and never if it is not, however
    often the player crosses the candy cell; likewise [finishMaze] has been
    called exactly once if the game is finished and never otherwise. *)
Theorem notices_fire_once (m : Grid) (k : KeyCells) (evs : list Event) :
  issued CandyCollected (run (newSession m k) evs) =
    b2n (hasCandy (player (run (newSession m k) evs))) /\
  issued FinishMaze (run (newSession m k) evs) =
    b2n (gameFinished (run (newSession m k) evs)).
Proof.
  by destruct (walkInv_run m k evs _ (walkInv_start m k)) as [_ _ _ _ _ Hc Hf].
Qed.

(* ------------------------------------------------------------------ *)
(** ** Progress is never undone *)

(** One request or frame clears neither flag. *)
Lemma step_keeps_flags (s : Game) (e : Event) :
  (hasCandy (player s) = true -> hasCandy (player (step s e)) = true) /\
  (gameFinished s = true -> gameFinished (step s e) = true).
Proof.
  destruct e as [dir now|t now].
  { cbn [step]. by destruct (tryMove_progress dir now s) as (-> & -> & _). }
  cbn [step]. destruct (pending s) as [a|]; [|done].
  destruct (early_or_late a t) as [He|Hl].
  { by destruct (animate_early a t now s He) as (_ & (-> & -> & _) & _). }
  rewrite (animate_late a t now s Hl).
  assert (Hland : (hasCandy (player s) = true -> hasCandy (player (land a s)) = true) /\
                  gameFinished (land a s) = gameFinished s).
  { split; [|done]. cbn [land player hasCandy]. by intros ->. }
  destruct Hland as [Hc Hf].
  destruct (bool_decide _); [destruct (negb _) eqn:Hn|].
  - destruct (drainQueue_progress now (say FindCandyFirst (land a s))) as (-> & -> & _).
    done.
  - apply negb_false_iff in Hn. split.
    + intros _. unfold finishMaze. by destruct (gameFinished _).
    + intros _. unfold finishMaze. by destruct (gameFinished _) eqn:E.
  - destruct (drainQueue_progress now (land a s)) as (-> & -> & _). by rewrite Hf.
Qed.

(** Property X19. No request and no frame clears a flag: from any
    state, once the candy is collected it stays collected, and once the game
    is finished it stays finished, whatever requests and frames follow. *)
Theorem progress_is_kept (s : Game) (evs : list Event) :
  (hasCandy (player s) = true -> hasCandy (player (run s evs)) = true) /\
  (gameFinished s = true -> gameFinished (run s evs) = true).
Proof.
  revert s. induction evs as [|e evs IH]; intros s; [done|].
  cbn [run foldl]. destruct (step_keeps_flags s e) as [Hc Hf].
  destruct (IH (step s e)) as [Hc' Hf']. split; intros H.
  - apply Hc'. by apply Hc.
  - apply Hf'. by apply Hf.
Qed.

Lemma progress_is_kept_witness :
  hasCandy (player (run (step (run (newSession maze5 keys5) walkToExit) (Frame 720 720))
                        [Request "right" 800; Frame 920 920])) = true.
Proof.
  apply (proj1 (progress_is_kept
                  (step (run (newSession maze5 keys5) walkToExit) (Frame 720 720))
                  [Request "right" 800; Frame 920 920])).
  reflexivity.
Defined.

(** Property X20. Once a session is finished nothing changes it any
    more: every further request is refused and no frame is pending, so the
    game after any further events is the game at the finish. *)
Theorem finished_game_is_frozen (m : Grid) (k : KeyCells) (evs evs' : list Event) :
  gameFinished (run (newSession m k) evs) = true ->
  run (newSession m k) (evs ++ evs') = run (newSession m k) evs.
Proof.
  intros Hfin. unfold run. rewrite foldl_app. fold (run (newSession m k) evs).
  destruct (walkInv_run m k evs _ (walkInv_start m k)) as [_ _ _ Hfl _ _ _].
  set (s := run (newSession m k) evs) in *.
  assert (Hp : pending s = None).
  { destruct (pending s) as [a|] eqn:Hp; [|done].
    destruct (Hfl a eq_refl) as (_ & ? & _). congruence. }
  clearbody s. clear Hfl. induction evs' as [|e evs' IH]; [done|].
  cbn [foldl]. assert (Hs : step s e = s).
  { destruct e as [dir now|t now]; cbn [step].
    - by apply tryMove_finished.
    - by rewrite Hp. }
  rewrite Hs. exact IH.
Qed.

Lemma finished_game_is_frozen_witness :
  run (newSession maze5 keys5)
      ((walkToExit ++ [Frame 720 720]) ++ [Request "right" 800; Frame 920 920]) =
  run (newSession maze5 keys5) (walkToExit ++ [Frame 720 720]).
Proof.
  apply (finished_game_is_frozen maze5 keys5 (walkToExit ++ [Frame 720 720])).
  reflexivity.
Defined.

(* ------------------------------------------------------------------ *)
(** ** The course of one move *)

(** A frame is early when less than [MOVE_MS] have passed. *)
Lemma early_iff (a : Animation) (t : Q) : early a t <-> (t < startT a + 120)%Q.
Proof.
  unfold early, MOVE_MS.
  assert (Hdiv : ((t - startT a) / 120 < 1 <-> t < startT a + 120)%Q).
  { split; intros H.
    - apply Qlt_shift_div_r in H || (apply (Qmult_lt_compat_r _ _ 120) in H; [|done]).
      all: try (field_simplify in H; lra).
    - apply Qlt_shift_div_r; [done|]. lra. }
  rewrite <- Hdiv. split; intros H.
  - destruct (Q.min_spec 1 ((t - startT a) / 120)) as [[? Heq]|[? Heq]]; rewrite Heq in H; lra.
  - eapply Qle_lt_trans; [apply Q.le_min_r|done].
Qed.





(* ================================================================== *)
(** * Winning the game *)

(* ------------------------------------------------------------------ *)
(** ** What a session has walked *)

Lemma walkEvents_app (dirs dirs' : list string) : forall t0,
  walkEvents t0 (dirs ++ dirs') =
  walkEvents t0 dirs ++ walkEvents (walkEnd t0 dirs) dirs'.
Proof.
  induction dirs as [|d dirs IH]; intros t0; [done|].
  cbn [app walkEvents]. by rewrite IH.
Qed.

(* ------------------------------------------------------------------ *)

Section Winning.
Variable m : Grid.
Variable k : KeyCells.

Lemma stepsInv_start : stepsInv m k 0 0 (newSession m k).
Proof.
  constructor; try done.
  exists 0%nat. split; [|by cbn].
  unfold playerCell. simpl. destruct (startCell k). constructor.
Qed.

Lemma stepsInv_mono (R F R' F' : nat) (s : Game) :
  (R <= R')%nat -> (F <= F')%nat -> stepsInv m k R F s -> stepsInv m k R' F' s.
Proof.
  intros HR HF [Hh Hc Hf]. constructor.
  - destruct Hh as (n & Hn & Hb). exists n. split; [exact Hn|lia].
  - intros Hcandy. destruct (Hc Hcandy) as (n1 & n2 & H1 & H2 & Hb).
    exists n1, n2. split; [exact H1|]. split; [exact H2|lia].
  - intros Hfin. destruct (Hf Hfin) as (n1 & n2 & H1 & H2 & Hb).
    exists n1, n2. split; [exact H1|]. split; [exact H2|lia].
Qed.

Lemma queued_le (s : Game) : (queued s <= 1)%nat.
Proof. unfold queued. destruct (truthy _); lia. Qed.

(** A call of [tryMove] that a request makes. *)
Lemma stepsInv_tryMove (R F : nat) (dir : string) (now : Q) (s : Game) :
  walkInv m k s -> stepsInv m k R F s -> stepsInv m k (S R) F (tryMove dir now s).
Proof.
  intros Hw H. unfold tryMove.
  destruct (gameFinished s) eqn:Hfin; [by apply (stepsInv_mono R F); [lia|lia|]|].
  destruct (moving (player s)) eqn:Hmv.
  { destruct H as [Hh Hc Hf]. constructor.
    - destruct Hh as (n & Hn & Hb). exists n. split; [exact Hn|].
      pose proof (queued_le (withQueue (Some dir) s)) as Hq.
      unfold inFlight, queued in *. cbn [pending queuedDir withQueue] in *. lia.
    - cbn [player]. intros Hcandy. destruct (Hc Hcandy) as (n1 & n2 & H1 & H2 & Hb).
      exists n1, n2. split; [exact H1|]. split; [exact H2|].
      pose proof (queued_le (withQueue (Some dir) s)) as Hq.
      unfold inFlight, queued in *. cbn [pending queuedDir withQueue] in *. lia.
    - done. }
  destruct (dirToDelta dir) as [d|] eqn:Hd; [|by apply (stepsInv_mono R F); [lia|lia|]].
  destruct (isWalkable (maze s) _ _) eqn:Hwk; cbn [negb];
    [|by apply (stepsInv_mono R F); [lia|lia|]].
  assert (Hrest : inFlight s = 0%nat).
  { unfold inFlight. destruct (pending s) as [a|] eqn:Hpend; [|done].
    destruct (walk_flight _ _ _ Hw a Hpend) as (Hmv' & _). congruence. }
  rewrite (walk_maze _ _ _ Hw) in Hwk.
  pose proof (dirToDelta_unit dir d Hd) as Hu.
  assert (Hadj : adjacent (playerCell s)
                   (cellX (player s) + d.1, cellY (player s) + d.2)).
  { unfold adjacent, playerCell. simpl. lia. }
  destruct H as [Hh Hc Hf]. constructor.
  - destruct Hh as (n & Hn & Hb). exists (S n). split.
    + eapply path_step; [exact Hn|exact Hadj|exact Hwk].
    + unfold inFlight, queued in *. cbn [pending queuedDir truthy]. lia.
  - cbn [player hasCandy]. intros Hcandy.
    destruct (Hc Hcandy) as (n1 & n2 & H1 & H2 & Hb).
    exists n1, (S n2). split; [exact H1|]. split.
    + eapply path_step; [exact H2|exact Hadj|exact Hwk].
    + unfold inFlight, queued in *. cbn [pending queuedDir truthy]. lia.
  - done.
Qed.

(** The call of [tryMove] that takes the waiting direction out of the
    slot: its request was counted when it was put there. *)
Lemma stepsInv_drainQueue (R F : nat) (now : Q) (s : Game) :
  walkInv m k s -> gameFinished s = false ->
  stepsInv m k R F s -> stepsInv m k R F (drainQueue now s).
Proof.
  intros Hw Hfin H. unfold drainQueue.
  destruct (truthy (queuedDir s)) as [next|] eqn:Hq; [|exact H].
  assert (HR : exists R', R = S R').
  { destruct H as [(n & _ & Hb) _ _]. unfold queued in Hb. rewrite Hq in Hb.
    destruct R as [|R']; [lia|by exists R']. }
  destruct HR as [R' ->].
  apply stepsInv_tryMove; [by apply (walkInv_withQueue m k None)|].
  destruct H as [Hh Hc Hf]. constructor.
  - destruct Hh as (n & Hn & Hb). exists n. split; [exact Hn|].
    unfold inFlight, queued in *. rewrite Hq in Hb. cbn [pending queuedDir truthy]. lia.
  - cbn [player]. intros Hcandy. destruct (Hc Hcandy) as (n1 & n2 & H1 & H2 & Hb).
    exists n1, n2. split; [exact H1|]. split; [exact H2|].
    unfold inFlight, queued in *. rewrite Hq in Hb. cbn [pending queuedDir truthy]. lia.
  - cbn [gameFinished]. by rewrite Hfin.
Qed.

Lemma stepsInv_frame (R F : nat) (t now : Q) (s : Game) :
  walkInv m k s -> stepsInv m k R F s -> stepsInv m k R (S F) (step s (Frame t now)).
Proof.
  intros Hw H. cbn [step].
  destruct (pending s) as [a|] eqn:Hpend; [|by apply (stepsInv_mono R F); [lia|lia|]].
  destruct (early_or_late a t) as [He|Hl].
  - destruct (animate_early a t now s He) as (Hp & (Hf & Hc & _) & Hcell & Hqd & _).
    destruct H as [Hh Hcan Hfin]. unfold inFlight, queued in *.
    rewrite Hpend in *. constructor; unfold inFlight, queued.
    + rewrite Hcell, Hp, Hqd. destruct Hh as (n & Hn & Hb). exists n.
      split; [exact Hn|lia].
    + rewrite Hcell, Hp, Hqd, Hc. intros Hcandy.
      destruct (Hcan Hcandy) as (n1 & n2 & H1 & H2 & Hb).
      exists n1, n2. split; [exact H1|]. split; [exact H2|lia].
    + rewrite Hf. intros Hdone. destruct (Hfin Hdone) as (n1 & n2 & H1 & H2 & Hb).
      exists n1, n2. split; [exact H1|]. split; [exact H2|lia].
  - rewrite (animate_late a t now s Hl).
    destruct (walk_flight _ _ _ Hw a Hpend) as (_ & Hnot & _ & _).
    pose proof (walkInv_land m k a s Hw Hpend) as Hwl.
    pose proof (walk_keys _ _ _ Hw) as Hk.
    assert (Hland : stepsInv m k R (S F) (land a s)).
    { destruct H as [Hh Hcan Hfin]. unfold inFlight, queued in *.
      rewrite Hpend in *. destruct Hh as (n & Hn & Hb).
      constructor; unfold inFlight, queued; cbn [land pending queuedDir].
      - exists n. split; [exact Hn|lia].
      - cbn [land player hasCandy]. intros Hor.
        destruct (hasCandy (player s)) eqn:Hcandy.
        + destruct (Hcan eq_refl) as (n1 & n2 & H1 & H2 & Hb').
          exists n1, n2. split; [exact H1|]. split; [exact H2|lia].
        + cbn [negb andb orb] in Hor. apply bool_decide_eq_true in Hor.
          rewrite Hk in Hor. destruct n as [|n']; [lia|].
          exists n', 0%nat. unfold playerCell in *. cbn [player cellX cellY].
          rewrite Hor in Hn. split; [exact Hn|]. split; [|lia].
          change (path m 0 (candyCell k) (cellX (player s), cellY (player s))).
          rewrite Hor. constructor.
      - cbn [land gameFinished]. by rewrite Hnot. }
    assert (Hwsay : walkInv m k (say FindCandyFirst (land a s))).
    { destruct Hwl. by constructor. }
    assert (Hsay : stepsInv m k R (S F) (say FindCandyFirst (land a s))).
    { destruct Hland. by constructor. }
    destruct (bool_decide (playerCell s = exitCell (keys s))) eqn:Hexit.
    + destruct (hasCandy (player (land a s))) eqn:Hcl; cbn [negb].
      * unfold finishMaze. cbn [gameFinished say land]. rewrite Hnot.
        destruct Hland as [Hh' Hcan' Hfin']. constructor; [exact Hh'|exact Hcan'|].
        intros _. destruct (Hcan' Hcl) as (n1 & n2 & H1 & H2 & Hb).
        apply bool_decide_eq_true in Hexit. rewrite Hk in Hexit.
        exists n1, n2. split; [exact H1|]. split.
        { rewrite <- Hexit. exact H2. }
        unfold inFlight in Hb. cbn [land pending] in Hb. lia.
      * by apply stepsInv_drainQueue.
    + by apply stepsInv_drainQueue.
Qed.

Lemma stepsInv_run (evs : list Event) : forall (R F : nat) (s : Game),
  walkInv m k s -> stepsInv m k R F s ->
  stepsInv m k (R + requests evs) (F + frames evs) (run s evs).
Proof.
  induction evs as [|e evs IH]; intros R F s Hw H.
  - cbn [requests frames run foldl]. by rewrite !Nat.add_0_r.
  - pose proof (walkInv_step m k s e Hw) as Hw'.
    destruct e as [dir now|t now]; cbn [requests frames run foldl].
    + rewrite Nat.add_succ_r. apply (IH (S R) F _ Hw'). by apply stepsInv_tryMove.
    + rewrite Nat.add_succ_r. apply (IH R (S F) _ Hw'). by apply stepsInv_frame.
Qed.

(** A finished game has walked to the candy and on to the exit, a step
    for a request and for a frame at most. *)
Lemma finished_walked (evs : list Event) :
  gameFinished (run (newSession m k) evs) = true ->
  exists n1 n2, path m (S n1) (startCell k) (candyCell k) /\
    path m n2 (candyCell k) (exitCell k) /\
    (S n1 + n2 <= requests evs /\ S n1 + n2 <= frames evs)%nat.
Proof.
  intros Hfin.
  destruct (stepsInv_run evs 0 0 _ (walkInv_start m k) stepsInv_start) as [_ _ Hf].
  exact (Hf Hfin).
Qed.

(** Orthogonal neighbours are one named direction apart. *)
Lemma adjacent_dir (a b : Cell) :
  adjacent a b -> exists dir, dirToDelta dir = Some (b.1 - a.1, b.2 - a.2).
Proof.
  unfold adjacent. intros H.
  assert (Hc : (b.1 - a.1 = 0 /\ b.2 - a.2 = -1) \/ (b.1 - a.1 = 0 /\ b.2 - a.2 = 1) \/
               (b.1 - a.1 = -1 /\ b.2 - a.2 = 0) \/ (b.1 - a.1 = 1 /\ b.2 - a.2 = 0)) by lia.
  destruct Hc as [[-> ->]|[[-> ->]|[[-> ->]|[-> ->]]]].
  - by exists "up"%string.
  - by exists "down"%string.
  - by exists "left"%string.
  - by exists "right"%string.
Qed.

(** One whole move from rest onto the walkable neighbour [c]. *)
Lemma move_to (s : Game) (c : Cell) (dir : string) (t0 : Q) :
  walkInv m k s -> pending s = None -> gameFinished s = false ->
  dirToDelta dir = Some (c.1 - cellX (player s), c.2 - cellY (player s)) ->
  isWalkable m c.1 c.2 = true ->
  let s' := run s (walkEvents t0 [dir]) in
  pending s' = None /\ playerCell s' = c /\
  hasCandy (player s') = hasCandy (player s) || bool_decide (c = candyCell k) /\
  gameFinished s' = bool_decide (c = exitCell k) && hasCandy (player s').
Proof.
  intros Hw Hpend Hfin Hd Hwk.
  destruct (walk_rest _ _ _ Hw Hpend) as (Hmv & _ & _).
  pose proof (walk_maze _ _ _ Hw) as Hm. pose proof (walk_keys _ _ _ Hw) as Hk.
  destruct c as [x y]. simpl in Hd, Hwk.
  assert (Ht : tryMove dir t0 s =
    {| maze := maze s; keys := keys s;
       player := {| cellX := x; cellY := y; px := px (player s); py := py (player s);
                    moving := true; hasCandy := hasCandy (player s) |};
       gameFinished := gameFinished s; queuedDir := None;
       pending := Some {| sx := cellX (player s); sy := cellY (player s);
                          ex := x; ey := y; startT := t0 |};
       notices := notices s |}).
  { unfold tryMove. rewrite Hfin, Hmv, Hd. cbn [fst snd].
    replace (cellX (player s) + (x - cellX (player s))) with x by lia.
    replace (cellY (player s) + (y - cellY (player s))) with y by lia.
    by rewrite Hm, Hwk. }
  unfold run. cbn [walkEvents foldl step]. rewrite Ht. cbn [pending].
  rewrite animate_late by (rewrite early_iff; cbn [startT]; apply Qlt_irrefl).
  unfold land, say, finishMaze, drainQueue, truthy, playerCell.
  cbn [player cellX cellY keys hasCandy queuedDir gameFinished pending].
  rewrite Hk, Hfin.
  destruct (bool_decide ((x, y) = exitCell k));
    destruct (hasCandy (player s)); destruct (bool_decide ((x, y) = candyCell k));
    cbn [negb andb orb player hasCandy gameFinished pending cellX cellY]; done.
Qed.

(** The events that walk a path from rest, unless the game ends on the
    way. *)
Lemma walk_along (n : nat) (a b : Cell) :
  path m n a b -> forall s t0,
  walkInv m k s -> pending s = None -> gameFinished s = false -> playerCell s = a ->
  exists dirs,
    let s' := run s (walkEvents t0 dirs) in
    (length dirs <= n)%nat /\
    (hasCandy (player s) = true -> hasCandy (player s') = true) /\
    (gameFinished s' = true \/
     (walkInv m k s' /\ pending s' = None /\ gameFinished s' = false /\
      playerCell s' = b /\
      ((0 < n)%nat -> b = candyCell k -> hasCandy (player s') = true) /\
      ((0 < n)%nat -> b = exitCell k -> hasCandy (player s') = false))).
Proof.
  induction 1 as [a|n a b c Hab IH Hadj Hwk]; intros s t0 Hw Hpend Hfin Hcell.
  - exists []. cbn [walkEvents run foldl]. split; [done|]. split; [done|]. right.
    split; [exact Hw|]. split; [exact Hpend|]. split; [exact Hfin|]. split; [exact Hcell|].
    split; intros; lia.
  - destruct (IH s t0 Hw Hpend Hfin Hcell) as (dirs & Hlen & Hkeep & Hcase).
    destruct Hcase as [Hdone|(Hw1 & Hpend1 & Hfin1 & Hcell1 & _)].
    { exists dirs. split; [lia|]. by split; [|left]. }
    destruct (adjacent_dir b c Hadj) as [dir Hdir].
    exists (dirs ++ [dir]). cbn zeta. rewrite walkEvents_app.
    unfold run in *. rewrite foldl_app.
    set (s1 := foldl step s (walkEvents t0 dirs)) in *.
    assert (Hd : dirToDelta dir = Some (c.1 - cellX (player s1), c.2 - cellY (player s1))).
    { unfold playerCell in Hcell1. rewrite <- Hcell1 in Hdir. exact Hdir. }
    destruct (move_to s1 c dir (walkEnd t0 dirs) Hw1 Hpend1 Hfin1 Hd Hwk)
      as (Hp2 & Hc2 & Hcandy2 & Hfin2).
    unfold run in *. set (s2 := foldl step s1 (walkEvents _ [dir])) in *.
    split; [rewrite length_app; simpl; lia|]. split.
    { intros Hh. rewrite Hcandy2, (Hkeep Hh). done. }
    destruct (gameFinished s2) eqn:Hf2; [by left|]. right.
    split; [by apply (walkInv_run m k (walkEvents (walkEnd t0 dirs) [dir]))|].
    split; [exact Hp2|]. split; [done|]. split; [exact Hc2|]. split.
    + intros _ ->. rewrite Hcandy2, bool_decide_eq_true_2 by done.
      by rewrite orb_true_r.
    + intros _ ->. rewrite bool_decide_eq_true_2 in Hfin2 by done.
      symmetry. exact Hfin2.
Qed.

(** A path of one step at least to the candy and a path on to the exit
    can be walked to the end of the game. *)
Lemma walked_finishes (n n2 : nat) :
  path m (S n) (startCell k) (candyCell k) ->
  path m n2 (candyCell k) (exitCell k) ->
  exists dirs, (length dirs <= S n + n2)%nat /\
    gameFinished (run (newSession m k) (walkEvents 0 dirs)) = true.
Proof.
  intros Hcandy Hexit.
  destruct (walk_along _ _ _ Hcandy (newSession m k) 0 (walkInv_start m k))
    as (dirs1 & Hlen1 & _ & Hcase); try done.
  { unfold playerCell. simpl. by destruct (startCell k). }
  destruct Hcase as [Hdone|(Hw1 & Hpend1 & Hfin1 & Hcell1 & Hgot & Hlock)].
  { exists dirs1. split; [lia|exact Hdone]. }
  specialize (Hgot ltac:(lia) eq_refl).
  destruct (walk_along _ _ _ Hexit _ (walkEnd 0 dirs1) Hw1 Hpend1 Hfin1 Hcell1)
    as (dirs2 & Hlen2 & Hkeep & Hcase).
  exists (dirs1 ++ dirs2). split; [rewrite length_app; lia|].
  rewrite walkEvents_app. unfold run in *. rewrite foldl_app.
  destruct Hcase as [Hdone|(_ & _ & _ & Hcell2 & _ & Hlock2)]; [done|].
  specialize (Hkeep Hgot).
  destruct n2 as [|n2].
  - inversion Hexit; subst. rewrite Hlock in Hgot by (done || lia). done.
  - rewrite Hlock2 in Hkeep by (done || lia). done.
Qed.
End Winning.

(** Property X23. The game can be won exactly when the candy and the
    exit can be walked to. If some requests and frames finish a new
    session, a path over passages leads from the start cell to the candy
    cell in one step at least, and a path leads from the candy cell to the
    exit cell. Given such paths, one of [n + 1] and one of [n2] steps,
    there are at most [n + 1 + n2] directions that finish the session when
    they are requested one after another, each when the move before has
    been animated to its end. *)
Theorem game_won_iff_candy_and_exit_reached (m : Grid) (k : KeyCells) :
  ((exists evs, gameFinished (run (newSession m k) evs) = true) ->
   (exists n, path m (S n) (startCell k) (candyCell k)) /\
   reachable m (candyCell k) (exitCell k)) /\
  (forall n n2, path m (S n) (startCell k) (candyCell k) ->
   path m n2 (candyCell k) (exitCell k) ->
   exists dirs, (length dirs <= S n + n2)%nat /\
     gameFinished (run (newSession m k) (walkEvents 0 dirs)) = true).
Proof.
  split.
  - intros [evs Hfin]. destruct (finished_walked m k evs Hfin) as (n1 & n2 & H1 & H2 & _).
    split; [by exists n1|by exists n2].
  - intros n n2 Hc He. by apply (walked_finishes m k n n2).
Qed.

Lemma game_won_iff_candy_and_exit_reached_witness :
  exists dirs, (length dirs <= 6)%nat /\
    gameFinished (run (newSession maze5 keys5) (walkEvents 0 dirs)) = true.
Proof.
  apply (proj2 (game_won_iff_candy_and_exit_reached maze5 keys5) 5%nat 0%nat);
    [|constructor].
  apply (path_step _ _ _ (2, 1)); [|by vm_compute|reflexivity].
  apply (path_step _ _ _ (3, 1)); [|by vm_compute|reflexivity].
  apply (path_step _ _ _ (3, 2)); [|by vm_compute|reflexivity].
  apply (path_step _ _ _ (3, 3)); [|by vm_compute|reflexivity].
  apply (path_step _ _ _ (2, 3)); [|by vm_compute|reflexivity].
  apply (path_step _ _ _ (1, 3)); [|by vm_compute|reflexivity].
  constructor.
Defined.

(** Property X24. Finishing takes the way over the candy: when the
    requests and frames [evs] finish a new session, some path over passages
    from the start cell to the candy cell, of one step at least, and some
    path from the candy cell to the exit cell have together no more steps
    than [evs] has requests, and no more than it has frames. *)
Theorem finishing_takes_the_way_over_the_candy (m : Grid) (k : KeyCells) (evs : list Event) :
  gameFinished (run (newSession m k) evs) = true ->
  exists n1 n2, path m (S n1) (startCell k) (candyCell k) /\
    path m n2 (candyCell k) (exitCell k) /\
    (S n1 + n2 <= requests evs /\ S n1 + n2 <= frames evs)%nat.
Proof. apply finished_walked. Qed.

Lemma finishing_takes_the_way_over_the_candy_witness :
  gameFinished (run (newSession maze5 keys5) (walkEvents 0 walk5)) = true /\
  exists n1 n2, path maze5 (S n1) (1, 3) (1, 1) /\ path maze5 n2 (1, 1) (1, 1) /\
    (S n1 + n2 <= 6 /\ S n1 + n2 <= 6)%nat.
Proof.
  split; [by vm_compute|].
  apply (finishing_takes_the_way_over_the_candy maze5 keys5 (walkEvents 0 walk5)).
  by vm_compute.
Defined.

(* ------------------------------------------------------------------ *)
(** ** A maze cut in two *)

Lemma forkStream_unitRange : unitRange forkStream.
Proof.
  intros i. unfold forkStream. repeat case_bool_decide; split; done.
Qed.

(** Property X3. The soft re-walling can cut the maze: there is a
    stream of draws in [[0, 1)] for which the carve loop on a 7 by 7 grid
    leaves cell (3, 5) a passage with three passages around it, the grid
    [generatePerfectMaze] returns has a wall there, and on that grid
    [placeKeyCells] returns a start cell and a candy cell, both passages,
    with no path over passages from the one to the other; no requests and
    frames finish a session on that grid with these key cells. *)
Theorem soft_walls_can_cut_the_maze :
  exists rnd g1 k1 g k,
    unitRange rnd /\
    carvePhase rnd 7 7 = Ok (g1, k1) /\
    isWalkable g1 3 5 = true /\ openNeighbours g1 3 5 = 3 /\
    generatePerfectMaze rnd 7 7 = Ok g /\ isWalkable g 3 5 = false /\
    placeKeyCells g = Ok k /\
    isWalkable g (startCell k).1 (startCell k).2 = true /\
    isWalkable g (candyCell k).1 (candyCell k).2 = true /\
    ~ reachable g (startCell k) (candyCell k) /\
    forall evs, gameFinished (run (newSession g k) evs) = false.
Proof.
  exists forkStream, carved7, 68%nat, maze7,
    {| startCell := (1, 5); exitCell := (1, 1); candyCell := (3, 2) |}.
  split; [apply forkStream_unitRange|].
  split; [by vm_compute|]. split; [reflexivity|]. split; [reflexivity|].
  split; [by vm_compute|]. split; [reflexivity|].
  split; [by vm_compute|]. split; [reflexivity|]. split; [reflexivity|].
  assert (Hcut : ~ reachable maze7 (1, 5) (3, 2)).
  { intros [n Hn].
    destruct (bfsDistances_spec maze7 (1, 5)) as (dist & Hrun & Hinv);
      [by vm_compute|by vm_compute|].
    pose proof (bfsInv_complete maze7 (1, 5) dist n (3, 2) Hinv Hn) as [H0 _].
    vm_compute in Hrun. inversion Hrun; subst dist. by vm_compute in H0. }
  cbn [startCell candyCell]. split; [exact Hcut|].
  intros evs. destruct (gameFinished (run _ evs)) eqn:Hfin; [|done].
  exfalso. apply Hcut.
  destruct (finished_walked _ _ evs Hfin) as (n1 & _ & H1 & _).
  by exists (S n1).
Qed.
(* ================================================================== *)
(** * Canvas layout: [fitCanvas] *)

(** Floors and quotients of numbers that are not negative. *)
Lemma Qfloor_nonneg (q : Q) : (0 <= q)%Q -> 0 <= Qfloor q.
Proof. intros H. rewrite <- (Qfloor_Z 0). by apply Qfloor_resp_le. Qed.

Lemma Qdiv_nonneg (a b : Z) : 0 <= a -> 0 < b -> (0 <= inject_Z a / inject_Z b)%Q.
Proof.
  intros Ha Hb. apply Qle_shift_div_l.
  - change 0%Q with (inject_Z 0). rewrite <- Zlt_Qlt. lia.
  - rewrite Qmult_0_l. change 0%Q with (inject_Z 0). rewrite <- Zle_Qle. lia.
Qed.

(** An integer at most a quotient of integers, times the divisor, is at most
    the dividend. *)
Lemma floor_div_bound (n a b : Z) :
  0 < b -> (inject_Z n <= inject_Z a / inject_Z b)%Q -> n * b <= a.
Proof.
  intros Hb Hn.
  assert (Hb' : (0 < inject_Z b)%Q) by (change 0%Q with (inject_Z 0); rewrite <- Zlt_Qlt; lia).
  apply (Qmult_le_compat_r _ _ (inject_Z b)) in Hn; [|lra].
  assert (Heq : (inject_Z a / inject_Z b * inject_Z b == inject_Z a)%Q).
  { field. lra. }
  rewrite Heq, <- inject_Z_mult, <- Zle_Qle in Hn. exact Hn.
Qed.

(** Half of a margin, rounded down, fits the margin twice. *)
Lemma half_floor_bounds (n : Z) :
  0 <= n -> 0 <= Qfloor (inject_Z n / 2) /\ 2 * Qfloor (inject_Z n / 2) <= n.
Proof.
  intros Hn. split.
  - apply Qfloor_nonneg. apply (Qdiv_nonneg n 2); lia.
  - pose proof (Qfloor_le (inject_Z n / 2)) as Hle.
    change 2%Q with (inject_Z 2) in *.
    apply floor_div_bound in Hle; lia.
Qed.

(** A product of integers is its own floor. *)
Lemma floor_product (a b : Z) : Qfloor (inject_Z a * inject_Z b) = a * b.
Proof. rewrite <- inject_Z_mult. apply Qfloor_Z. Qed.

(** Property X14. For a maze with rows and columns and a canvas whose
    client width is not negative, [fitCanvas] returns a layout in which the
    maze fits the canvas: the scale is at least 1, the canvas is [min(980,
    clientWidth)] wide times the scale, the cell size and both offsets are
    not negative, and the grid with its offset on either side is no wider
    and no higher than the canvas. *)
Theorem maze_fits_the_canvas (rows cols wrapW : Z) (ratio : option Q) :
  0 < rows -> 0 < cols -> 0 <= wrapW ->
  exists l, fitCanvas rows cols wrapW ratio = Ok l /\
    1 <= scale l /\
    canvasWidth l = Z.min 980 wrapW * scale l /\
    0 <= cellSize l /\
    0 <= offsetX l /\ 0 <= offsetY l /\
    (2 * offsetX l + cellSize l * cols) * scale l <= canvasWidth l /\
    (2 * offsetY l + cellSize l * rows) * scale l <= canvasHeight l.
Proof.
  intros Hr Hc Hw. unfold fitCanvas. rewrite decide_False by lia.
  set (targetW := Z.min 980 wrapW).
  set (targetH := jsRound (inject_Z targetW * (inject_Z rows / inject_Z cols))).
  set (dpr := Z.max 1 _).
  set (size := Qfloor (Qmin _ _)).
  eexists. split; [reflexivity|]. cbn [scale canvasWidth canvasHeight cellSize offsetX offsetY].
  rewrite !floor_product.
  assert (HtW : 0 <= targetW) by (unfold targetW; lia).
  assert (HtH : 0 <= targetH).
  { unfold targetH, jsRound. apply Qfloor_nonneg.
    pose proof (Qdiv_nonneg rows cols ltac:(lia) Hc).
    assert (0 <= inject_Z targetW)%Q
      by (change 0%Q with (inject_Z 0); rewrite <- Zle_Qle; lia).
    assert (0 <= inject_Z targetW * (inject_Z rows / inject_Z cols))%Q
      by (by apply Qmult_le_0_compat).
    lra. }
  assert (Hsize0 : 0 <= size).
  { unfold size. apply Qfloor_nonneg. apply Q.min_glb; by apply Qdiv_nonneg. }
  assert (HsW : size * cols <= targetW).
  { apply floor_div_bound; [done|]. unfold size.
    eapply Qle_trans; [apply Qfloor_le|]. apply Q.le_min_l. }
  assert (HsH : size * rows <= targetH).
  { apply floor_div_bound; [done|]. unfold size.
    eapply Qle_trans; [apply Qfloor_le|]. apply Q.le_min_r. }
  destruct (half_floor_bounds (targetW - size * cols) ltac:(lia)) as [Hx0 Hx1].
  destruct (half_floor_bounds (targetH - size * rows) ltac:(lia)) as [Hy0 Hy1].
  assert (Hd : 1 <= dpr) by (unfold dpr; lia).
  split; [done|]. split; [done|]. split; [done|]. split; [done|]. split; [done|].
  split; apply Z.mul_le_mono_nonneg_r; lia.
Qed.

Lemma maze_fits_the_canvas_witness :
  exists l, fitCanvas 29 41 800 (Some 2%Q) = Ok l /\
    (2 * offsetX l + cellSize l * 41) * scale l <= canvasWidth l.
Proof.
  destruct (maze_fits_the_canvas 29 41 800 (Some 2%Q))
    as (l & Hl & _ & _ & _ & _ & _ & Hfit & _); [lia..|].
  exists l. split; [exact Hl|exact Hfit].
Defined.

(* ================================================================== *)
(** * The house sequence: [runHouseSequence] *)

(** In exact arithmetic a draw in [[0, 1)] gives a delay from [a] up to,
    but not including, [b]. *)
Lemma randBetween_range (r : Q) (a b : Z) :
  (0 <= r)%Q -> (r < 1)%Q -> a < b -> a <= randBetween r a b < b.
Proof.
  intros H0 H1 Hab. unfold randBetween.
  assert (Hd : (0 < inject_Z (b - a))%Q).
  { change 0%Q with (inject_Z 0). rewrite <- Zlt_Qlt. lia. }
  assert (Hsub : (inject_Z (b - a) == inject_Z b - inject_Z a)%Q).
  { unfold Z.sub. by rewrite inject_Z_plus, inject_Z_opp. }
  split.
  - rewrite <- (Qfloor_Z a) at 1. apply Qfloor_resp_le.
    assert (0 <= r * inject_Z (b - a))%Q by (apply Qmult_le_0_compat; lra). lra.
  - rewrite Zlt_Qlt. eapply Qle_lt_trans; [apply Qfloor_le|].
    assert (r * inject_Z (b - a) < 1 * inject_Z (b - a))%Q
      by (by apply Qmult_lt_compat_r).
    lra.
Qed.

(** Property X21. For every stream of draws in [[0, 1)]
    [runHouseSequence] sets three timers and uses three draws: the thanks
    text after 2000 to 3000 ms, the envelope after 4200 to 6000 ms and the
    hint after 6500 to 9000 ms (each upper end included: in exact
    arithmetic it is never reached, a sum of doubles rounded up can reach
    it); so the three are always revealed in this order. *)
Theorem house_reveals_in_order (rnd : nat -> Q) (k : nat) :
  unitRange rnd ->
  exists t1 t2 t3,
    runHouseSequence rnd k =
      ([(t1, ShowThanks); (t2, ShowEnvelope); (t3, ShowHint)], (k + 3)%nat) /\
    2000 <= t1 <= 3000 /\ 4200 <= t2 <= 6000 /\ 6500 <= t3 <= 9000 /\
    t1 < t2 < t3.
Proof.
  intros Hrnd. unfold runHouseSequence.
  destruct (Hrnd k) as [A0 A1]. destruct (Hrnd (S k)) as [B0 B1].
  destruct (Hrnd (S (S k))) as [C0 C1].
  pose proof (randBetween_range (rnd k) 2000 3000 A0 A1 ltac:(lia)).
  pose proof (randBetween_range (rnd (S k)) 4200 6000 B0 B1 ltac:(lia)).
  pose proof (randBetween_range (rnd (S (S k))) 6500 9000 C0 C1 ltac:(lia)).
  eexists _, _, _. split; [by rewrite Nat.add_comm|]. lia.
Qed.

Lemma house_reveals_in_order_witness :
  exists t1 t2 t3,
    runHouseSequence zeroStream 0 =
      ([(t1, ShowThanks); (t2, ShowEnvelope); (t3, ShowHint)], 3%nat) /\
    t1 < t2 < t3.
Proof.
  destruct (house_reveals_in_order zeroStream 0 zeroStream_unitRange)
    as (t1 & t2 & t3 & Hrun & _ & _ & _ & Hlt).
  exists t1, t2, t3. split; [exact Hrun|exact Hlt].
Defined.

(* ================================================================== *)
(** * Restart: [resetGame], [initGame] *)

Lemma lateHalfStream_unitRange : unitRange lateHalfStream.
Proof. intros i. unfold lateHalfStream. destruct (i <? 2516)%nat; split; done. Qed.

(** Property X22. Restarting gives a fresh game. For every stream of
    draws in [[0, 1)], when [initGame(true)] returns on a game [resetGame]
    has just cleared, then [generatePerfectMaze(41, 29)] and [placeKeyCells]
    have returned the new maze, of 41 columns and 29 rows, and its key
    cells; the player stands at rest and without candy on the start cell,
    which is (1, 27); the game is not finished and no move is queued; and
    there are six monsters, on passages that are no key cells. *)
Theorem restart_gives_a_fresh_game (rnd : nat -> Q) (fuel : nat) (s s' : Game)
    (ms ms' : list Monster) :
  unitRange rnd ->
  initGame rnd fuel true (resetGame s) ms = Ok (s', ms') ->
  exists g k,
    generatePerfectMaze rnd 41 29 = Ok g /\ placeKeyCells g = Ok k /\
    cols g = 41 /\ rows g = 29 /\ startCell k = (1, 27) /\
    maze s' = g /\ keys s' = k /\
    player s' = player (newSession g k) /\
    gameFinished s' = false /\ queuedDir s' = None /\
    length ms' = 6%nat /\
    forall m, m ∈ ms' ->
      isWalkable g (monsterX m) (monsterY m) = true /\
      isKeyCell k (monsterX m, monsterY m) = false.
Proof.
  intros Hrnd Hrun.
  destruct (generated_keys rnd 41 29 Hrnd) as (g & k & Hg & Hk & Hstart & _);
    [done|done|].
  destruct (generate_stages rnd 41 29 Hrnd) as (g1 & k1 & g2 & k2 & g' & Hcarve & Hsoft & _ &
    Hg' & _ & _ & Hinv & _); [lia|lia|].
  rewrite Hg in Hg'. inversion Hg'; subst g'. clear Hg'.
  change (ensureOdd 41) with 41 in *. change (ensureOdd 29) with 29 in *.
  pose proof (rect_rows _ _ _ (soft_rect _ _ _ Hinv)) as Hrows.
  pose proof (rect_cols _ _ _ (soft_rect _ _ _ Hinv) ltac:(lia)) as Hcols.
  exists g, k. split; [done|]. split; [done|]. split; [done|]. split; [done|].
  split; [by rewrite Hstart, Hrows|].
  unfold initGame, GEN_COLS, GEN_ROWS in Hrun. cbn [orb] in Hrun.
  rewrite Hg in Hrun. cbn [mbind res_bind] in Hrun.
  unfold generateDraws in Hrun. change (ensureOdd 41) with 41 in Hrun.
  change (ensureOdd 29) with 29 in Hrun.
  rewrite Hcarve in Hrun. cbn [mbind res_bind] in Hrun.
  rewrite Hsoft in Hrun. cbn [mbind res_bind] in Hrun.
  rewrite Hk in Hrun. cbn [mbind res_bind] in Hrun.
  destruct (placeMonsters _ fuel g k) as [[ms1 n1]|] eqn:Hmon; [|done].
  cbn [mbind res_bind] in Hrun. inversion Hrun; subst s' ms'. clear Hrun.
  cbn [maze keys player gameFinished queuedDir resetGame hasCandy].
  split; [done|]. split; [done|]. split; [done|]. split; [done|]. split; [done|].
  unfold placeMonsters in Hmon.
  destruct (monsterLoop_ok _ k _ fuel 0 0%nat [] ms1 n1 ltac:(lia) (monstersOk_nil k _) Hmon)
    as ((Hlen & Hcells & _) & _).
  split; [lia|]. intros m Hm. destruct (Hcells m Hm) as [Hw%elem_of_getAllPassages Hkey].
  done.
Qed.

Lemma restart_gives_a_fresh_game_witness :
  exists s' ms',
    initGame lateHalfStream 7 true (resetGame (newSession maze5 keys5)) [] = Ok (s', ms') /\
    startCell (keys s') = (1, 27) /\ length ms' = 6%nat.
Proof.
  destruct (initGame lateHalfStream 7 true (resetGame (newSession maze5 keys5)) [])
    as [[s' ms']|e] eqn:Hrun; [|vm_compute in Hrun; discriminate].
  exists s', ms'. split; [reflexivity|].
  destruct (restart_gives_a_fresh_game lateHalfStream 7 _ s' [] ms'
              lateHalfStream_unitRange Hrun)
    as (g & k & _ & _ & _ & _ & Hs & _ & Hk & _ & _ & _ & Hlen & _).
  split; [by rewrite Hk|exact Hlen].
Defined.
